(** * EasyGUI core: the internal macros and the root object of [gui.h]

    The header [00-GUI_LIBRARY/gui.h] defines the internal helper macros of
    the library ([__GUI_MAX], [__GUI_MIN], [__GUI_ABS], [__GUI_RECT_MATCH],
    the two guard macros [__GUI_ASSERTPARAMS] and [__GUI_ASSERTACTIVEWIN],
    the release macro [__GUI_MEMWIDFREE]) and the process-wide object
    [GUI_t].  The widget, timer, input and process code lives in other
    translation units; what is needed from them is modelled from the
    specification and marked as such. *)

From stdpp Require Import base option list gmap strings.
From Stdlib Require Import ZArith Lia.

#[local] Open Scope Z_scope.

(** ** Value macros *)

Module Macros.

(** [#define __GUI_MAX(x, y) ((x) > (y) ? (x) : (y))] *)
Definition __GUI_MAX (x y : Z) : Z := if x >? y then x else y.

(** [#define __GUI_MIN(x, y) ((x) < (y) ? (x) : (y))] *)
Definition __GUI_MIN (x y : Z) : Z := if x <? y then x else y.

(** A signed integer type of [w] bits holds the values of
    [[-2^(w-1), 2^(w-1))]. *)
Definition int_min (w : Z) : Z := - 2 ^ (w - 1).
Definition int_max (w : Z) : Z := 2 ^ (w - 1) - 1.
Definition in_int (w x : Z) : Prop := int_min w <= x <= int_max w.

(** Integer promotion: before an arithmetic operator is applied, an operand
    of a type narrower than [int] is converted to [int]; an operand of
    [int] or of a wider type keeps its type.  [W] is the width of [int],
    [w] the width of the operand's type. *)
Definition promote (W w : Z) : Z := Z.max W w.

(** Unary minus [-(x)] on a signed operand of a [w]-bit type: the operand
    is promoted and negated in the promoted type.  A result that the
    promoted type cannot hold is a signed overflow, for which the language
    defines no behaviour: [None]. *)
Definition neg (W w x : Z) : option Z :=
  if (int_min (promote W w) <=? - x) && (- x <=? int_max (promote W w))
  then Some (- x) else None.

(** [#define __GUI_ABS(x) ((x) >= 0 ? (x) : -(x))] on a signed operand of a
    [w]-bit type; the result has the promoted type. *)
Definition __GUI_ABS (W w x : Z) : option Z := if x >=? 0 then Some x else neg W w x.

(** [#define __GUI_RECT_MATCH(h1x1, h1y1, h1x2, h1y2, h2x1, h2y1, h2x2, h2y2)
      !((h1x1) > (h2x2) || (h1y1) > (h2y2) || (h2x1) > (h1x2) || (h2y1) > (h1y2))] *)
Definition __GUI_RECT_MATCH (h1x1 h1y1 h1x2 h1y2 h2x1 h2y1 h2x2 h2y2 : Z) : bool :=
  negb ((h1x1 >? h2x2) || (h1y1 >? h2y2) || (h2x1 >? h1x2) || (h2y1 >? h1y2)).

End Macros.

Export Macros.

(** ** Rectangles

    A rectangle is given, as in the arguments of [__GUI_RECT_MATCH], by its
    corner [(X1, Y1)] and its opposite corner [(X2, Y2)]; this is also the
    shape of a clip region ([GUI_Display_t]). *)

Record GUI_Display_t : Type := mkDisplay { X1 : Z; Y1 : Z; X2 : Z; Y2 : Z }.

Definition rect_match (a b : GUI_Display_t) : bool :=
  __GUI_RECT_MATCH (X1 a) (Y1 a) (X2 a) (Y2 a) (X1 b) (Y1 b) (X2 b) (Y2 b).

Definition well_formed (a : GUI_Display_t) : Prop :=
  X1 a <= X2 a /\ Y1 a <= Y2 a.

(** The point [(px, py)] lies in the closed rectangle [a]. *)
Definition inside (a : GUI_Display_t) (px py : Z) : Prop :=
  X1 a <= px <= X2 a /\ Y1 a <= py <= Y2 a.

#[export] Instance inside_dec (a : GUI_Display_t) (px py : Z) : Decision (inside a px py) :=
  and_dec _ _.

(** [a] and [b] have a point in common. *)
Definition share_point (a b : GUI_Display_t) : Prop :=
  exists px py, inside a px py /\ inside b px py.

(** [a] and [b] have a region of positive area in common: a box with
    corners [(l, t)] and [(r, b)], [l < r] and [t < b], inside both. *)
Definition share_area (a b : GUI_Display_t) : Prop :=
  exists l t r d, l < r /\ t < d /\
    inside a l t /\ inside a r d /\ inside b l t /\ inside b r d.

(** Modelled from the spec: the clip tracker is not part of this header;
    "intersect(rect) -> rect' (returns the overlap, or empty if disjoint)".
    [intersect a b] is the overlap of two clip regions, or [None], the empty
    region, when [__GUI_RECT_MATCH] finds none. *)
Definition intersect (a b : GUI_Display_t) : option GUI_Display_t :=
  if rect_match a b then
    Some (mkDisplay (__GUI_MAX (X1 a) (X1 b)) (__GUI_MAX (Y1 a) (Y1 b))
                    (__GUI_MIN (X2 a) (X2 b)) (__GUI_MIN (Y2 a) (Y2 b)))
  else None.

(** Modelled from the spec: "contains the point", the point [(px, py)]
    tested against a region with the overlap test of the header. *)
Definition contains (a : GUI_Display_t) (px py : Z) : bool :=
  rect_match (mkDisplay px py px py) a.

(** ** Handles, widgets, timers and touch samples

    A handle ([GUI_HANDLE_p]) is the address of a widget; [None] is the null
    pointer. *)

Abbreviation handle := positive.
Abbreviation GUI_HANDLE_p := (option handle).

(** Modelled from the spec: the widget descriptor of [widgets/gui_widget.h]
    ("capability descriptor": name, size of the concrete state, and the
    capabilities the core asks about).  [Name] and [Size] are the two
    fields the header reads through [__GH(p)->Widget]. *)
Record GUI_WIDGET_t : Type := mkWidget {
  Name : string;
  Size : Z;
  IsContainer : bool;
  NeedsWindow : bool;
  IsFocusable : bool }.

(** Modelled from the spec: the widget instance ([struct GUI_HANDLE]): its
    descriptor, its rectangle relative to the parent, its flag set, the
    non-owning reference to its parent, and the list of its children in
    insertion order (the intrusive sibling list). *)
Record GUI_HANDLE : Type := mkHandle {
  Widget : GUI_WIDGET_t;
  X : Z; Y : Z; Width : Z; Height : Z;
  Visible : bool; Dirty : bool; Disabled : bool;
  Parent : GUI_HANDLE_p;
  Children : list handle }.

(** Modelled from the spec: a software timer ("an id, a remaining/period
    countdown in milliseconds, a one-shot-vs-periodic flag, a callback
    reference"). *)
Record GUI_TIMER_t : Type := mkTimer {
  Id : handle;
  Period : Z;
  Counter : Z;
  Periodic : bool;
  Callback : Z }.

(** Modelled from the spec: the timer collection, with the tick up to which
    it has been advanced. *)
Record GUI_TIMER_CORE_t : Type := mkTimerCore {
  LastTime : Z;
  List : list GUI_TIMER_t }.

(** Modelled from the spec: a raw pointer sample (position, pressed or
    released). *)
Record __GUI_TouchData_t : Type := mkTouch {
  TX : Z; TY : Z;
  Status : bool }.

(** Modelled from the spec: the display descriptor. *)
Record GUI_LCD_t : Type := mkLCD { LCD_Width : Z; LCD_Height : Z }.

(** Modelled from the spec: the binding of the low-level driver. *)
Record GUI_LL_t : Type := mkLL { Bound : bool }.

(** ** The root object

    [typedef struct GUI_t], field by field, with touch support compiled in
    ([GUI_USE_TOUCH]).  [Root] is the linked list of the top-level widgets,
    in insertion order. *)
Record GUI_t : Type := mkGUI {
  Time : Z;
  LCD : GUI_LCD_t;
  LL : GUI_LL_t;
  Flags : Z;
  Display : GUI_Display_t;
  DisplayTemp : GUI_Display_t;
  WindowActive : GUI_HANDLE_p;
  FocusedWidget : GUI_HANDLE_p;
  FocusedWidgetPrev : GUI_HANDLE_p;
  Root : list handle;
  Timers : GUI_TIMER_CORE_t;
  TouchOld : __GUI_TouchData_t;
  Touch : __GUI_TouchData_t;
  ActiveWidget : GUI_HANDLE_p;
  ActiveWidgetPrev : GUI_HANDLE_p }.

(** ** What the core does to the outside

    The calls that leave the core are recorded in a trace: the lines
    [__GUI_DEBUG] prints, the events posted to widget event callbacks, the
    timer callbacks, and the calls of the drawing driver. *)
Inductive widget_event : Type :=
  | EvPress | EvMove | EvRelease | EvFocus | EvBlur.

Inductive event : Type :=
  | DebugAssertParams                       (* "Assert param failed in file %s and line %d" *)
  | DebugNoActiveWindow                     (* "There is no active window for widget in file %s on line %d" *)
  | DebugMemFree (h : handle) (type : string) (* "Memory free: 0x%08X; Type: %s" *)
  | ToWidget (h : handle) (e : widget_event)
  | TimerFired (t : handle) (callback : Z)
  | Draw (h : handle) (region : GUI_Display_t).

(** The state of the program: the object [GUI], the widget memory, the
    queue of raw samples not yet processed, and the trace so far. *)
Record state : Type := mkState {
  GUI : GUI_t;
  mem : gmap handle GUI_HANDLE;
  input : list __GUI_TouchData_t;
  trace : list event }.

Definition set_GUI (f : GUI_t -> GUI_t) (s : state) : state :=
  mkState (f (GUI s)) (mem s) (input s) (trace s).
Definition set_mem (f : gmap handle GUI_HANDLE -> gmap handle GUI_HANDLE) (s : state) : state :=
  mkState (GUI s) (f (mem s)) (input s) (trace s).
Definition set_input (f : list __GUI_TouchData_t -> list __GUI_TouchData_t) (s : state) : state :=
  mkState (GUI s) (mem s) (f (input s)) (trace s).
Definition emit (evs : list event) (s : state) : state :=
  mkState (GUI s) (mem s) (input s) (trace s ++ evs).

Definition with_Time (v : Z) (g : GUI_t) : GUI_t :=
  mkGUI v (LCD g) (LL g) (Flags g) (Display g) (DisplayTemp g) (WindowActive g)
    (FocusedWidget g) (FocusedWidgetPrev g) (Root g) (Timers g) (TouchOld g)
    (Touch g) (ActiveWidget g) (ActiveWidgetPrev g).
Definition with_Root (v : list handle) (g : GUI_t) : GUI_t :=
  mkGUI (Time g) (LCD g) (LL g) (Flags g) (Display g) (DisplayTemp g) (WindowActive g)
    (FocusedWidget g) (FocusedWidgetPrev g) v (Timers g) (TouchOld g)
    (Touch g) (ActiveWidget g) (ActiveWidgetPrev g).
Definition with_Timers (v : GUI_TIMER_CORE_t) (g : GUI_t) : GUI_t :=
  mkGUI (Time g) (LCD g) (LL g) (Flags g) (Display g) (DisplayTemp g) (WindowActive g)
    (FocusedWidget g) (FocusedWidgetPrev g) (Root g) v (TouchOld g)
    (Touch g) (ActiveWidget g) (ActiveWidgetPrev g).
Definition with_WindowActive (v : GUI_HANDLE_p) (g : GUI_t) : GUI_t :=
  mkGUI (Time g) (LCD g) (LL g) (Flags g) (Display g) (DisplayTemp g) v
    (FocusedWidget g) (FocusedWidgetPrev g) (Root g) (Timers g) (TouchOld g)
    (Touch g) (ActiveWidget g) (ActiveWidgetPrev g).
Definition with_Focused (v vprev : GUI_HANDLE_p) (g : GUI_t) : GUI_t :=
  mkGUI (Time g) (LCD g) (LL g) (Flags g) (Display g) (DisplayTemp g) (WindowActive g)
    v vprev (Root g) (Timers g) (TouchOld g)
    (Touch g) (ActiveWidget g) (ActiveWidgetPrev g).
Definition with_Active (v vprev : GUI_HANDLE_p) (g : GUI_t) : GUI_t :=
  mkGUI (Time g) (LCD g) (LL g) (Flags g) (Display g) (DisplayTemp g) (WindowActive g)
    (FocusedWidget g) (FocusedWidgetPrev g) (Root g) (Timers g) (TouchOld g)
    (Touch g) v vprev.
Definition with_Touch (old cur : __GUI_TouchData_t) (g : GUI_t) : GUI_t :=
  mkGUI (Time g) (LCD g) (LL g) (Flags g) (Display g) (DisplayTemp g) (WindowActive g)
    (FocusedWidget g) (FocusedWidgetPrev g) (Root g) (Timers g) old
    cur (ActiveWidget g) (ActiveWidgetPrev g).

Definition with_Children (v : list handle) (w : GUI_HANDLE) : GUI_HANDLE :=
  mkHandle (Widget w) (X w) (Y w) (Width w) (Height w) (Visible w) (Dirty w)
    (Disabled w) (Parent w) v.
Definition with_Dirty (v : bool) (w : GUI_HANDLE) : GUI_HANDLE :=
  mkHandle (Widget w) (X w) (Y w) (Width w) (Height w) (Visible w) v
    (Disabled w) (Parent w) (Children w).
Definition with_Visible (v : bool) (w : GUI_HANDLE) : GUI_HANDLE :=
  mkHandle (Widget w) (X w) (Y w) (Width w) (Height w) v true
    (Disabled w) (Parent w) (Children w).
Definition with_Disabled (v : bool) (w : GUI_HANDLE) : GUI_HANDLE :=
  mkHandle (Widget w) (X w) (Y w) (Width w) (Height w) (Visible w) true
    v (Parent w) (Children w).
Definition with_Rect (x y width height : Z) (w : GUI_HANDLE) : GUI_HANDLE :=
  mkHandle (Widget w) x y width height (Visible w) true
    (Disabled w) (Parent w) (Children w).

(** ** Guard and memory macros

    A function body runs on a state and either returns a value, or its
    behaviour is undefined.  A guard macro is placed in front of the rest of
    a body, which it either runs or cuts short with a [return]. *)

Inductive outcome (R : Type) : Type :=
  | Returned (r : R) (s : state)
  | Undefined.
Arguments Returned {R} r s.
Arguments Undefined {R}.

Definition body (R : Type) : Type := state -> outcome R.

(** The value of the literal [0] at the return type of the function. *)
Class CZero (R : Type) : Type := czero : R.
#[export] Instance CZero_int : CZero Z := 0.
#[export] Instance CZero_bool : CZero bool := false.
#[export] Instance CZero_ptr : CZero GUI_HANDLE_p := None.

(** [#define __GUI_DEBUG(fmt, ...) printf(fmt, ##__VA_ARGS__)]; the file
    name and the line number of the place of expansion are not recorded. *)
Definition __GUI_DEBUG (e : event) (s : state) : state := emit [e] s.

(** [#define __GUI_ASSERTPARAMS(c) do { if (!(c)) { __GUI_DEBUG(...); return 0; } } while (0)] *)
Definition __GUI_ASSERTPARAMS {R : Type} `{CZero R}
    (c : state -> bool) (rest : body R) : body R :=
  fun s =>
    if negb (c s) then Returned czero (__GUI_DEBUG DebugAssertParams s)
    else rest s.

(** [#define __GUI_ASSERTACTIVEWIN() do { if (!GUI.WindowActive) { __GUI_DEBUG(...); return NULL; } } while (0)] *)
Definition __GUI_ASSERTACTIVEWIN (rest : body GUI_HANDLE_p) : body GUI_HANDLE_p :=
  fun s =>
    match WindowActive (GUI s) with
    | None => Returned None (__GUI_DEBUG DebugNoActiveWindow s)
    | Some _ => rest s
    end.

(** [#define __GUI_MEMALLOC(size) malloc(size)]: the allocator either fails
    or grants a block of [size] bytes that is not in use; [grant] is the
    allocator's choice, checked against the widget memory. *)
Definition __GUI_MEMALLOC (size : Z) (grant : GUI_HANDLE_p) (s : state) : GUI_HANDLE_p :=
  match grant with
  | Some a => match mem s !! a with Some _ => None | None => Some a end
  | None => None
  end.

(** [#define __GUI_MEMWIDFREE(p) do { __GUI_DEBUG("Memory free: ...", p, __GH(p)->Widget->Name);
      memset(p, 0x00, __GH(p)->Widget->Size); free(p); (p) = 0; } while (0)],
    for the widget [w] stored at [h]. *)
Definition __GUI_MEMWIDFREE (h : handle) (w : GUI_HANDLE) (s : state) : state :=
  set_mem (delete h) (__GUI_DEBUG (DebugMemFree h (Name (Widget w))) s).

(** ** Widget tree

    The widget operations of [widgets/gui_widget.c] are not part of this
    header; they follow section 4.4 of the specification. *)

(** Modelled from the spec: a widget as it is created: visible, dirty,
    enabled, without children. *)
Definition new_widget (kind : GUI_WIDGET_t) (parent : GUI_HANDLE_p)
    (x y width height : Z) : GUI_HANDLE :=
  mkHandle kind x y width height true true false parent [].

Definition add_child (c : handle) (w : GUI_HANDLE) : GUI_HANDLE :=
  with_Children (Children w ++ [c]) w.

Definition remove_handle (h : handle) (l : list handle) : list handle :=
  filter (fun c => c <> h) l.

Definition drop_child (c : handle) (w : GUI_HANDLE) : GUI_HANDLE :=
  with_Children (remove_handle c (Children w)) w.

(** Modelled from the spec: [createWidget(kind, parent, rect) -> Handle].
    A kind that needs a containing window is created under the guard
    [__GUI_ASSERTACTIVEWIN]; a parent that is not a live container, or an
    allocation that fails, gives the null handle and no change.  The new
    widget is linked last (topmost) among its siblings. *)
Definition createWidget (kind : GUI_WIDGET_t) (parent : GUI_HANDLE_p)
    (x y width height : Z) (grant : GUI_HANDLE_p) : body GUI_HANDLE_p :=
  (if NeedsWindow kind then __GUI_ASSERTACTIVEWIN else fun rest => rest)
  (fun s =>
    match parent with
    | None =>
      match __GUI_MEMALLOC (Size kind) grant s with
      | None => Returned None s
      | Some a =>
        Returned (Some a)
          (set_GUI (fun g => with_Root (Root g ++ [a]) g)
            (set_mem (insert a (new_widget kind None x y width height)) s))
      end
    | Some p =>
      match mem s !! p with
      | None => Returned None s
      | Some pw =>
        if IsContainer (Widget pw) then
          match __GUI_MEMALLOC (Size kind) grant s with
          | None => Returned None s
          | Some a =>
            Returned (Some a)
              (set_mem (fun m => alter (add_child a) p
                          (<[a := new_widget kind (Some p) x y width height]> m)) s)
          end
        else Returned None s
      end
    end).

(** Modelled from the spec: "clears any active/focused reference pointing
    at it"; a reference that pointed at [h] becomes null. *)
Definition forget (h : handle) (r : GUI_HANDLE_p) : GUI_HANDLE_p :=
  match r with
  | Some x => if decide (x = h) then None else Some x
  | None => None
  end.

Definition clear_refs (h : handle) (g : GUI_t) : GUI_t :=
  with_WindowActive (forget h (WindowActive g))
    (with_Focused (forget h (FocusedWidget g)) (forget h (FocusedWidgetPrev g))
      (with_Active (forget h (ActiveWidget g)) (forget h (ActiveWidgetPrev g)) g)).

(** Modelled from the spec: "detaches from parent's list"; [h] leaves the
    list it is linked in, its parent's children or the root list. *)
Definition unlink (h : handle) (w : GUI_HANDLE) (s : state) : state :=
  match Parent w with
  | Some p => set_mem (alter (drop_child h) p) s
  | None => set_GUI (fun g => with_Root (remove_handle h (Root g)) g) s
  end.

(** Modelled from the spec: the last steps of a destruction: detach, clear
    the references, release the memory with [__GUI_MEMWIDFREE]. *)
Definition release (h : handle) (w : GUI_HANDLE) (s : state) : state :=
  __GUI_MEMWIDFREE h w (set_GUI (clear_refs h) (unlink h w s)).

(** Run [step] on the elements of a list, from the first on, until one of
    them fails. *)
Fixpoint each {A : Type} (step : A -> state -> option state) (l : list A)
    (s : state) : option state :=
  match l with
  | [] => Some s
  | a :: l' =>
    match step a s with
    | Some s' => each step l' s'
    | None => None
    end
  end.

(** Modelled from the spec: the recursion of [destroyWidget(handle)],
    "recursively destroys children first, detaches from parent's list,
    clears any active/focused reference pointing at it or its descendants,
    releases memory"; an unknown handle aborts the operation only.  The
    recursion follows the child lists; [fuel] bounds its depth and [None]
    means it ran out. *)
Fixpoint destroy (fuel : nat) (h : handle) (s : state) : option state :=
  match fuel with
  | O => None
  | S f =>
    match mem s !! h with
    | None => Some s
    | Some w =>
      match each (destroy f) (Children w) s with
      | Some s1 => Some (release h w s1)
      | None => None
      end
    end
  end.

(** Modelled from the spec: [destroyWidget(handle)], with fuel for a tree
    as high as the memory is large. *)
Definition destroyWidget (h : handle) (s : state) : option state :=
  destroy (S (size (mem s))) h s.

(** Modelled from the spec: [show/hide], [setDisabled], [setRect]; each
    marks the widget dirty. *)
Definition setVisible (h : handle) (v : bool) (s : state) : state :=
  set_mem (alter (with_Visible v) h) s.
Definition setDisabled (h : handle) (v : bool) (s : state) : state :=
  set_mem (alter (with_Disabled v) h) s.
Definition setRect (h : handle) (x y width height : Z) (s : state) : state :=
  set_mem (alter (with_Rect x y width height) h) s.

(** Modelled from the spec: the host makes a live container the active
    window, under which widgets are then created. *)
Definition setActiveWindow (h : handle) (s : state) : state :=
  match mem s !! h with
  | Some w =>
    if IsContainer (Widget w) then set_GUI (with_WindowActive (Some h)) s else s
  | None => s
  end.

(** ** Hit test *)

(** Modelled from the spec: "a widget's absolute rectangle is always the
    sum of its parent-relative rectangle and its parent's absolute origin";
    the parent has its origin at [(ox, oy)]. *)
Definition abs_rect (ox oy : Z) (w : GUI_HANDLE) : GUI_Display_t :=
  mkDisplay (ox + X w) (oy + Y w) (ox + X w + Width w) (oy + Y w + Height w).

Fixpoint first_some {A B : Type} (f : A -> option B) (l : list A) : option B :=
  match l with
  | [] => None
  | a :: l' =>
    match f a with
    | Some b => Some b
    | None => first_some f l'
    end
  end.

(** Modelled from the spec: the walk of [findAt] below one widget.  The
    widget [h] is hit when it is visible and not disabled and the point
    lies in what the clip region leaves of its absolute rectangle; the
    widget hit is then searched among the children, topmost first, under
    the narrowed clip, and is [h] itself when no child is hit.  [fuel]
    bounds the depth of the walk. *)
Fixpoint find_widget (fuel : nat) (m : gmap handle GUI_HANDLE) (ox oy : Z)
    (clip : GUI_Display_t) (px py : Z) (h : handle) : GUI_HANDLE_p :=
  match fuel with
  | O => None
  | S f =>
    match m !! h with
    | None => None
    | Some w =>
      if Visible w && negb (Disabled w) then
        match intersect clip (abs_rect ox oy w) with
        | None => None
        | Some c =>
          if contains c px py then
            match first_some (find_widget f m (ox + X w) (oy + Y w) c px py)
                    (reverse (Children w)) with
            | Some r => Some r
            | None => Some h
            end
          else None
        end
      else None
    end
  end.

(** Modelled from the spec: "reset() (restores full display bounds)"; the
    bounds of the display. *)
Definition full_display (g : GUI_t) : GUI_Display_t :=
  mkDisplay 0 0 (LCD_Width (LCD g)) (LCD_Height (LCD g)).

(** Modelled from the spec: [findAt(point) -> Handle] "walks root-to-leaf in
    reverse z-order (topmost/last-inserted sibling first)", with a working
    clip of its own that starts from the display bounds. *)
Definition findAt (s : state) (px py : Z) : GUI_HANDLE_p :=
  first_some
    (find_widget (S (size (mem s))) (mem s) 0 0 (full_display (GUI s)) px py)
    (reverse (Root (GUI s))).

(** ** Touch router

    The router of [input/gui_input] is not part of this header; it follows
    section 4.5 of the specification. *)

(** Modelled from the spec: the states of the router; it is Idle when there
    is no active widget and Pressed when there is one. *)
Inductive router_state : Type := Idle | Pressed.

Definition router (s : state) : router_state :=
  match ActiveWidget (GUI s) with
  | None => Idle
  | Some _ => Pressed
  end.

Definition send (h : handle) (e : widget_event) (s : state) : state :=
  emit [ToWidget h e] s.

(** Modelled from the spec: "if it is focusable, update the focused widget,
    delivering blur to the previously focused widget and focus to the new
    one".  The result counts the events delivered. *)
Definition focus_set (h : handle) (s : state) : Z * state :=
  match mem s !! h with
  | Some w =>
    if IsFocusable (Widget w) then
      match FocusedWidget (GUI s) with
      | Some o =>
        if decide (o = h) then (0, s)
        else (2, set_GUI (with_Focused (Some h) (Some o))
                   (send h EvFocus (send o EvBlur s)))
      | None =>
        (1, set_GUI (with_Focused (Some h) None) (send h EvFocus s))
      end
    else (0, s)
  | None => (0, s)
  end.

Definition same_position (a b : __GUI_TouchData_t) : bool :=
  (TX a =? TX b) && (TY a =? TY b).

(** Modelled from the spec: the transition rules of section 4.5 for one raw
    sample: a press while Idle activates the widget the hit test finds, a
    pressed sample at a new position while Pressed is a move for the active
    widget, a release is delivered to the active widget and clears it.  The
    result counts the events delivered to widgets. *)
Definition process_touch (t : __GUI_TouchData_t) (s : state) : Z * state :=
  let s0 := set_GUI (fun g => with_Touch (TouchOld g) t g) s in
  let '(n, s1) :=
    if Status t then
      match ActiveWidget (GUI s0) with
      | None =>
        match findAt s0 (TX t) (TY t) with
        | Some w =>
          let '(k, s2) :=
            focus_set w
              (send w EvPress
                (set_GUI (fun g => with_Active (Some w) (ActiveWidgetPrev g) g) s0)) in
          (1 + k, s2)
        | None => (0, s0)
        end
      | Some a =>
        if same_position t (TouchOld (GUI s0)) then (0, s0)
        else (1, send a EvMove s0)
      end
    else
      match ActiveWidget (GUI s0) with
      | Some a =>
        (1, set_GUI (with_Active None (Some a)) (send a EvRelease s0))
      | None => (0, s0)
      end in
  (n, set_GUI (with_Touch t t) s1).

(** Modelled from the spec: "drain any queued raw input samples through the
    input router", oldest first. *)
Fixpoint process_samples (l : list __GUI_TouchData_t) (s : state) : Z * state :=
  match l with
  | [] => (0, s)
  | t :: l' =>
    let '(n, s1) := process_touch t s in
    let '(k, s2) := process_samples l' s1 in
    (n + k, s2)
  end.

Definition process_input (s : state) : Z * state :=
  process_samples (input s) (set_input (fun _ => []) s).

(** Modelled from the spec: the raw input source queues a sample. *)
Definition addTouch (t : __GUI_TouchData_t) (s : state) : state :=
  set_input (fun q => q ++ [t]) s.

(** ** Timer core

    The timers of [utils/gui_timer] are not part of this header; they
    follow section 4.2 and the timer scenario of section 8 of the
    specification. *)

Definition with_Counter (v : Z) (t : GUI_TIMER_t) : GUI_TIMER_t :=
  mkTimer (Id t) (Period t) v (Periodic t) (Callback t).

(** Modelled from the spec: one timer aged by the elapsed time.  Each time
    the countdown is used up the callback is invoked and a periodic timer
    is reloaded with its period and aged by the time that is left, so that
    the countdown carries the remainder; a one-shot timer is removed when
    it fires.  [fuel] bounds the number of reloads. *)
Fixpoint timer_run (fuel : nat) (elapsed : Z) (t : GUI_TIMER_t)
    : option GUI_TIMER_t * list event :=
  match fuel with
  | O => (Some t, [])
  | S f =>
    if elapsed <? Counter t then (Some (with_Counter (Counter t - elapsed) t), [])
    else if Periodic t then
      let '(r, evs) := timer_run f (elapsed - Counter t) (with_Counter (Period t) t) in
      (r, TimerFired (Id t) (Callback t) :: evs)
    else (None, [TimerFired (Id t) (Callback t)])
  end.

Definition timer_advance (elapsed : Z) (t : GUI_TIMER_t)
    : option GUI_TIMER_t * list event :=
  timer_run (S (Z.to_nat elapsed)) elapsed t.

(** Modelled from the spec: "multiple timers expiring in the same advance
    call fire in their list order". *)
Fixpoint timers_advance (elapsed : Z) (l : list GUI_TIMER_t)
    : list GUI_TIMER_t * list event :=
  match l with
  | [] => ([], [])
  | t :: l' =>
    let '(r, e1) := timer_advance elapsed t in
    let '(l2, e2) := timers_advance elapsed l' in
    (match r with Some t' => t' :: l2 | None => l2 end, e1 ++ e2)
  end.

(** Modelled from the spec: [advance(elapsedMs)]; the result counts the
    callbacks invoked. *)
Definition advance (elapsed : Z) (s : state) : Z * state :=
  let '(l, evs) := timers_advance elapsed (List (Timers (GUI s))) in
  (Z.of_nat (length evs),
   emit evs (set_GUI (fun g => with_Timers (mkTimerCore (LastTime (Timers g)) l) g) s)).

(** Modelled from the spec: [create(periodMs, oneShot, callback) ->
    TimerHandle]; the new timer is linked last, with a full countdown. *)
Definition timer_create (period : Z) (oneshot : bool) (callback : Z)
    (grant : GUI_HANDLE_p) (s : state) : GUI_HANDLE_p * state :=
  match grant with
  | Some a =>
    if bool_decide (a ∈ Id <$> List (Timers (GUI s))) then (None, s)
    else
      (Some a,
       set_GUI (fun g => with_Timers
         (mkTimerCore (LastTime (Timers g))
            (List (Timers g) ++ [mkTimer a period period (negb oneshot) callback])) g) s)
  | None => (None, s)
  end.

(** Modelled from the spec: [cancel(handle)]. *)
Definition timer_cancel (a : handle) (s : state) : state :=
  set_GUI (fun g => with_Timers
    (mkTimerCore (LastTime (Timers g))
       (filter (fun t => Id t <> a) (List (Timers g)))) g) s.

(** ** Redraw pass *)

(** Modelled from the spec: "invoke the external drawing driver for that
    region and clear the dirty flag". *)
Definition draw (h : handle) (c : GUI_Display_t) (s : state) : state :=
  emit [Draw h c] (set_mem (alter (with_Dirty false) h) s).

Fixpoint count_each {A : Type} (step : A -> state -> Z * state) (l : list A)
    (s : state) : Z * state :=
  match l with
  | [] => (0, s)
  | a :: l' =>
    let '(n, s1) := step a s in
    let '(k, s2) := count_each step l' s1 in
    (n + k, s2)
  end.

(** Modelled from the spec: step 3 of section 4.6.  A visible widget that
    is dirty, or below a widget redrawn in this pass, is drawn in what the
    clip region leaves of its absolute rectangle and its dirty flag is
    cleared; the children follow under the narrowed clip, bottom first.
    The result counts the widgets drawn; [fuel] bounds the depth of the
    walk. *)
Fixpoint redraw (fuel : nat) (inherited : bool) (ox oy : Z)
    (clip : GUI_Display_t) (h : handle) (s : state) : Z * state :=
  match fuel with
  | O => (0, s)
  | S f =>
    match mem s !! h with
    | None => (0, s)
    | Some w =>
      if Visible w then
        match intersect clip (abs_rect ox oy w) with
        | None => (0, s)
        | Some c =>
          let d := inherited || Dirty w in
          let '(n, s1) := if d then (1, draw h c s) else (0, s) in
          let '(k, s2) :=
            count_each (redraw f d (ox + X w) (oy + Y w) c) (Children w) s1 in
          (n + k, s2)
        end
      else (0, s)
    end
  end.

(** Modelled from the spec: the redraw pass over the whole tree, from the
    active clip region [Display]. *)
Definition redraw_all (s : state) : Z * state :=
  count_each (redraw (S (size (mem s))) false 0 0 (Display (GUI s)))
    (Root (GUI s)) s.

(** ** Entry points *)

(** Modelled from the spec: the body of [void GUI_UpdateTime(uint32_t
    millis)], which the header only declares; the tick source adds the
    elapsed milliseconds to the 32-bit clock [Time]. *)
Definition GUI_UpdateTime (millis : Z) (s : state) : state :=
  set_GUI (fun g => with_Time ((Time g + millis) mod 2 ^ 32) g) s.

(** Modelled from the spec: the body of [int32_t GUI_Process(void)], which
    the header only declares ("Number of jobs done in current call"), after
    section 4.6.  The timers are advanced by the time elapsed since they
    were last advanced, the queued samples go through the router, the dirty
    widgets are redrawn, and the three counts are added up; the count is
    the exact sum. *)
Definition GUI_Process (s : state) : Z * state :=
  let now := Time (GUI s) in
  let elapsed := (now - LastTime (Timers (GUI s))) mod 2 ^ 32 in
  let '(n1, s1) := advance elapsed s in
  let s1' := set_GUI (fun g => with_Timers (mkTimerCore now (List (Timers g))) g) s1 in
  let '(n2, s2) := process_input s1' in
  let '(n3, s3) := redraw_all s2 in
  (n1 + n2 + n3, s3).

(** Modelled from the spec: the state after [GUI_Result_t GUI_Init(void)],
    which the header only declares, for a display of the given size. *)
Definition GUI_Init (lcd : GUI_LCD_t) : state :=
  mkState
    (mkGUI 0 lcd (mkLL true) 0
       (mkDisplay 0 0 (LCD_Width lcd) (LCD_Height lcd))
       (mkDisplay 0 0 (LCD_Width lcd) (LCD_Height lcd))
       None None None [] (mkTimerCore 0 [])
       (mkTouch 0 0 false) (mkTouch 0 0 false) None None)
    ∅ [] [].

(** ** Programs of the host: sequences of calls *)

Inductive op : Type :=
  | OpCreate (kind : GUI_WIDGET_t) (parent : GUI_HANDLE_p)
      (x y width height : Z) (grant : GUI_HANDLE_p)
  | OpDestroy (h : handle)
  | OpSetActiveWindow (h : handle)
  | OpSetVisible (h : handle) (v : bool)
  | OpSetDisabled (h : handle) (v : bool)
  | OpSetRect (h : handle) (x y width height : Z)
  | OpAddTouch (t : __GUI_TouchData_t)
  | OpUpdateTime (millis : Z)
  | OpProcess
  | OpTimerCreate (period : Z) (oneshot : bool) (callback : Z) (grant : GUI_HANDLE_p)
  | OpTimerCancel (a : handle).

Definition step (o : op) (s : state) : state :=
  match o with
  | OpCreate kind parent x y width height grant =>
    match createWidget kind parent x y width height grant s with
    | Returned _ s' => s'
    | Undefined => s
    end
  | OpDestroy h =>
    match destroyWidget h s with
    | Some s' => s'
    | None => s
    end
  | OpSetActiveWindow h => setActiveWindow h s
  | OpSetVisible h v => setVisible h v s
  | OpSetDisabled h v => setDisabled h v s
  | OpSetRect h x y width height => setRect h x y width height s
  | OpAddTouch t => addTouch t s
  | OpUpdateTime millis => GUI_UpdateTime millis s
  | OpProcess => (GUI_Process s).2
  | OpTimerCreate period oneshot callback grant =>
    (timer_create period oneshot callback grant s).2
  | OpTimerCancel a => timer_cancel a s
  end.

Definition run (l : list op) (s : state) : state :=
  foldl (fun s o => step o s) s l.

Definition reachable (s : state) : Prop :=
  exists lcd l, s = run l (GUI_Init lcd).

(** ** Observations on traces and states, used in the statements *)

(** The event is an invocation of the callback of the timer [a]. *)
Definition fired_by (a : handle) (e : event) : bool :=
  match e with
  | TimerFired b _ => bool_decide (a = b)
  | _ => false
  end.

(** The number of times the callback of the timer [a] is invoked in a
    stretch of trace. *)
Definition fired_count (a : handle) (evs : list event) : Z :=
  Z.of_nat (length (filter (fun e => fired_by a e = true) evs)).

(** Several calls of [advance] in a row. *)
Definition advances (ds : list Z) (s : state) : state :=
  foldl (fun s d => (advance d s).2) s ds.

Definition total (ds : list Z) : Z := foldr Z.add 0 ds.

(** The reading of C3: a call that fails the check of its parameters has
    undefined behaviour. *)
Definition violation_is_undefined : Prop :=
  forall (c : state -> bool) (rest : body Z) (s : state),
    c s = false -> __GUI_ASSERTPARAMS c rest s = Undefined.

(** The host creates its timers with a positive period. *)
Definition positive_period (o : op) : Prop :=
  match o with
  | OpTimerCreate period _ _ _ => 0 < period
  | _ => True
  end.

(** The reading of the second part of C4: in every state the host can
    reach, an advance by 0 fires nothing and leaves the state as it is. *)
Definition advance_zero_is_noop : Prop :=
  forall s, reachable s -> advance 0 s = (0, s).

(** The reading of the last part of C10: at the least value of a signed
    type the negation wraps around and [__GUI_ABS] returns the least value
    itself. *)
Definition least_value_wraps : Prop :=
  forall W w : Z, 1 <= w -> __GUI_ABS W w (int_min w) = Some (int_min w).

(** ** Shape of the widget tree *)

(** [p] is the parent of [x]. *)
Definition parent_of (m : gmap handle GUI_HANDLE) (x p : handle) : Prop :=
  exists w, m !! x = Some w /\ Parent w = Some p.

(** [chain m a x n]: from [x], [n] steps along the parent references lead
    to [a]; [x] is then in the subtree of [a]. *)
Inductive chain (m : gmap handle GUI_HANDLE) (a : handle) : handle -> nat -> Prop :=
  | chain_here : is_Some (m !! a) -> chain m a a 0
  | chain_up x w p n :
      m !! x = Some w -> Parent w = Some p -> chain m a p n -> chain m a x (S n).

Definition in_subtree (m : gmap handle GUI_HANDLE) (a x : handle) : Prop :=
  exists n, chain m a x n.

(** [depth m x n]: [n] steps along the parent references lead from [x] to
    a widget without parent. *)
Inductive depth (m : gmap handle GUI_HANDLE) : handle -> nat -> Prop :=
  | depth_top x w : m !! x = Some w -> Parent w = None -> depth m x 0
  | depth_below x w p n :
      m !! x = Some w -> Parent w = Some p -> depth m p n -> depth m x (S n).

(** No widget is its own ancestor. *)
Definition acyclic (m : gmap handle GUI_HANDLE) : Prop :=
  forall x, ~ tc (parent_of m) x x.

(** [x] is found from the root list along the child lists. *)
Inductive in_tree (s : state) : handle -> Prop :=
  | in_tree_root x : x ∈ Root (GUI s) -> is_Some (mem s !! x) -> in_tree s x
  | in_tree_child p pw c :
      in_tree s p -> mem s !! p = Some pw -> c ∈ Children pw ->
      is_Some (mem s !! c) -> in_tree s c.

(** The links of the tree agree with each other: parent references and
    child lists mirror each other, the widgets without parent are the
    entries of the root list, no list holds a widget twice, and every
    parent chain ends. *)
Record wf_tree (m : gmap handle GUI_HANDLE) (roots : list handle) : Prop := mk_wf_tree {
  wf_parent : forall x w p, m !! x = Some w -> Parent w = Some p ->
    exists pw, m !! p = Some pw /\ x ∈ Children pw;
  wf_top : forall x w, m !! x = Some w -> Parent w = None -> x ∈ roots;
  wf_child : forall p pw c, m !! p = Some pw -> c ∈ Children pw ->
    exists cw, m !! c = Some cw /\ Parent cw = Some p;
  wf_root : forall c, c ∈ roots -> exists cw, m !! c = Some cw /\ Parent cw = None;
  wf_nodup : forall p pw, m !! p = Some pw -> NoDup (Children pw);
  wf_nodup_root : NoDup roots;
  wf_depth : forall x, is_Some (m !! x) -> exists n, depth m x n }.

(** A reference is null or points at a live widget. *)
Definition live (m : gmap handle GUI_HANDLE) (r : GUI_HANDLE_p) : Prop :=
  forall x, r = Some x -> is_Some (m !! x).

Record wf (s : state) : Prop := mk_wf {
  wf_shape : wf_tree (mem s) (Root (GUI s));
  wf_window : live (mem s) (WindowActive (GUI s));
  wf_focused : live (mem s) (FocusedWidget (GUI s));
  wf_focused_prev : live (mem s) (FocusedWidgetPrev (GUI s));
  wf_active : live (mem s) (ActiveWidget (GUI s));
  wf_active_prev : live (mem s) (ActiveWidgetPrev (GUI s)) }.

(** ** The state with a set of widgets removed

    What a destruction amounts to, in closed form: the widgets of [l] are
    gone from the memory, from every list and from every reference, and
    one line per widget of [l] is printed by [__GUI_MEMWIDFREE]. *)

Definition prune (l : list handle) (w : GUI_HANDLE) : GUI_HANDLE :=
  with_Children (filter (fun c => c ∉ l) (Children w)) w.

Definition keep (l : list handle) (r : GUI_HANDLE_p) : GUI_HANDLE_p :=
  match r with
  | Some x => if decide (x ∈ l) then None else Some x
  | None => None
  end.

Definition free_line (m : gmap handle GUI_HANDLE) (x : handle) : option event :=
  match m !! x with
  | Some w => Some (DebugMemFree x (Name (Widget w)))
  | None => None
  end.

Definition removed (l : list handle) (s : state) : state :=
  mkState
    (with_Root (filter (fun c => c ∉ l) (Root (GUI s)))
      (with_WindowActive (keep l (WindowActive (GUI s)))
        (with_Focused (keep l (FocusedWidget (GUI s))) (keep l (FocusedWidgetPrev (GUI s)))
          (with_Active (keep l (ActiveWidget (GUI s))) (keep l (ActiveWidgetPrev (GUI s)))
            (GUI s)))))
    (prune l <$> filter (fun kv => kv.1 ∉ l) (mem s))
    (input s)
    (trace s ++ omap (free_line (mem s)) l).

(** A set of widgets that holds every child of its members. *)
Definition down_closed (m : gmap handle GUI_HANDLE) (l : list handle) : Prop :=
  forall x w p, m !! x = Some w -> Parent w = Some p -> p ∈ l -> x ∈ l.

(** Two memories hold the same widgets with the same parent references and
    child lists. *)
Definition same_links (m m' : gmap handle GUI_HANDLE) : Prop :=
  forall x, (fun w => (Parent w, Children w)) <$> (m' !! x) =
            (fun w => (Parent w, Children w)) <$> (m !! x).


(** The kinds of work the process entry point counts. *)
Definition is_draw (e : event) : bool :=
  match e with Draw _ _ => true | _ => false end.
Definition is_fired (e : event) : bool :=
  match e with TimerFired _ _ => true | _ => false end.
Definition is_dispatch (e : event) : bool :=
  match e with ToWidget _ _ => true | _ => false end.

Definition count (p : event -> bool) (evs : list event) : Z :=
  Z.of_nat (length (filter (fun e => p e = true) evs)).

(** A redraw pass from [s] to [s'] with [n] widgets drawn: [n] calls of the
    drawing driver and nothing else are added to the trace, the links of
    the tree, the object [GUI] and the input queue are as before. *)
Definition draws (n : Z) (s s' : state) : Prop :=
  exists evs, trace s' = trace s ++ evs /\ n = Z.of_nat (length evs) /\
    Forall (fun e => is_draw e = true) evs /\
    same_links (mem s) (mem s') /\ GUI s' = GUI s /\ input s' = input s.

(** The event is the release of the widget [x] by [__GUI_MEMWIDFREE]. *)
Definition is_free_of (x : handle) (e : event) : bool :=
  match e with
  | DebugMemFree y _ => bool_decide (x = y)
  | _ => false
  end.

(** The reference [r] after the destruction of [h] is [r']: null if [r]
    pointed into the subtree of [h], and [r] otherwise. *)
Definition cleared (m : gmap handle GUI_HANDLE) (h : handle) (r r' : GUI_HANDLE_p) : Prop :=
  match r with
  | Some x => (in_subtree m h x -> r' = None) /\ (~ in_subtree m h x -> r' = Some x)
  | None => r' = None
  end.

(** ** A scenario *)

Definition demo_window : GUI_WIDGET_t := mkWidget "window" 64 true false false.
Definition demo_button : GUI_WIDGET_t := mkWidget "button" 32 false true true.

(** The scenario of the specification: a window of 320 by 240 with a button
    at (10, 10) of 100 by 30, pressed at (15, 15). *)
Definition demo_pressed : list op :=
  [OpCreate demo_window None 0 0 320 240 (Some 1%positive);
   OpSetActiveWindow 1%positive;
   OpCreate demo_button (Some 1%positive) 10 10 100 30 (Some 2%positive);
   OpAddTouch (mkTouch 15 15 true);
   OpProcess].

(** ** What the hit test is to find *)

(** The widget [w], its parent's origin at [(ox, oy)], is visible, not
    disabled, and the point lies within the four sides of its absolute
    rectangle. *)
Definition hit (ox oy px py : Z) (w : GUI_HANDLE) : bool :=
  Visible w && negb (Disabled w) && bool_decide (inside (abs_rect ox oy w) px py).

(** [placed m x ox oy]: the rectangle of [x] is relative to [(ox, oy)], the
    absolute position of its parent. *)
Inductive placed (m : gmap handle GUI_HANDLE) : handle -> Z -> Z -> Prop :=
  | placed_top x w : m !! x = Some w -> Parent w = None -> placed m x 0 0
  | placed_below x w p pw ox oy :
      m !! x = Some w -> Parent w = Some p -> m !! p = Some pw ->
      placed m p ox oy -> placed m x (ox + X pw) (oy + Y pw).

(** The widget shows at the point: the point is on the display, and the
    widget and each of its ancestors is visible, not disabled, and has the
    point in its absolute rectangle. *)
Inductive shown (s : state) (px py : Z) : handle -> Prop :=
  | shown_top x w :
      mem s !! x = Some w -> Parent w = None ->
      inside (full_display (GUI s)) px py ->
      hit 0 0 px py w = true -> shown s px py x
  | shown_below x w p ox oy :
      mem s !! x = Some w -> Parent w = Some p -> shown s px py p ->
      placed (mem s) x ox oy -> hit ox oy px py w = true -> shown s px py x.

(** The list a widget is linked in. *)
Definition siblings (s : state) (y : handle) : list handle :=
  match mem s !! y with
  | Some w =>
    match Parent w with
    | Some p => match mem s !! p with Some pw => Children pw | None => [] end
    | None => Root (GUI s)
    end
  | None => []
  end.

(** [z] comes after [y] in the list. *)
Definition later (l : list handle) (y z : handle) : Prop :=
  exists i j : nat, l !! i = Some y /\ l !! j = Some z /\ (i < j)%nat.

(** The hit test at work on the list [hs], whose widgets have their
    rectangles relative to [(ox, oy)]: the root list, or the children of a
    widget that shows at the point. *)
Definition level (s : state) (px py : Z) (hs : list handle) (ox oy : Z) : Prop :=
  (hs = Root (GUI s) /\ ox = 0 /\ oy = 0 /\ inside (full_display (GUI s)) px py) \/
  (exists h w ox0 oy0,
     mem s !! h = Some w /\ hs = Children w /\ shown s px py h /\
     placed (mem s) h ox0 oy0 /\ ox = ox0 + X w /\ oy = oy0 + Y w).

(** [r], found below [a], shows at the point, none of its children does,
    and nothing that lies above [r] or above an ancestor of [r] up to [a]
    does. *)
Definition topmost (s : state) (px py : Z) (a r : handle) : Prop :=
  in_subtree (mem s) a r /\ shown s px py r /\
  (forall c, parent_of (mem s) c r -> ~ shown s px py c) /\
  forall y z, in_subtree (mem s) y r -> in_subtree (mem s) a y ->
    later (siblings s y) y z -> ~ shown s px py z.

(** ** The order of creation

    The widgets alive, oldest first, along a run of the host: a widget
    that [createWidget] returns is added last, and a widget that is
    destroyed is struck. *)

Definition born (o : op) (s : state) : list handle :=
  match o with
  | OpCreate kind parent x y width height grant =>
    match createWidget kind parent x y width height grant s with
    | Returned (Some a) _ => [a]
    | _ => []
    end
  | _ => []
  end.

Definition step_log (sl : state * list handle) (o : op) : state * list handle :=
  (step o sl.1,
   filter (fun a => is_Some (mem (step o sl.1) !! a)) (sl.2 ++ born o sl.1)).

Definition creation_order (lcd : GUI_LCD_t) (ops : list op) : list handle :=
  (foldl step_log (GUI_Init lcd, []) ops).2.

(** The parent reference of a widget, if the widget is alive. *)
Definition link (m : gmap handle GUI_HANDLE) (x : handle) : option GUI_HANDLE_p :=
  Parent <$> m !! x.

(** [z] is alive under the parent of [y] (or without parent, as [y] is)
    and was created after [y]. *)
Definition added_after (log : list handle) (m : gmap handle GUI_HANDLE) (y z : handle)
    : Prop :=
  link m z = link m y /\ later log y z.

(** The lists of the tree are in the order of creation: [log] holds the
    widgets alive, each once, and the root list and each list of children
    is what [log] holds of the widgets with that parent, in the order of
    [log]. *)
Record in_order (log : list handle) (s : state) : Prop := mk_in_order {
  order_nodup : NoDup log;
  order_live : forall a, a ∈ log <-> is_Some (mem s !! a);
  order_root : Root (GUI s) = filter (fun a => link (mem s) a = Some None) log;
  order_children : forall p pw, mem s !! p = Some pw ->
    Children pw = filter (fun a => link (mem s) a = Some (Some p)) log }.

(** What the hit test is to return at a point: a widget that shows there,
    with no child that shows there, and such that no widget added later
    than it, or later than one of its ancestors, beside it shows there. *)
Definition front (log : list handle) (s : state) (px py : Z) (r : handle) : Prop :=
  shown s px py r /\
  (forall c, parent_of (mem s) c r -> ~ shown s px py c) /\
  (forall y z, in_subtree (mem s) y r -> added_after log (mem s) y z ->
     ~ shown s px py z).

(** A window with two buttons that overlap; the second one is added
    later. *)
Definition demo_overlap : list op :=
  [OpCreate demo_window None 0 0 320 240 (Some 1%positive);
   OpSetActiveWindow 1%positive;
   OpCreate demo_button (Some 1%positive) 10 10 100 30 (Some 2%positive);
   OpCreate demo_button (Some 1%positive) 10 10 50 50 (Some 3%positive)].

(** ** What a gesture delivers *)

(** The move events of a run of pressed samples for the active widget [a]:
    one for each sample that is not at the position of the sample before
    it; [prev] is the sample before the first. *)
Fixpoint moves (a : handle) (prev : __GUI_TouchData_t) (ms : list __GUI_TouchData_t)
    : list event :=
  match ms with
  | [] => []
  | t :: ms' =>
    (if same_position t prev then [] else [ToWidget a EvMove]) ++ moves a t ms'
  end.

Definition is_focus_change (e : event) : bool :=
  match e with
  | ToWidget _ EvFocus | ToWidget _ EvBlur => true
  | _ => false
  end.

(** The state of the scenario before the press: the window and the button
    are there, nothing is queued. *)
Definition demo_idle : list op := take 3 demo_pressed.

(** The reading of the first part of C5: a press while Idle makes every
    visible widget whose absolute rectangle contains the point the active
    widget. *)
Definition press_activates_widget_under_point : Prop :=
  forall (s : state) (t : __GUI_TouchData_t) (W : handle) (w : GUI_HANDLE) (ox oy : Z),
    router s = Idle -> Status t = true ->
    mem s !! W = Some w -> Visible w = true -> placed (mem s) W ox oy ->
    contains (abs_rect ox oy w) (TX t) (TY t) = true ->
    ActiveWidget (GUI (process_touch t s).2) = Some W.

(** The reading of the second part of C5: every pressed sample while a
    widget is active delivers a move event to it. *)
Definition pressed_sample_moves : Prop :=
  forall (s : state) (t : __GUI_TouchData_t) (a : handle),
    ActiveWidget (GUI s) = Some a -> Status t = true ->
    trace (process_touch t s).2 = trace s ++ [ToWidget a EvMove].

(** ** When the process entry point finds nothing to do *)

(** The time by which [GUI_Process] advances the timers. *)
Definition elapsed (s : state) : Z :=
  (Time (GUI s) - LastTime (Timers (GUI s))) mod 2 ^ 32.

(** No timer runs out within the elapsed time. *)
Definition timers_idle (s : state) : Prop :=
  Forall (fun t => elapsed s < Counter t) (List (Timers (GUI s))).

(** No widget is marked dirty. *)
Definition clean (s : state) : Prop :=
  forall x w, mem s !! x = Some w -> Dirty w = false.

(** A step of the process loop from [s] to [s'] that does [n] units of work
    of the kind [p]. *)
Definition works (p : event -> bool) (n : Z) (s s' : state) : Prop :=
  exists evs, trace s' = trace s ++ evs /\ n = Z.of_nat (length evs) /\
    Forall (fun e => p e = true) evs /\ mem s' = mem s.

(** ** The value macros as the preprocessor expands them

    An argument of a macro is an expression: evaluated on a store, it gives
    a value and the store after its side effects.  The text of an argument
    is copied to every place of the expansion where the parameter occurs. *)

Definition cexpr (S : Type) : Type := S -> Z * S.

(** An expression without side effects. *)
Definition pure {S : Type} (x : cexpr S) : Prop := forall s, (x s).2 = s.

(** The constant [c], and [i++] on a store that is the variable [i]. *)
Definition const {S : Type} (c : Z) : cexpr S := fun s => (c, s).
Definition post_inc : cexpr Z := fun i => (i, i + 1).

(** The two operands of a comparison are evaluated in either order. *)
Inductive operand_order : Type := LeftFirst | RightFirst.

Definition operands {S : Type} (o : operand_order) (x y : cexpr S) (s : S) : Z * Z * S :=
  match o with
  | LeftFirst => let '(vx, s1) := x s in let '(vy, s2) := y s1 in (vx, vy, s2)
  | RightFirst => let '(vy, s1) := y s in let '(vx, s2) := x s1 in (vx, vy, s2)
  end.

(** [((x) > (y) ? (x) : (y))]: the comparison, then the operand chosen. *)
Definition __GUI_MAX_expand {S : Type} (o : operand_order) (x y : cexpr S) : cexpr S :=
  fun s => let '(vx, vy, s') := operands o x y s in if vx >? vy then x s' else y s'.

(** [((x) < (y) ? (x) : (y))] *)
Definition __GUI_MIN_expand {S : Type} (o : operand_order) (x y : cexpr S) : cexpr S :=
  fun s => let '(vx, vy, s') := operands o x y s in if vx <? vy then x s' else y s'.

(** [((x) >= 0 ? (x) : -(x))] on an operand of a [w]-bit signed type; the
    expansion has no value when the negation overflows. *)
Definition __GUI_ABS_expand {S : Type} (W w : Z) (x : cexpr S) : S -> option (Z * S) :=
  fun s =>
    let '(v, s') := x s in
    if v >=? 0 then Some (x s')
    else let '(v', s'') := x s' in (fun r => (r, s'')) <$> neg W w v'.

(** ** Rectangles moved and enlarged *)

(** The rectangle [a] moved by [(dx, dy)]. *)
Definition shift (dx dy : Z) (a : GUI_Display_t) : GUI_Display_t :=
  mkDisplay (X1 a + dx) (Y1 a + dy) (X2 a + dx) (Y2 a + dy).

(** [a] lies within [a']. *)
Definition within (a a' : GUI_Display_t) : Prop :=
  X1 a' <= X1 a /\ Y1 a' <= Y1 a /\ X2 a <= X2 a' /\ Y2 a <= Y2 a'.

(** The rectangle [__GUI_MAX] and [__GUI_MIN] make of the corners of two
    rectangles. *)
Definition common_box (a b : GUI_Display_t) : GUI_Display_t :=
  mkDisplay (__GUI_MAX (X1 a) (X1 b)) (__GUI_MAX (Y1 a) (Y1 b))
            (__GUI_MIN (X2 a) (X2 b)) (__GUI_MIN (Y2 a) (Y2 b)).

(** ** The release macros on a pointer variable

    [__GUI_MEMFREE(p)] and [__GUI_MEMWIDFREE(p)] take the pointer as a
    variable, which they set to null at the end.  A pointer variable is
    given by how it is read and written; it is not part of the widget
    memory. *)

Record lvalue : Type := mkLvalue {
  load : state -> GUI_HANDLE_p;
  store : GUI_HANDLE_p -> state -> state }.

Record lawful (p : lvalue) : Prop := mkLawful {
  load_store : forall v s, load p (store p v s) = v;
  store_store : forall v v' s, store p v (store p v' s) = store p v s;
  store_mem : forall v s, mem (store p v s) = mem s;
  store_trace : forall v s, trace (store p v s) = trace s;
  load_emit : forall evs s, load p (emit evs s) = load p s }.

(** The variable [GUI.ActiveWidget]. *)
Definition lv_ActiveWidget : lvalue :=
  mkLvalue (fun s => ActiveWidget (GUI s))
           (fun v => set_GUI (fun g => with_Active v (ActiveWidgetPrev g) g)).

(** [free(p)] of the C library: nothing happens for the null pointer, a
    live block is released, and anything else is undefined. *)
Definition free (p : GUI_HANDLE_p) (s : state) : outcome unit :=
  match p with
  | None => Returned tt s
  | Some a =>
    match mem s !! a with
    | Some _ => Returned tt (set_mem (delete a) s)
    | None => Undefined
    end
  end.

Module Lvalue.

(** [#define __GUI_MEMFREE(p) do { free(p); (p) = NULL; } while (0);] *)
Definition __GUI_MEMFREE (p : lvalue) : body unit :=
  fun s =>
    match free (load p s) s with
    | Returned _ s1 => Returned tt (store p None s1)
    | Undefined => Undefined
    end.

(** [#define __GUI_MEMWIDFREE(p) do { __GUI_DEBUG("Memory free: ...", p, __GH(p)->Widget->Name);
      memset(p, 0x00, __GH(p)->Widget->Size); free(p); (p) = 0; } while (0)]:
    the debug line reads the widget through the pointer, which is undefined
    for a pointer that is null or not live. *)
Definition __GUI_MEMWIDFREE (p : lvalue) : body unit :=
  fun s =>
    match load p s with
    | None => Undefined
    | Some a =>
      match mem s !! a with
      | None => Undefined
      | Some w =>
        match free (load p (__GUI_DEBUG (DebugMemFree a (Name (Widget w))) s))
                (__GUI_DEBUG (DebugMemFree a (Name (Widget w))) s) with
        | Returned _ s1 => Returned tt (store p None s1)
        | Undefined => Undefined
        end
      end
    end.

End Lvalue.

(** * Properties *)

(** ** The overlap test *)

Section RectMatch.

Lemma rect_match_true (a b : GUI_Display_t) :
  rect_match a b = true <->
  X1 a <= X2 b /\ Y1 a <= Y2 b /\ X1 b <= X2 a /\ Y1 b <= Y2 a.
Proof.
  unfold rect_match, __GUI_RECT_MATCH.
  rewrite negb_true_iff, !orb_false_iff.
  rewrite !Z.gtb_ltb, !Z.ltb_ge. tauto.
Qed.

Lemma rect_match_comm (a b : GUI_Display_t) : rect_match a b = rect_match b a.
Proof.
  apply eq_true_iff_eq. rewrite !rect_match_true. tauto.
Qed.

Lemma share_point_match (a b : GUI_Display_t) :
  share_point a b -> rect_match a b = true.
Proof.
  intros (px & py & Ha & Hb). apply rect_match_true. unfold inside in *. lia.
Qed.

Lemma match_share_point (a b : GUI_Display_t) :
  well_formed a -> well_formed b -> rect_match a b = true -> share_point a b.
Proof.
  intros [Hax Hay] [Hbx Hby] (H1 & H2 & H3 & H4)%rect_match_true.
  exists (Z.max (X1 a) (X1 b)), (Z.max (Y1 a) (Y1 b)). unfold inside. lia.
Qed.

Lemma share_area_share_point (a b : GUI_Display_t) :
  share_area a b -> share_point a b.
Proof.
  intros (l & t & r & d & _ & _ & Ha & _ & Hb & _). by exists l, t.
Qed.

End RectMatch.

(** C1 (as stated, refuted): the rectangles [(0,0)-(10,10)] and
    [(10,0)-(20,10)] meet only along the edge [x = 10]; they have no common
    region of positive area, and yet the test reports an overlap. *)
Lemma rect_match_touching_edge :
  let a := mkDisplay 0 0 10 10 in
  let b := mkDisplay 10 0 20 10 in
  well_formed a /\ well_formed b /\
  ~ share_area a b /\ rect_match a b = true /\
  ~ (rect_match a b = true <-> share_area a b).
Proof.
  assert (Hno : ~ share_area (mkDisplay 0 0 10 10) (mkDisplay 10 0 20 10)).
  { intros (l & t & r & d & Hlr & Htd & Ha1 & Ha2 & Hb1 & Hb2).
    unfold inside in *; simpl in *. lia. }
  cbv zeta. repeat split; try (unfold well_formed; simpl; lia); try done.
  intros [H _]. apply Hno, H. reflexivity.
Qed.

(** C1 (amended): the overlap test is symmetric, for every pair of
    rectangles; it answers true for every pair with a common point, so for
    every pair with a common region of positive area and also for a pair
    that only touches along an edge or at a corner; and on well-formed
    rectangles it answers true only when the two closed rectangles have a
    point in common. *)
Theorem rect_match_symmetric_closed (a b : GUI_Display_t) :
  rect_match a b = rect_match b a /\
  (share_point a b -> rect_match a b = true) /\
  (share_area a b -> rect_match a b = true) /\
  (well_formed a -> well_formed b -> rect_match a b = true -> share_point a b).
Proof.
  split; [apply rect_match_comm|]. split; [apply share_point_match|]. split.
  - intros H. by apply share_point_match, share_area_share_point.
  - apply match_share_point.
Qed.

(** Two rectangles that touch at the corner (10, 10). *)
Lemma rect_match_symmetric_closed_witness :
  let a := mkDisplay 0 0 10 10 in
  let b := mkDisplay 10 10 20 20 in
  rect_match a b = rect_match b a /\ rect_match a b = true /\ share_point a b.
Proof.
  cbv zeta.
  destruct (rect_match_symmetric_closed (mkDisplay 0 0 10 10) (mkDisplay 10 10 20 20))
    as (Hsym & _ & _ & Hpoint).
  split; [exact Hsym|]. split; [reflexivity|].
  apply Hpoint; [unfold well_formed; simpl; lia..|reflexivity].
Defined.

(** ** Absolute value *)

Lemma pow2_split (w : Z) : 1 <= w -> 2 ^ w = 2 * 2 ^ (w - 1).
Proof.
  intros Hw. replace w with (Z.succ (w - 1)) at 1 by lia.
  rewrite Z.pow_succ_r by lia. reflexivity.
Qed.

Lemma pow2_pos (w : Z) : 1 <= w -> 0 < 2 ^ (w - 1).
Proof. intros Hw. apply Z.pow_pos_nonneg; lia. Qed.

(** A wider type holds the values of a narrower one, and twice its
    bound. *)
Lemma pow2_wider (w W : Z) :
  1 <= w -> (w <= W -> 2 ^ (w - 1) <= 2 ^ (W - 1)) /\ (w < W -> 2 * 2 ^ (w - 1) <= 2 ^ (W - 1)).
Proof.
  intros Hw. split; intros HW.
  - apply Z.pow_le_mono_r; lia.
  - rewrite <- pow2_split by done. apply Z.pow_le_mono_r; lia.
Qed.

(** The negation has a value exactly when the promoted type holds the
    negated operand. *)
Lemma neg_Some (W w x : Z) (r : Z) :
  neg W w x = Some r <-> r = - x /\ in_int (promote W w) (- x).
Proof.
  unfold neg, in_int.
  destruct (Z.leb_spec (int_min (promote W w)) (- x)),
           (Z.leb_spec (- x) (int_max (promote W w))); simpl;
    (split; [intros [= <-]|intros [-> ?]]); try done; lia.
Qed.

Lemma neg_None (W w x : Z) :
  neg W w x = None <-> ~ in_int (promote W w) (- x).
Proof.
  destruct (neg W w x) as [r|] eqn:Hn.
  - apply neg_Some in Hn as [_ Hin]. split; [done|]. by intros [].
  - split; [|done]. intros _ Hin.
    assert (neg W w x = Some (- x)) as Hs by (by apply neg_Some). congruence.
Qed.

(** Above the least value of its own type every operand is negated
    exactly. *)
Lemma neg_exact (W w x : Z) :
  1 <= w -> int_min w < x <= int_max w -> neg W w x = Some (- x).
Proof.
  intros Hw Hx. apply neg_Some. split; [done|].
  destruct (pow2_wider w (promote W w) Hw) as [Hle _].
  specialize (Hle ltac:(unfold promote; lia)).
  unfold in_int, int_min, int_max in *. lia.
Qed.

(** At the least value the negation is [2 ^ (w - 1)] when the type is
    narrower than [int], and an overflow otherwise. *)
Lemma neg_int_min (W w : Z) :
  1 <= w ->
  (w < W -> neg W w (int_min w) = Some (2 ^ (w - 1))) /\
  (W <= w -> neg W w (int_min w) = None).
Proof.
  intros Hw. pose proof (pow2_pos w Hw) as Hp. split; intros HW.
  - apply neg_Some. unfold int_min at 1 2. rewrite Z.opp_involutive. split; [done|].
    replace (promote W w) with W by (unfold promote; lia).
    destruct (pow2_wider w W Hw) as [_ Hlt]. specialize (Hlt HW).
    unfold in_int, int_min, int_max. lia.
  - apply neg_None. replace (promote W w) with w by (unfold promote; lia).
    unfold in_int, int_min, int_max. lia.
Qed.

(** C10 (as stated, refuted): at the least value of [int] (32 bits) the
    negation overflows and [__GUI_ABS] has no defined result; at the least
    value of an 8-bit type the operand is promoted and the result is
    [+128]; in neither case is it the least value. *)
Lemma GUI_ABS_least_value_not_wrapped :
  in_int 32 (int_min 32) /\ __GUI_ABS 32 32 (int_min 32) = None /\
  in_int 8 (int_min 8) /\ __GUI_ABS 32 8 (int_min 8) = Some 128 /\
  ~ least_value_wraps.
Proof.
  split; [by vm_compute|]. split; [reflexivity|]. split; [by vm_compute|].
  split; [reflexivity|]. intros Hc. specialize (Hc 32 32 ltac:(lia)). discriminate Hc.
Qed.

(** C10 (amended): on a signed integer of a [w]-bit type above the least
    value, [__GUI_ABS] is the absolute value, which is not negative and
    fits the type; at the least value of a type narrower than [int] the
    promoted operand is negated and the result is [2 ^ (w - 1)], positive
    and beyond the operand's type; at the least value of [int] or of a
    wider type the negation overflows and no result is defined; a result,
    when there is one, is the absolute value and never negative. *)
Theorem GUI_ABS_spec (W w x : Z) :
  1 <= w -> in_int w x ->
  (int_min w < x -> __GUI_ABS W w x = Some (Z.abs x) /\ 0 <= Z.abs x <= int_max w) /\
  (x = int_min w -> w < W ->
     __GUI_ABS W w x = Some (2 ^ (w - 1)) /\ int_max w < 2 ^ (w - 1) <= int_max W) /\
  (x = int_min w -> W <= w -> __GUI_ABS W w x = None) /\
  (forall r, __GUI_ABS W w x = Some r -> r = Z.abs x /\ 0 <= r).
Proof.
  intros Hw [Hlo Hhi]. pose proof (pow2_pos w Hw) as Hp.
  assert (Hneg : int_min w < 0) by (unfold int_min; lia).
  unfold __GUI_ABS. repeat apply conj.
  - intros Hgt. destruct (Z.geb_spec x 0) as [Hx|Hx].
    + split; [f_equal|]; lia.
    + rewrite neg_exact by lia. split; [f_equal|]; unfold int_min, int_max in *; lia.
  - intros -> HW. destruct (Z.geb_spec (int_min w) 0) as [Hx|Hx]; [lia|].
    destruct (neg_int_min W w Hw) as [Hn _]. rewrite Hn by done. split; [done|].
    destruct (pow2_wider w W Hw) as [_ Hlt]. specialize (Hlt HW).
    unfold int_max. lia.
  - intros -> HW. destruct (Z.geb_spec (int_min w) 0) as [Hx|Hx]; [lia|].
    by apply neg_int_min.
  - intros r. destruct (Z.geb_spec x 0) as [Hx|Hx].
    + intros [= <-]. lia.
    + intros [-> _]%neg_Some. lia.
Qed.

Lemma GUI_ABS_spec_witness :
  (__GUI_ABS 32 16 (-300) = Some 300 /\ 0 <= 300 <= int_max 16) /\
  (__GUI_ABS 32 16 (-32768) = Some 32768 /\ int_max 16 < 32768 <= int_max 32) /\
  __GUI_ABS 32 32 (-2147483648) = None.
Proof.
  assert (H16 : 1 <= 16) by lia. assert (H32 : 1 <= 32) by lia.
  assert (Ha : in_int 16 (-300)) by (unfold in_int, int_min, int_max; simpl; lia).
  assert (Hb : in_int 16 (-32768)) by (unfold in_int, int_min, int_max; simpl; lia).
  assert (Hc : in_int 32 (-2147483648)) by (unfold in_int, int_min, int_max; simpl; lia).
  destruct (GUI_ABS_spec 32 16 (-300) H16 Ha) as (Habove & _).
  destruct (GUI_ABS_spec 32 16 (-32768) H16 Hb) as (_ & Hnarrow & _).
  destruct (GUI_ABS_spec 32 32 (-2147483648) H32 Hc) as (_ & _ & Hwide & _).
  split; [apply Habove; unfold int_min; simpl; lia|].
  split; [apply Hnarrow; [reflexivity|lia]|].
  apply Hwide; [reflexivity|lia].
Defined.

(** ** Parameter check *)

(** C3 (as stated, refuted): a call on the null handle, guarded by the check
    that the handle is not null, in front of a body that is undefined on
    the null handle, returns 0. *)
Lemma assertparams_null_handle_returns :
  let h : GUI_HANDLE_p := None in
  let s := GUI_Init (mkLCD 320 240) in
  let call := __GUI_ASSERTPARAMS (fun _ => bool_decide (is_Some h))
                (fun _ => Undefined : outcome Z) in
  call s = Returned 0 (emit [DebugAssertParams] s) /\
  call s <> Undefined /\
  ~ violation_is_undefined.
Proof.
  cbv zeta. split; [reflexivity|]. split; [discriminate|].
  intros Hc.
  specialize (Hc (fun _ => false) (fun _ => Undefined) (GUI_Init (mkLCD 320 240)) eq_refl).
  discriminate Hc.
Qed.

(** C3 (amended): a call that fails the check of [__GUI_ASSERTPARAMS] does
    not reach the rest of the body: in every build it prints the debug line
    and returns 0 (the null handle, for a function that returns one), with
    the object [GUI], the widget memory and the input queue as they were. *)
Theorem assertparams_violation_returns_zero {R : Type} `{CZero R}
    (c : state -> bool) (rest : body R) (s : state) :
  c s = false ->
  exists s',
    __GUI_ASSERTPARAMS c rest s = Returned czero s' /\
    GUI s' = GUI s /\ mem s' = mem s /\ input s' = input s /\
    trace s' = trace s ++ [DebugAssertParams].
Proof.
  intros Hc. unfold __GUI_ASSERTPARAMS. rewrite Hc. simpl.
  eexists. split; [reflexivity|]. done.
Qed.

Lemma assertparams_violation_returns_zero_witness :
  exists s',
    __GUI_ASSERTPARAMS (fun s => bool_decide (is_Some (WindowActive (GUI s))))
      (fun _ => Undefined : outcome GUI_HANDLE_p) (GUI_Init (mkLCD 320 240))
      = Returned None s' /\
    GUI s' = GUI (GUI_Init (mkLCD 320 240)) /\
    mem s' = mem (GUI_Init (mkLCD 320 240)) /\
    input s' = input (GUI_Init (mkLCD 320 240)) /\
    trace s' = trace (GUI_Init (mkLCD 320 240)) ++ [DebugAssertParams].
Proof.
  apply (assertparams_violation_returns_zero
           (fun s => bool_decide (is_Some (WindowActive (GUI s))))
           (fun _ => Undefined) (GUI_Init (mkLCD 320 240))).
  reflexivity.
Defined.

(** ** Creation without an active window *)

Lemma assertactivewin_null (rest : body GUI_HANDLE_p) (s : state) :
  WindowActive (GUI s) = None ->
  __GUI_ASSERTACTIVEWIN rest s = Returned None (emit [DebugNoActiveWindow] s).
Proof. intros H. unfold __GUI_ASSERTACTIVEWIN. by rewrite H. Qed.

(** C2: with no active window, a body placed behind
    [__GUI_ASSERTACTIVEWIN] is not run and the null handle is returned; so
    the creation of a widget of a kind that needs a window returns the null
    handle and leaves the object [GUI], the widget memory and the input
    queue as they were (the debug line is printed). *)
Theorem createWidget_no_active_window (kind : GUI_WIDGET_t) (parent : GUI_HANDLE_p)
    (x y width height : Z) (grant : GUI_HANDLE_p) (s : state) :
  WindowActive (GUI s) = None -> NeedsWindow kind = true ->
  (forall rest, exists s',
     __GUI_ASSERTACTIVEWIN rest s = Returned None s' /\
     GUI s' = GUI s /\ mem s' = mem s /\ input s' = input s) /\
  exists s',
    createWidget kind parent x y width height grant s = Returned None s' /\
    GUI s' = GUI s /\ mem s' = mem s /\ input s' = input s /\
    trace s' = trace s ++ [DebugNoActiveWindow].
Proof.
  intros Hwin Hkind. split.
  - intros rest. eexists. split; [by apply assertactivewin_null|]. done.
  - unfold createWidget. rewrite Hkind.
    eexists. split; [by apply assertactivewin_null|]. done.
Qed.

Lemma createWidget_no_active_window_witness :
  let s := GUI_Init (mkLCD 320 240) in
  let button := mkWidget "button" 32 false true true in
  (forall rest, exists s',
     __GUI_ASSERTACTIVEWIN rest s = Returned None s' /\
     GUI s' = GUI s /\ mem s' = mem s /\ input s' = input s) /\
  exists s',
    createWidget button None 10 10 100 30 (Some 1%positive) s = Returned None s' /\
    GUI s' = GUI s /\ mem s' = mem s /\ input s' = input s /\
    trace s' = trace s ++ [DebugNoActiveWindow].
Proof.
  cbv zeta.
  apply (createWidget_no_active_window (mkWidget "button" 32 false true true)
           None 10 10 100 30 (Some 1%positive) (GUI_Init (mkLCD 320 240)));
    reflexivity.
Defined.

(** ** Timer core *)

Section TimerRun.

Variable t : GUI_TIMER_t.
Hypothesis periodic : Periodic t = true.
Hypothesis period_pos : 0 < Period t.

Let fired : event := TimerFired (Id t) (Callback t).

(** The number of reloads and the countdown left after [elapsed]
    milliseconds, for a countdown that stood at [c]. *)
Lemma timer_run_periodic (fuel : nat) (elapsed c : Z) :
  0 < c <= Period t -> 0 <= elapsed -> (Z.to_nat elapsed < fuel)%nat ->
  timer_run fuel elapsed (with_Counter c t) =
    (Some (with_Counter (Period t - (elapsed + Period t - c) mod Period t) t),
     replicate (Z.to_nat ((elapsed + Period t - c) / Period t)) fired).
Proof.
  revert elapsed c. induction fuel as [|fuel IH]; intros elapsed c Hc He Hf; [lia|].
  simpl. destruct (Z.ltb_spec elapsed c) as [Hlt|Hge].
  - rewrite Z.div_small, Z.mod_small by lia. simpl.
    unfold with_Counter; simpl. do 3 f_equal. lia.
  - rewrite periodic.
    replace (with_Counter (Period t) (with_Counter c t))
      with (with_Counter (Period t) t) by reflexivity.
    rewrite IH by lia.
    replace (elapsed + Period t - c) with ((elapsed - c) + 1 * Period t) by lia.
    rewrite Z.div_add, Z.mod_add by lia.
    replace (elapsed - c + Period t - Period t) with (elapsed - c) by lia.
    rewrite Z2Nat.inj_add by (try apply Z.div_pos; lia).
    rewrite Nat.add_comm. reflexivity.
Qed.

End TimerRun.

Lemma with_Counter_id (t : GUI_TIMER_t) : with_Counter (Counter t) t = t.
Proof. by destruct t. Qed.

Lemma timer_advance_periodic (t : GUI_TIMER_t) (elapsed : Z) :
  Periodic t = true -> 0 < Period t -> 0 < Counter t <= Period t -> 0 <= elapsed ->
  timer_advance elapsed t =
    (Some (with_Counter (Period t - (elapsed + Period t - Counter t) mod Period t) t),
     replicate (Z.to_nat ((elapsed + Period t - Counter t) / Period t))
       (TimerFired (Id t) (Callback t))).
Proof.
  intros Hp Hpos Hc He. unfold timer_advance.
  rewrite <- (with_Counter_id t) at 1.
  rewrite timer_run_periodic by (done || lia). reflexivity.
Qed.

(** A timer that has time left is not touched by an advance of 0. *)
Lemma timer_advance_zero (t : GUI_TIMER_t) :
  0 < Counter t -> timer_advance 0 t = (Some t, []).
Proof.
  intros Hc. unfold timer_advance. simpl.
  destruct (Z.ltb_spec 0 (Counter t)); [|lia].
  rewrite Z.sub_0_r, with_Counter_id. reflexivity.
Qed.

(** The callbacks invoked for a timer are its own, and what is left of the
    timer keeps its identity. *)
Lemma timer_run_events (fuel : nat) (elapsed : Z) (t : GUI_TIMER_t) r evs :
  timer_run fuel elapsed t = (r, evs) ->
  Forall (fun e => e = TimerFired (Id t) (Callback t)) evs /\
  (forall t', r = Some t' -> Id t' = Id t).
Proof.
  revert elapsed t r evs. induction fuel as [|fuel IH]; intros elapsed t r evs; simpl.
  - intros [= <- <-]. split; [constructor|]. by intros t' [= <-].
  - destruct (elapsed <? Counter t).
    + intros [= <- <-]. split; [constructor|]. by intros t' [= <-].
    + destruct (Periodic t).
      * destruct (timer_run fuel _ _) as [r' evs'] eqn:Hrun.
        intros [= <- <-]. apply IH in Hrun as [Hev Hid]. simpl in *.
        split; [by constructor|]. done.
      * intros [= <- <-]. split; [by repeat constructor|]. done.
Qed.

Lemma fired_count_app (a : handle) (e1 e2 : list event) :
  fired_count a (e1 ++ e2) = fired_count a e1 + fired_count a e2.
Proof. unfold fired_count. rewrite filter_app, length_app. lia. Qed.

Lemma fired_count_own (a : handle) (cb : Z) (n : nat) :
  fired_count a (replicate n (TimerFired a cb)) = Z.of_nat n.
Proof.
  unfold fired_count. induction n as [|n IH]; [done|]. simpl.
  rewrite filter_cons_True by (simpl; by rewrite bool_decide_eq_true). simpl. lia.
Qed.

Lemma fired_count_other (a : handle) (evs : list event) :
  Forall (fun e => fired_by a e = false) evs -> fired_count a evs = 0.
Proof.
  unfold fired_count. induction 1 as [|e evs He _ IH]; [done|].
  rewrite filter_cons_False by congruence. done.
Qed.

(** One advance of the whole list, seen from one of its timers. *)
Lemma timers_advance_member (elapsed : Z) (l : list GUI_TIMER_t) (t t' : GUI_TIMER_t)
    (n : nat) :
  NoDup (Id <$> l) -> t ∈ l ->
  timer_advance elapsed t = (Some t', replicate n (TimerFired (Id t) (Callback t))) ->
  t' ∈ (timers_advance elapsed l).1 /\
  fired_count (Id t) (timers_advance elapsed l).2 = Z.of_nat n.
Proof.
  induction l as [|u l IH]; intros Hnd Hin Hadv; [by apply elem_of_nil in Hin|].
  rewrite fmap_cons in Hnd. apply NoDup_cons in Hnd as [Hu Hnd].
  simpl. destruct (timer_advance elapsed u) as [r e1] eqn:Hu_adv.
  destruct (timers_advance elapsed l) as [l2 e2] eqn:Hl. simpl in *.
  rewrite fired_count_app.
  apply elem_of_cons in Hin as [->|Hin].
  - rewrite Hadv in Hu_adv. injection Hu_adv as <- <-.
    split; [left|]. rewrite fired_count_own.
    rewrite fired_count_other; [lia|].
    clear -Hu Hl. revert l2 e2 Hl. induction l as [|v l IH]; intros l2 e2; simpl.
    + by intros [= <- <-].
    + destruct (timer_advance elapsed v) as [r e1] eqn:Hv.
      destruct (timers_advance elapsed l) as [l3 e3] eqn:Hl.
      intros [= <- <-]. rewrite fmap_cons in Hu. apply not_elem_of_cons in Hu as [Hne Hu].
      apply Forall_app. split; [|by eapply IH].
      apply timer_run_events in Hv as [Hv _].
      eapply Forall_impl; [exact Hv|]. intros e ->. simpl.
      by apply bool_decide_eq_false.
  - destruct (IH Hnd Hin Hadv) as [Hmem Hcount]. split.
    + destruct r; [by right|done].
    + rewrite Hcount. rewrite fired_count_other; [lia|].
      apply timer_run_events in Hu_adv as [Hev _].
      eapply Forall_impl; [exact Hev|]. intros e ->. simpl.
      apply bool_decide_eq_false. intros Heq. apply Hu.
      rewrite <- Heq. apply list_elem_of_fmap. by exists t.
Qed.

(** An advance keeps the identities of the timers apart. *)
Lemma timers_advance_ids (elapsed : Z) (l : list GUI_TIMER_t) :
  Id <$> (timers_advance elapsed l).1 `sublist_of` Id <$> l.
Proof.
  induction l as [|u l IH]; [done|]. cbn [timers_advance].
  destruct (timer_advance elapsed u) as [r e1] eqn:Hu.
  destruct (timers_advance elapsed l) as [l2 e2]. cbn [fst] in *.
  rewrite fmap_cons. destruct r as [u'|].
  - apply timer_run_events in Hu as [_ Hid]. rewrite fmap_cons, (Hid u' eq_refl).
    by apply sublist_skip.
  - by apply sublist_cons.
Qed.

Lemma timers_advance_zero (l : list GUI_TIMER_t) :
  Forall (fun t => 0 < Counter t) l -> timers_advance 0 l = (l, []).
Proof.
  induction 1 as [|t l Ht _ IH]; [done|]. simpl.
  by rewrite timer_advance_zero, IH.
Qed.

Lemma advance_unfold (elapsed : Z) (s : state) :
  advance elapsed s =
    (Z.of_nat (length (timers_advance elapsed (List (Timers (GUI s)))).2),
     emit (timers_advance elapsed (List (Timers (GUI s)))).2
       (set_GUI (fun g => with_Timers
          (mkTimerCore (LastTime (Timers g))
             (timers_advance elapsed (List (Timers (GUI s)))).1) g) s)).
Proof. unfold advance. by destruct (timers_advance _ _). Qed.

Lemma advance_zero (s : state) :
  Forall (fun t => 0 < Counter t) (List (Timers (GUI s))) -> advance 0 s = (0, s).
Proof.
  intros H. rewrite advance_unfold, timers_advance_zero by done.
  destruct s as [[? ? ? ? ? ? ? ? ? ? [? ?] ? ? ? ?] ? ? ?].
  unfold emit, set_GUI, with_Timers. simpl. by rewrite app_nil_r.
Qed.

Lemma div_mod_carry (a b p : Z) :
  0 < p -> 0 <= a -> 0 <= b ->
  a / p + (b + p - (p - a mod p)) / p = (a + b) / p /\
  (b + p - (p - a mod p)) mod p = (a + b) mod p.
Proof.
  intros Hp Ha Hb.
  replace (b + p - (p - a mod p)) with (b + a mod p) by lia.
  pose proof (Z.div_mod a p ltac:(lia)) as Hdm.
  replace (a + b) with (b + a mod p + (a / p) * p) by lia.
  rewrite Z.div_add, Z.mod_add by lia. lia.
Qed.

(** The firing count of a periodic timer over a run of advances, from a
    countdown that stands at [c]. *)
Lemma advances_periodic (ds : list Z) (s : state) (t : GUI_TIMER_t) (c : Z) :
  NoDup (Id <$> List (Timers (GUI s))) ->
  with_Counter c t ∈ List (Timers (GUI s)) ->
  Periodic t = true -> 0 < Period t -> 0 < c <= Period t ->
  Forall (fun d => 0 <= d) ds ->
  exists evs,
    trace (advances ds s) = trace s ++ evs /\
    fired_count (Id t) evs = (total ds + Period t - c) / Period t /\
    with_Counter (Period t - (total ds + Period t - c) mod Period t) t
      ∈ List (Timers (GUI (advances ds s))).
Proof.
  intros Hnd Hin Hper Hpos Hc Hds. revert s c Hnd Hin Hc.
  induction Hds as [|d ds Hd Hds IH]; intros s c Hnd Hin Hc.
  - exists []. simpl. rewrite app_nil_r. split; [done|].
    replace (0 + Period t - c) with (Period t - c) by lia.
    rewrite Z.div_small, Z.mod_small by lia.
    replace (Period t - (Period t - c)) with c by lia. done.
  - pose proof (timer_advance_periodic (with_Counter c t) d Hper Hpos Hc Hd) as Hadv.
    cbn [Period Counter Id Callback with_Counter] in Hadv.
    destruct (timers_advance_member d _ _ _ _ Hnd Hin Hadv) as [Hmem Hcount].
    set (c1 := Period t - (d + Period t - c) mod Period t) in *.
    assert (Hc1 : 0 < c1 <= Period t).
    { pose proof (Z.mod_pos_bound (d + Period t - c) (Period t) Hpos). lia. }
    change (advances (d :: ds) s) with (advances ds (advance d s).2).
    rewrite advance_unfold. cbn [snd].
    set (s1 := emit _ _).
    destruct (IH s1 c1) as (evs & Htr & Hcnt & Hmem1).
    + subst s1. simpl. eapply sublist_NoDup; [exact Hnd|apply timers_advance_ids].
    + subst s1. simpl. exact Hmem.
    + done.
    + exists ((timers_advance d (List (Timers (GUI s)))).2 ++ evs).
      rewrite Htr. subst s1. simpl. rewrite <- app_assoc. split; [done|].
      rewrite fired_count_app. cbn [Id with_Counter] in Hcount. rewrite Hcount, Hcnt.
      destruct (div_mod_carry (d + Period t - c) (total ds) (Period t)) as [Hq Hr];
        [lia| lia | |].
      { clear -Hds. induction Hds; simpl; lia. }
      fold c1 in Hq, Hr.
      replace (d + total ds + Period t - c) with (d + Period t - c + total ds) by lia.
      rewrite <- Hq, <- Hr.
      rewrite Z2Nat.id by (apply Z.div_pos; lia). done.
Qed.

(** ** Parent chains *)

Section Chains.

Variable m : gmap handle GUI_HANDLE.

Lemma depth_fun (x : handle) (n k : nat) : depth m x n -> depth m x k -> n = k.
Proof.
  intros Hn. revert k. induction Hn as [x w Hx Hp|x w p n Hx Hp _ IH]; intros k Hk.
  - inversion Hk; simplify_eq; done.
  - inversion Hk as [|? ? ? k' ? ? Hk']; simplify_eq. f_equal. by apply IH.
Qed.

Lemma chain_live (a x : handle) (n : nat) : chain m a x n -> is_Some (m !! x).
Proof. destruct 1; eauto. Qed.

Lemma chain_top_live (a x : handle) (n : nat) : chain m a x n -> is_Some (m !! a).
Proof. induction 1; eauto. Qed.

Lemma chain_depth (a x : handle) (n k : nat) :
  chain m a x n -> depth m a k -> depth m x (n + k).
Proof.
  intros Hc Hd. induction Hc as [|x w p n Hx Hp _ IH]; [done|].
  simpl. by eapply depth_below.
Qed.

(** A chain to a child of [h] goes on to [h]. *)
Lemma chain_extend (h c x : handle) (cw : GUI_HANDLE) (n : nat) :
  is_Some (m !! h) -> m !! c = Some cw -> Parent cw = Some h ->
  chain m c x n -> chain m h x (S n).
Proof.
  intros Hh Hc Hp. induction 1 as [|x w p n Hx Hxp _ IH].
  - eapply chain_up; [done..|]. by constructor.
  - eapply chain_up; done.
Qed.

(** A chain to [h] of at least one step passes through a child of [h]. *)
Lemma chain_last (h x : handle) (n : nat) :
  chain m h x (S n) ->
  exists c cw, m !! c = Some cw /\ Parent cw = Some h /\ chain m c x n.
Proof.
  revert x. induction n as [|n IH]; intros x Hc.
  - inversion Hc as [|? w p ? Hx Hp Hc']; simplify_eq.
    inversion Hc'; simplify_eq. exists x, w. split; [done|]. split; [done|].
    constructor. eauto.
  - inversion Hc as [|? w p ? Hx Hp Hc']; simplify_eq.
    destruct (IH p Hc') as (c & cw & Hcw & Hcp & Hcc).
    exists c, cw. split; [done|]. split; [done|]. by eapply chain_up.
Qed.

(** The ancestors of a widget lie on one line. *)
Lemma chain_linear (a b x : handle) (n k : nat) :
  chain m a x n -> chain m b x k -> (n <= k)%nat -> chain m b a (k - n).
Proof.
  intros Ha. revert k. induction Ha as [|x w p n Hx Hp _ IH]; intros k Hb Hle.
  - by rewrite Nat.sub_0_r.
  - inversion Hb as [|? w' p' k' Hx' Hp' Hb']; simplify_eq; [lia|].
    simpl. apply IH; [done|lia].
Qed.

(** Two children of one widget have no descendant in common. *)
Lemma siblings_apart (h c1 c2 x : handle) (w1 w2 : GUI_HANDLE) (d : nat) :
  depth m h d ->
  m !! c1 = Some w1 -> Parent w1 = Some h ->
  m !! c2 = Some w2 -> Parent w2 = Some h ->
  in_subtree m c1 x -> in_subtree m c2 x -> c1 = c2.
Proof.
  intros Hd H1 Hp1 H2 Hp2 [n Hn] [k Hk].
  assert (Hd1 : depth m c1 (S d)) by (by eapply depth_below).
  assert (Hd2 : depth m c2 (S d)) by (by eapply depth_below).
  destruct (Nat.le_gt_cases n k) as [Hle|Hlt].
  - pose proof (chain_linear _ _ _ _ _ Hn Hk Hle) as Hc.
    pose proof (chain_depth _ _ _ _ Hc Hd2) as Hd'.
    pose proof (depth_fun _ _ _ Hd1 Hd') as Heq.
    assert (k - n = 0)%nat as Hz by lia. rewrite Hz in Hc. by inversion Hc.
  - pose proof (chain_linear _ _ _ _ _ Hk Hn ltac:(lia)) as Hc.
    pose proof (chain_depth _ _ _ _ Hc Hd1) as Hd'.
    pose proof (depth_fun _ _ _ Hd2 Hd') as Heq. lia.
Qed.

(** A widget is not below one of its children. *)
Lemma not_below_child (h c : handle) (cw : GUI_HANDLE) (d : nat) :
  depth m h d -> m !! c = Some cw -> Parent cw = Some h -> ~ in_subtree m c h.
Proof.
  intros Hd Hc Hp [n Hn].
  assert (Hdc : depth m c (S d)) by (by eapply depth_below).
  pose proof (chain_depth _ _ _ _ Hn Hdc) as Hd'.
  pose proof (depth_fun _ _ _ Hd Hd'). lia.
Qed.

(** The widgets on the way from a widget of depth [n] up to the top are
    [n + 1] different live widgets. *)
Lemma depth_ancestors (x : handle) (n : nat) :
  depth m x n ->
  exists l : list handle, length l = S n /\ NoDup l /\
    forall y, y ∈ l -> exists j, (j <= n)%nat /\ depth m y j.
Proof.
  induction 1 as [x w Hx Hp|x w p n Hx Hp Hd (l & Hlen & Hnd & Hl)].
  - exists [x]. split; [done|]. split; [apply NoDup_singleton|].
    intros y ->%list_elem_of_singleton. exists 0%nat. split; [lia|]. by eapply depth_top.
  - exists (x :: l). split; [simpl; lia|]. split.
    + apply NoDup_cons. split; [|done]. intros Hin.
      destruct (Hl x Hin) as (j & Hj & Hdj).
      assert (depth m x (S n)) as Hdx by (by eapply depth_below).
      pose proof (depth_fun _ _ _ Hdj Hdx). lia.
    + intros y [->|Hy]%elem_of_cons.
      * exists (S n). split; [lia|]. by eapply depth_below.
      * destruct (Hl y Hy) as (j & Hj & Hdj). exists j. split; [lia|done].
Qed.

Lemma depth_live (x : handle) (n : nat) : depth m x n -> is_Some (m !! x).
Proof. destruct 1; eauto. Qed.

Lemma depth_lt_size (x : handle) (n : nat) : depth m x n -> (n < size m)%nat.
Proof.
  intros (l & Hlen & Hnd & Hl)%depth_ancestors.
  assert (l ⊆+ elements (dom m)) as Hsub.
  { apply NoDup_submseteq; [done|]. intros y Hy.
    destruct (Hl y Hy) as (j & _ & Hd). apply elem_of_elements, elem_of_dom.
    by eapply depth_live. }
  apply submseteq_length in Hsub.
  change (length (elements (dom m))) with (size (dom m)) in Hsub.
  rewrite size_dom in Hsub. lia.
Qed.

(** The depth goes down along the parent references, so that none of them
    closes a cycle. *)
Lemma tc_parent_depth (x y : handle) (n : nat) :
  tc (parent_of m) x y -> depth m x n -> exists k, depth m y k /\ (k < n)%nat.
Proof.
  intros Htc. revert n. induction Htc as [x y (w & Hx & Hp)|x y z (w & Hx & Hp) _ IH];
    intros n Hd.
  - inversion Hd as [|? ? ? n' ? ? Hd']; simplify_eq. exists n'. split; [done|lia].
  - inversion Hd as [|? ? ? n' ? ? Hd']; simplify_eq.
    destruct (IH n' Hd') as (k & Hk & Hlt). exists k. split; [done|lia].
Qed.

Lemma depth_acyclic : (forall x, is_Some (m !! x) -> exists n, depth m x n) -> acyclic m.
Proof.
  intros Hdepth x Htc.
  assert (is_Some (m !! x)) as Hx.
  { inversion Htc as [? ? (w & Hw & _)|? ? ? (w & Hw & _)]; eauto. }
  destruct (Hdepth x Hx) as [n Hn].
  destruct (tc_parent_depth _ _ _ Htc Hn) as (k & Hk & Hlt).
  pose proof (depth_fun _ _ _ Hn Hk). lia.
Qed.

End Chains.

(** ** Removal in closed form *)

Section Removed.

Variable l : list handle.
Variable s : state.

Lemma lookup_removed (x : handle) :
  mem (removed l s) !! x =
    if decide (x ∈ l) then None else prune l <$> (mem s !! x).
Proof.
  unfold removed; simpl. rewrite lookup_fmap. destruct (decide (x ∈ l)) as [Hin|Hout].
  - rewrite map_lookup_filter_None_2; [done|]. right. intros w _ Hn. by apply Hn.
  - destruct (mem s !! x) as [w|] eqn:Hx.
    + by erewrite map_lookup_filter_Some_2.
    + rewrite map_lookup_filter_None_2; [done|]. by left.
Qed.

Lemma lookup_removed_Some (x : handle) (w' : GUI_HANDLE) :
  mem (removed l s) !! x = Some w' <->
  (x ∉ l) /\ exists w, mem s !! x = Some w /\ w' = prune l w.
Proof.
  rewrite lookup_removed. destruct (decide (x ∈ l)) as [Hin|Hout].
  - split; [done|]. by intros [? _].
  - destruct (mem s !! x) as [w|]; simpl.
    + split.
      * intros [= <-]. eauto.
      * intros (_ & w0 & [= <-] & ->). done.
    + split; [done|]. by intros (_ & w0 & ? & _).
Qed.

Lemma lookup_removed_keep (x : handle) (w : GUI_HANDLE) :
  mem s !! x = Some w -> x ∉ l -> mem (removed l s) !! x = Some (prune l w).
Proof. intros Hx Hout. apply lookup_removed_Some. eauto. Qed.

Lemma removed_live (x : handle) :
  is_Some (mem (removed l s) !! x) <-> (x ∉ l) /\ is_Some (mem s !! x).
Proof.
  split.
  - intros [w' (Hout & w & Hw & _)%lookup_removed_Some]. eauto.
  - intros [Hout [w Hw]]. exists (prune l w). by apply lookup_removed_keep.
Qed.

Lemma chain_removed_inv (a x : handle) (n : nat) :
  chain (mem (removed l s)) a x n -> chain (mem s) a x n.
Proof.
  induction 1 as [Ha|x w' p n Hx Hp _ IH].
  - constructor. by apply removed_live in Ha as [_ Ha].
  - apply lookup_removed_Some in Hx as (_ & w & Hw & ->).
    by eapply chain_up.
Qed.

Hypothesis closed : down_closed (mem s) l.

Lemma chain_removed (a x : handle) (n : nat) :
  chain (mem s) a x n -> x ∉ l -> chain (mem (removed l s)) a x n.
Proof.
  induction 1 as [Ha|x w p n Hx Hp _ IH]; intros Hout.
  - constructor. by apply removed_live.
  - eapply chain_up; [by apply lookup_removed_keep|done|].
    apply IH. intros Hin. apply Hout. by eapply closed.
Qed.

Lemma depth_removed (x : handle) (n : nat) :
  depth (mem s) x n -> x ∉ l -> depth (mem (removed l s)) x n.
Proof.
  induction 1 as [x w Hx Hp|x w p n Hx Hp _ IH]; intros Hout.
  - eapply depth_top; [by apply lookup_removed_keep|done].
  - eapply depth_below; [by apply lookup_removed_keep|done|].
    apply IH. intros Hin. apply Hout. by eapply closed.
Qed.

Lemma wf_tree_removed :
  wf_tree (mem s) (Root (GUI s)) ->
  wf_tree (mem (removed l s)) (Root (GUI (removed l s))).
Proof.
  intros [Hpar Htop Hch Hroot Hnd Hndr Hdep]. split.
  - intros x w' p (Hout & w & Hw & ->)%lookup_removed_Some Hp. simpl in Hp.
    destruct (Hpar x w p Hw Hp) as (pw & Hpw & Hin).
    exists (prune l pw). split.
    + apply lookup_removed_keep; [done|]. intros Hpl. apply Hout. by eapply closed.
    + simpl. by apply list_elem_of_filter.
  - intros x w' (Hout & w & Hw & ->)%lookup_removed_Some Hp. simpl in *.
    apply list_elem_of_filter. split; [done|]. by eapply Htop.
  - intros p pw' c (Hout & pw & Hpw & ->)%lookup_removed_Some Hc. simpl in Hc.
    apply list_elem_of_filter in Hc as [Hcout Hc].
    destruct (Hch p pw c Hpw Hc) as (cw & Hcw & Hcp).
    exists (prune l cw). split; [by apply lookup_removed_keep|done].
  - intros c Hc. simpl in Hc. apply list_elem_of_filter in Hc as [Hcout Hc].
    destruct (Hroot c Hc) as (cw & Hcw & Hcp).
    exists (prune l cw). split; [by apply lookup_removed_keep|done].
  - intros p pw' (Hout & pw & Hpw & ->)%lookup_removed_Some. simpl.
    apply NoDup_filter. by eapply Hnd.
  - simpl. by apply NoDup_filter.
  - intros x [Hout Hx]%removed_live. destruct (Hdep x Hx) as [n Hn].
    exists n. by apply depth_removed.
Qed.

Lemma keep_live (r : GUI_HANDLE_p) :
  live (mem s) r -> live (mem (removed l s)) (keep l r).
Proof.
  intros Hr x Hx. destruct r as [y|]; [|done]. simpl in Hx.
  destruct (decide (y ∈ l)); [done|]. simplify_eq.
  apply removed_live. split; [done|]. by apply Hr.
Qed.

Lemma wf_removed : wf s -> wf (removed l s).
Proof.
  intros [Hsh Hw Hf Hfp Ha Hap]. split; [by apply wf_tree_removed|..];
    simpl; by apply keep_live.
Qed.

End Removed.

Lemma filter_all {A : Type} (P : A -> Prop) `{forall x, Decision (P x)} (l : list A) :
  Forall P l -> filter P l = l.
Proof.
  induction 1 as [|x l Hx _ IH]; [done|]. by rewrite filter_cons_True, IH.
Qed.

Lemma with_Children_id (w : GUI_HANDLE) : with_Children (Children w) w = w.
Proof. by destruct w. Qed.

Lemma prune_id (l : list handle) (w : GUI_HANDLE) :
  (forall c, c ∈ Children w -> c ∉ l) -> prune l w = w.
Proof.
  intros H. unfold prune. rewrite filter_all; [apply with_Children_id|].
  by apply Forall_forall.
Qed.

Lemma prune_prune (l1 l2 : list handle) (w : GUI_HANDLE) :
  prune l2 (prune l1 w) = prune (l1 ++ l2) w.
Proof.
  unfold prune, with_Children. simpl. f_equal.
  rewrite list_filter_filter. apply list_filter_iff.
  intros c. rewrite not_elem_of_app. tauto.
Qed.

Lemma keep_nil (r : GUI_HANDLE_p) : keep [] r = r.
Proof.
  destruct r as [x|]; [|done]. simpl.
  destruct (decide (x ∈ [])) as [Hin|]; [|done]. by apply elem_of_nil in Hin.
Qed.

Lemma keep_keep (l1 l2 : list handle) (r : GUI_HANDLE_p) :
  keep l2 (keep l1 r) = keep (l1 ++ l2) r.
Proof.
  destruct r as [x|]; [|done]. simpl.
  destruct (decide (x ∈ l1)) as [H1|H1]; simpl.
  - rewrite decide_True; [done|]. apply elem_of_app. by left.
  - destruct (decide (x ∈ l2)) as [H2|H2].
    + rewrite decide_True; [done|]. apply elem_of_app. by right.
    + rewrite decide_False; [done|]. rewrite elem_of_app. tauto.
Qed.

Lemma forget_keep (h : handle) (r : GUI_HANDLE_p) : forget h r = keep [h] r.
Proof.
  destruct r as [x|]; [|done]. simpl.
  destruct (decide (x = h)) as [->|Hne].
  - rewrite decide_True; [done|]. apply list_elem_of_here.
  - rewrite decide_False; [done|]. by intros ->%list_elem_of_singleton.
Qed.

Lemma with_Root_id (g : GUI_t) : with_Root (Root g) g = g.
Proof. by destruct g. Qed.

Lemma removed_nil (s : state) : removed [] s = s.
Proof.
  destruct s as [g m q tr]. unfold removed. simpl. f_equal.
  - rewrite !keep_nil.
    rewrite filter_all by (apply Forall_forall; intros c _; apply not_elem_of_nil).
    by destruct g.
  - apply map_eq. intros x.
    pose proof (lookup_removed [] (mkState g m q tr) x) as Hl. unfold removed in Hl.
    simpl in Hl. rewrite Hl.
    destruct (decide (x ∈ [])) as [Hin|_]; [by apply elem_of_nil in Hin|].
    destruct (m !! x) as [w|]; [|done]. simpl. f_equal.
    apply prune_id. intros c _. apply not_elem_of_nil.
  - apply app_nil_r.
Qed.

Lemma free_line_removed (l : list handle) (s : state) (x : handle) :
  x ∉ l -> free_line (mem (removed l s)) x = free_line (mem s) x.
Proof.
  intros Hx. unfold free_line. rewrite lookup_removed, decide_False by done.
  by destruct (mem s !! x).
Qed.

Lemma omap_ext_elem {A B : Type} (f g : A -> option B) (l : list A) :
  (forall x, x ∈ l -> f x = g x) -> omap f l = omap g l.
Proof.
  induction l as [|x l IH]; intros H; [done|].
  assert (omap f l = omap g l) as IH' by (apply IH; intros y Hy; apply H; by right).
  simpl. rewrite (H x) by left. destruct (g x); [f_equal|]; exact IH'.
Qed.

(** Removing [l2] after [l1] is removing both. *)
Lemma removed_app (l1 l2 : list handle) (s : state) :
  (forall x, x ∈ l2 -> x ∉ l1) ->
  removed l2 (removed l1 s) = removed (l1 ++ l2) s.
Proof.
  intros Hdisj.
  assert (Hmem : mem (removed l2 (removed l1 s)) = mem (removed (l1 ++ l2) s)).
  { apply map_eq. intros x. rewrite !lookup_removed.
    destruct (decide (x ∈ l1)) as [H1|H1]; destruct (decide (x ∈ l2)) as [H2|H2].
    - rewrite decide_True; [done|]. apply elem_of_app; by left.
    - rewrite decide_True; [done|]. apply elem_of_app; by left.
    - rewrite decide_True; [done|]. apply elem_of_app; by right.
    - rewrite decide_False by (rewrite elem_of_app; tauto).
      destruct (mem s !! x) as [w|]; [|done]. simpl. f_equal. apply prune_prune. }
  assert (Htr : trace (removed l2 (removed l1 s)) = trace (removed (l1 ++ l2) s)).
  { simpl. rewrite omap_app, <- app_assoc. do 2 f_equal.
    apply omap_ext_elem. intros x Hx.
    apply (free_line_removed l1 s x). by apply Hdisj. }
  destruct (removed l2 (removed l1 s)) as [g2 m2 q2 t2] eqn:E2.
  destruct (removed (l1 ++ l2) s) as [g m q t] eqn:E.
  simpl in Hmem, Htr. subst m2 t2.
  assert (g2 = g /\ q2 = q) as [-> ->]; [|done].
  unfold removed in E2, E. injection E2 as <- _ <- _. injection E as <- _ <- _.
  split; [|done]. simpl. rewrite !keep_keep. unfold with_Root. simpl. f_equal.
  rewrite list_filter_filter. apply list_filter_iff.
  intros c. rewrite not_elem_of_app. tauto.
Qed.

(** ** Destruction *)

Lemma not_elem_of_singleton_ne (c h : handle) : c ∉ [h] <-> c <> h.
Proof. rewrite list_elem_of_singleton. tauto. Qed.

Lemma release_mem (m : gmap handle GUI_HANDLE) (roots : list handle) (h : handle)
    (w : GUI_HANDLE) :
  wf_tree m roots -> m !! h = Some w ->
  delete h (match Parent w with
            | Some p => alter (drop_child h) p m
            | None => m
            end) = prune [h] <$> filter (fun kv => kv.1 ∉ [h]) m.
Proof.
  intros Hwf Hh. apply map_eq. intros x.
  pose proof (lookup_removed [h] (mkState (GUI_Init (mkLCD 0 0)).(GUI) m [] []) x) as Hl.
  simpl in Hl. rewrite Hl. clear Hl.
  destruct (decide (x ∈ [h])) as [->%list_elem_of_singleton|Hne%not_elem_of_singleton_ne].
  { by rewrite lookup_delete_eq. }
  rewrite lookup_delete_ne by done.
  assert (Hdrop : forall v, drop_child h v = prune [h] v).
  { intros v. unfold drop_child, prune, remove_handle. f_equal.
    apply list_filter_iff. intros c. by rewrite not_elem_of_singleton_ne. }
  assert (Hother : forall v, m !! x = Some v -> Parent w <> Some x -> prune [h] v = v).
  { intros v Hv Hp. apply prune_id. intros c Hc ->%list_elem_of_singleton.
    destruct (wf_child _ _ Hwf x v h Hv Hc) as (cw & Hcw & Hcp). simplify_eq. }
  destruct (Parent w) as [p|] eqn:Hp.
  - destruct (decide (p = x)) as [->|Hpx].
    + rewrite lookup_alter_eq. destruct (m !! x); [|done]. simpl. by rewrite Hdrop.
    + rewrite lookup_alter_ne by done.
      destruct (m !! x) as [v|] eqn:Hx; [|done]. simpl. f_equal.
      symmetry. apply Hother; [done|]. congruence.
  - destruct (m !! x) as [v|] eqn:Hx; [|done]. simpl. f_equal.
    symmetry. by apply Hother.
Qed.

(** On a well-linked tree, the last steps of a destruction remove the one
    widget. *)
Lemma release_removed (h : handle) (w w1 : GUI_HANDLE) (s : state) :
  wf_tree (mem s) (Root (GUI s)) -> mem s !! h = Some w1 ->
  Parent w1 = Parent w -> Widget w1 = Widget w ->
  release h w s = removed [h] s.
Proof.
  intros Hwf Hh Hp Hk. destruct s as [g m q tr]. simpl in *.
  pose proof (release_mem m (Root g) h w1 Hwf Hh) as Hmem. rewrite Hp in Hmem.
  unfold release, __GUI_MEMWIDFREE, __GUI_DEBUG, emit, set_mem, set_GUI, unlink, removed.
  cbn [mem GUI input trace].
  assert (Hline : omap (free_line m) [h] = [DebugMemFree h (Name (Widget w))]).
  { simpl. unfold free_line. by rewrite Hh, Hk. }
  rewrite Hline, <- !forget_keep.
  assert (Hfilter : filter (fun c => c ∉ [h]) (Root g) = remove_handle h (Root g)).
  { apply list_filter_iff. intros c. by rewrite not_elem_of_singleton_ne. }
  rewrite Hfilter.
  destruct (Parent w) as [p|] eqn:Hpw; simpl; rewrite <- Hmem; f_equal.
  unfold remove_handle. rewrite filter_all; [by destruct g|].
  apply Forall_forall. intros c Hc ->.
  destruct (wf_root _ _ Hwf h Hc) as (cw & Hcw & Hcp). simplify_eq.
Qed.

(** The subtree of a widget with its children: the widget itself, or a
    widget in the subtree of a child. *)
Lemma in_subtree_children (m : gmap handle GUI_HANDLE) (roots : list handle)
    (h x : handle) (w : GUI_HANDLE) :
  wf_tree m roots -> m !! h = Some w ->
  in_subtree m h x <-> x = h \/ exists c, c ∈ Children w /\ in_subtree m c x.
Proof.
  intros Hwf Hh. split.
  - intros [[|n] Hn].
    + inversion Hn. by left.
    + right. apply chain_last in Hn as (c & cw & Hc & Hcp & Hcx).
      exists c. split; [|by exists n].
      destruct (wf_parent _ _ Hwf c cw h Hc Hcp) as (pw & Hpw & Hin). by simplify_eq.
  - intros [->|(c & Hc & n & Hn)].
    + exists 0%nat. constructor. eauto.
    + destruct (wf_child _ _ Hwf h w c Hh Hc) as (cw & Hcw & Hcp).
      exists (S n). eapply chain_extend; eauto.
Qed.

Lemma subtree_down_closed (m : gmap handle GUI_HANDLE) (l : list handle)
    (P : handle -> Prop) :
  (forall x, x ∈ l <-> exists c, P c /\ in_subtree m c x) -> down_closed m l.
Proof.
  intros Hl x w p Hx Hp (c & Hc & n & Hn)%Hl. apply Hl.
  exists c. split; [done|]. exists (S n). by eapply chain_up.
Qed.

Section Destroy.

Variable f : nat.

(** What the recursion may assume of the calls with the fuel [f]. *)
Hypothesis destroy_f : forall c s,
  wf_tree (mem s) (Root (GUI s)) -> is_Some (mem s !! c) ->
  (forall x n, chain (mem s) c x n -> (n < f)%nat) ->
  exists l, destroy f c s = Some (removed l s) /\ NoDup l /\
    forall x, x ∈ l <-> in_subtree (mem s) c x.

(** The loop over children of [h] removes their subtrees one after the
    other. *)
Lemma each_destroy (h : handle) (d : nat) (cs : list handle) (s : state) :
  wf_tree (mem s) (Root (GUI s)) -> depth (mem s) h d -> NoDup cs ->
  (forall c, c ∈ cs -> exists cw, mem s !! c = Some cw /\ Parent cw = Some h) ->
  (forall c x n, c ∈ cs -> chain (mem s) c x n -> (n < f)%nat) ->
  exists L, each (destroy f) cs s = Some (removed L s) /\ NoDup L /\
    forall x, x ∈ L <-> exists c, c ∈ cs /\ in_subtree (mem s) c x.
Proof.
  revert s. induction cs as [|c cs IH]; intros s Hwf Hd Hnd Hch Hfuel.
  - exists []. simpl. rewrite removed_nil. split; [done|]. split; [constructor|].
    intros x. split; [by intros ?%elem_of_nil|]. by intros (c & ?%elem_of_nil & _).
  - apply NoDup_cons in Hnd as [Hc Hnd].
    destruct (Hch c ltac:(left)) as (cw & Hcw & Hcp).
    destruct (destroy_f c s Hwf ltac:(eauto)) as (l1 & Hrun & Hnd1 & Hl1).
    { intros x n. apply Hfuel. left. }
    assert (Hclosed : down_closed (mem s) l1).
    { apply (subtree_down_closed _ _ (fun c' => c' = c)). intros x. rewrite Hl1.
      split; [eauto|]. by intros (? & -> & ?). }
    assert (Hout : forall c', c' ∈ cs -> c' ∉ l1).
    { intros c' Hc' Hin. apply Hl1 in Hin.
      destruct (Hch c' ltac:(by right)) as (cw' & Hcw' & Hcp').
      assert (c = c'); [|by subst].
      eapply (siblings_apart (mem s) h c c' c'); eauto.
      exists 0%nat. constructor. eauto. }
    destruct (IH (removed l1 s)) as (L & Hrest & HndL & HL); [| | done | | |].
    + by apply wf_tree_removed.
    + apply depth_removed; [done..|]. intros Hin%Hl1.
      by eapply (not_below_child (mem s) h c).
    + intros c' Hc'. destruct (Hch c' ltac:(by right)) as (cw' & Hcw' & Hcp').
      exists (prune l1 cw'). split; [|done]. apply lookup_removed_keep; [done|].
      by apply Hout.
    + intros c' x n Hc' Hn%chain_removed_inv. eapply Hfuel; [|done]. by right.
    + assert (Hdisj : forall x, x ∈ L -> x ∉ l1).
      { intros x (c' & _ & n & Hn)%HL. apply chain_live, removed_live in Hn. tauto. }
      exists (l1 ++ L). split.
      { simpl. rewrite Hrun, Hrest. by rewrite removed_app. }
      split.
      { apply NoDup_app. split; [done|]. split; [|done].
        intros x H1 H2. by apply (Hdisj x). }
      intros x. rewrite elem_of_app, Hl1, HL. split.
      * intros [Hx|(c' & Hc' & n & Hn)].
        -- exists c. split; [left|done].
        -- exists c'. split; [by right|]. exists n. by apply chain_removed_inv in Hn.
      * intros (c' & [->|Hc']%elem_of_cons & n & Hn).
        -- left. by exists n.
        -- destruct (decide (x ∈ l1)) as [Hin|Hnin].
           ++ left. by apply Hl1.
           ++ right. exists c'. split; [done|]. exists n. by apply chain_removed.
Qed.

End Destroy.

(** With fuel for the height of the subtree, a destruction removes the
    subtree of the widget, each widget of it once. *)
Lemma destroy_removed (f : nat) (h : handle) (s : state) :
  wf_tree (mem s) (Root (GUI s)) -> is_Some (mem s !! h) ->
  (forall x n, chain (mem s) h x n -> (n < f)%nat) ->
  exists l, destroy f h s = Some (removed l s) /\ NoDup l /\
    forall x, x ∈ l <-> in_subtree (mem s) h x.
Proof.
  revert h s. induction f as [|f IH]; intros h s Hwf [w Hh] Hfuel.
  { exfalso. assert (0 < 0)%nat; [|lia]. apply (Hfuel h). constructor. eauto. }
  simpl. rewrite Hh.
  destruct (wf_depth _ _ Hwf h ltac:(eauto)) as [d Hd].
  destruct (each_destroy f IH h d (Children w) s) as (L & Hrun & HndL & HL); try done.
  { by eapply wf_nodup. }
  { intros c Hc. by eapply wf_child. }
  { intros c x n Hc Hn. destruct (wf_child _ _ Hwf h w c Hh Hc) as (cw & Hcw & Hcp).
    assert (S n < S f)%nat; [|lia]. apply (Hfuel x). eapply chain_extend; eauto. }
  rewrite Hrun.
  assert (HhL : h ∉ L).
  { intros (c & Hc & Hsub)%HL.
    destruct (wf_child _ _ Hwf h w c Hh Hc) as (cw & Hcw & Hcp).
    by eapply (not_below_child (mem s) h c). }
  assert (Hclosed : down_closed (mem s) L).
  { by apply (subtree_down_closed _ _ (fun c => c ∈ Children w)). }
  rewrite (release_removed h w (prune L w)); try done.
  - rewrite removed_app by (by intros x ->%list_elem_of_singleton).
    exists (L ++ [h]). split; [done|]. split.
    + apply NoDup_app. split; [done|]. split; [|apply NoDup_singleton].
      by intros x Hx ->%list_elem_of_singleton.
    + intros x. rewrite elem_of_app, list_elem_of_singleton, HL.
      rewrite (in_subtree_children _ _ h x w Hwf Hh). tauto.
  - by apply wf_tree_removed.
  - by apply lookup_removed_keep.
Qed.

(** The fuel [destroyWidget] starts with is enough. *)
Lemma destroyWidget_removed (h : handle) (s : state) :
  wf_tree (mem s) (Root (GUI s)) -> is_Some (mem s !! h) ->
  exists l, destroyWidget h s = Some (removed l s) /\ NoDup l /\
    forall x, x ∈ l <-> in_subtree (mem s) h x.
Proof.
  intros Hwf Hh. apply destroy_removed; [done..|].
  intros x n Hn. destruct (wf_depth _ _ Hwf h Hh) as [d Hd].
  pose proof (chain_depth _ _ _ _ _ Hn Hd) as Hx.
  apply depth_lt_size in Hx. lia.
Qed.

Lemma destroyWidget_unknown (h : handle) (s : state) :
  mem s !! h = None -> destroyWidget h s = Some s.
Proof. intros Hh. unfold destroyWidget. simpl. by rewrite Hh. Qed.

(** ** Changes that keep the links *)

Lemma same_links_refl (m : gmap handle GUI_HANDLE) : same_links m m.
Proof. done. Qed.

Lemma same_links_trans (m1 m2 m3 : gmap handle GUI_HANDLE) :
  same_links m1 m2 -> same_links m2 m3 -> same_links m1 m3.
Proof. intros H1 H2 x. by rewrite H2, H1. Qed.

Lemma same_links_sym (m m' : gmap handle GUI_HANDLE) :
  same_links m m' -> same_links m' m.
Proof. intros H x. by rewrite H. Qed.

Lemma same_links_lookup (m m' : gmap handle GUI_HANDLE) (x : handle) (w' : GUI_HANDLE) :
  same_links m m' -> m' !! x = Some w' ->
  exists w, m !! x = Some w /\ Parent w = Parent w' /\ Children w = Children w'.
Proof.
  intros H Hx. specialize (H x). rewrite Hx in H.
  destruct (m !! x) as [w|]; [|done]. simpl in H. injection H as Hp Hc. eauto.
Qed.

Lemma same_links_live (m m' : gmap handle GUI_HANDLE) (x : handle) :
  same_links m m' -> is_Some (m !! x) -> is_Some (m' !! x).
Proof.
  intros H [w Hx]. specialize (H x). rewrite Hx in H.
  destruct (m' !! x); [eauto|done].
Qed.

Lemma same_links_alter (f : GUI_HANDLE -> GUI_HANDLE) (h : handle)
    (m : gmap handle GUI_HANDLE) :
  (forall w, Parent (f w) = Parent w /\ Children (f w) = Children w) ->
  same_links m (alter f h m).
Proof.
  intros Hf x. destruct (decide (h = x)) as [->|Hne].
  - rewrite lookup_alter_eq. destruct (m !! x) as [w|]; [|done]. simpl.
    by destruct (Hf w) as [-> ->].
  - by rewrite lookup_alter_ne.
Qed.

Lemma same_links_depth (m m' : gmap handle GUI_HANDLE) (x : handle) (n : nat) :
  same_links m m' -> depth m x n -> depth m' x n.
Proof.
  intros H. induction 1 as [x w Hx Hp|x w p n Hx Hp _ IH].
  - destruct (same_links_lookup m' m x w) as (w' & Hw' & Hp' & _);
      [by apply same_links_sym|done|].
    eapply depth_top; [done|congruence].
  - destruct (same_links_lookup m' m x w) as (w' & Hw' & Hp' & _);
      [by apply same_links_sym|done|].
    eapply depth_below; [done| |done]. congruence.
Qed.

Lemma wf_tree_links (m m' : gmap handle GUI_HANDLE) (roots : list handle) :
  same_links m m' -> wf_tree m roots -> wf_tree m' roots.
Proof.
  intros H [Hpar Htop Hch Hroot Hnd Hndr Hdep].
  pose proof (same_links_sym _ _ H) as H'. split.
  - intros x w' p Hx Hp.
    destruct (same_links_lookup _ _ _ _ H Hx) as (w & Hw & Hwp & _).
    destruct (Hpar x w p Hw ltac:(congruence)) as (pw & Hpw & Hin).
    destruct (same_links_lookup _ _ _ _ H' Hpw) as (pw' & Hpw' & _ & Hc).
    exists pw'. split; [done|]. by rewrite Hc.
  - intros x w' Hx Hp.
    destruct (same_links_lookup _ _ _ _ H Hx) as (w & Hw & Hwp & _).
    eapply Htop; [done|congruence].
  - intros p pw' c Hp Hc.
    destruct (same_links_lookup _ _ _ _ H Hp) as (pw & Hpw & _ & Hcs).
    destruct (Hch p pw c Hpw ltac:(by rewrite Hcs)) as (cw & Hcw & Hcp).
    destruct (same_links_lookup _ _ _ _ H' Hcw) as (cw' & Hcw' & Hcp' & _).
    exists cw'. split; [done|congruence].
  - intros c Hc. destruct (Hroot c Hc) as (cw & Hcw & Hcp).
    destruct (same_links_lookup _ _ _ _ H' Hcw) as (cw' & Hcw' & Hcp' & _).
    exists cw'. split; [done|congruence].
  - intros p pw' Hp.
    destruct (same_links_lookup _ _ _ _ H Hp) as (pw & Hpw & _ & Hcs).
    rewrite <- Hcs. by eapply Hnd.
  - done.
  - intros x Hx. destruct (Hdep x (same_links_live _ _ _ H' Hx)) as [n Hn].
    exists n. by eapply same_links_depth.
Qed.

Lemma live_links (m m' : gmap handle GUI_HANDLE) (r : GUI_HANDLE_p) :
  same_links m m' -> live m r -> live m' r.
Proof. intros H Hr x Hx. eapply same_links_live; [done|]. by apply Hr. Qed.

(** The invariant only looks at the links, the root list and the
    references. *)
Lemma wf_links (s s' : state) :
  same_links (mem s) (mem s') ->
  Root (GUI s') = Root (GUI s) ->
  WindowActive (GUI s') = WindowActive (GUI s) ->
  FocusedWidget (GUI s') = FocusedWidget (GUI s) ->
  FocusedWidgetPrev (GUI s') = FocusedWidgetPrev (GUI s) ->
  ActiveWidget (GUI s') = ActiveWidget (GUI s) ->
  ActiveWidgetPrev (GUI s') = ActiveWidgetPrev (GUI s) ->
  wf s -> wf s'.
Proof.
  intros H Hr H1 H2 H3 H4 H5 [Hsh Hw Hf Hfp Ha Hap]. split.
  - rewrite Hr. by eapply wf_tree_links.
  - rewrite H1. by eapply live_links.
  - rewrite H2. by eapply live_links.
  - rewrite H3. by eapply live_links.
  - rewrite H4. by eapply live_links.
  - rewrite H5. by eapply live_links.
Qed.

Lemma wf_init (lcd : GUI_LCD_t) : wf (GUI_Init lcd).
Proof.
  split; try (intros x; by simpl). split; simpl.
  - intros x w p Hx. by rewrite lookup_empty in Hx.
  - intros x w Hx. by rewrite lookup_empty in Hx.
  - intros p pw c Hx. by rewrite lookup_empty in Hx.
  - intros c Hc. by apply elem_of_nil in Hc.
  - intros p pw Hx. by rewrite lookup_empty in Hx.
  - constructor.
  - intros x [w Hx]. by rewrite lookup_empty in Hx.
Qed.

(** ** Creation keeps the invariant *)

Lemma depth_parents (m m' : gmap handle GUI_HANDLE) (x : handle) (n : nat) :
  (forall y w, m !! y = Some w -> exists w', m' !! y = Some w' /\ Parent w' = Parent w) ->
  depth m x n -> depth m' x n.
Proof.
  intros H. induction 1 as [x w Hx Hp|x w p n Hx Hp _ IH].
  - destruct (H x w Hx) as (w' & Hw' & Hp'). eapply depth_top; [done|congruence].
  - destruct (H x w Hx) as (w' & Hw' & Hp'). eapply depth_below; [done| |done]. congruence.
Qed.

Section CreateRoot.

Variable s : state.
Variable a : handle.
Variable w0 : GUI_HANDLE.
Hypothesis inv : wf s.
Hypothesis fresh : mem s !! a = None.
Hypothesis no_parent : Parent w0 = None.
Hypothesis no_children : Children w0 = [].

Lemma wf_create_root :
  wf (set_GUI (fun g => with_Root (Root g ++ [a]) g) (set_mem (insert a w0) s)).
Proof.
  destruct inv as [[Hpar Htop Hch Hroot Hnd Hndr Hdep] Hw Hf Hfp Ha Hap].
  assert (Hold : forall y w, mem s !! y = Some w -> <[a:=w0]> (mem s) !! y = Some w).
  { intros y w Hy. rewrite lookup_insert_ne; [done|]. intros <-. congruence. }
  assert (Hlive : forall r, live (mem s) r -> live (<[a:=w0]> (mem s)) r).
  { intros r Hr x Hx. destruct (Hr x Hx) as [w Hwx]. eauto. }
  split; simpl; try (by apply Hlive). split.
  - intros x w p Hx Hp. destruct (decide (a = x)) as [->|Hne].
    + rewrite lookup_insert_eq in Hx. simplify_eq; congruence.
    + rewrite lookup_insert_ne in Hx by done.
      destruct (Hpar x w p Hx Hp) as (pw & Hpw & Hin). eauto.
  - intros x w Hx Hp. apply elem_of_app. destruct (decide (a = x)) as [->|Hne].
    + right. apply list_elem_of_here.
    + rewrite lookup_insert_ne in Hx by done. left. by eapply Htop.
  - intros p pw c Hp Hc. destruct (decide (a = p)) as [->|Hne].
    + rewrite lookup_insert_eq in Hp. simplify_eq. rewrite no_children in Hc.
      by apply elem_of_nil in Hc.
    + rewrite lookup_insert_ne in Hp by done.
      destruct (Hch p pw c Hp Hc) as (cw & Hcw & Hcp). eauto.
  - intros c [Hc| ->%list_elem_of_singleton]%elem_of_app.
    + destruct (Hroot c Hc) as (cw & Hcw & Hcp). eauto.
    + exists w0. by rewrite lookup_insert_eq.
  - intros p pw Hp. destruct (decide (a = p)) as [->|Hne].
    + rewrite lookup_insert_eq in Hp. simplify_eq. rewrite no_children. constructor.
    + rewrite lookup_insert_ne in Hp by done. by eapply Hnd.
  - apply NoDup_app. split; [done|]. split; [|apply NoDup_singleton].
    intros x Hx ->%list_elem_of_singleton.
    destruct (Hroot a Hx) as (cw & Hcw & _). congruence.
  - intros x Hx. destruct (decide (a = x)) as [->|Hne].
    + exists 0%nat. eapply depth_top; [apply lookup_insert_eq|done].
    + rewrite lookup_insert_ne in Hx by done. destruct (Hdep x Hx) as [n Hn].
      exists n. eapply depth_parents; [|done]. intros y w Hy. eauto.
Qed.

End CreateRoot.

Section CreateChild.

Variable s : state.
Variable a p : handle.
Variable w0 pw : GUI_HANDLE.
Hypothesis inv : wf s.
Hypothesis fresh : mem s !! a = None.
Hypothesis parent_live : mem s !! p = Some pw.
Hypothesis parent_ref : Parent w0 = Some p.
Hypothesis no_children : Children w0 = [].

Let m' : gmap handle GUI_HANDLE := alter (add_child a) p (<[a:=w0]> (mem s)).

Lemma created_ne : a <> p.
Proof. intros ->. congruence. Qed.

Lemma lookup_created (x : handle) (v' : GUI_HANDLE) :
  m' !! x = Some v' <->
  (x = a /\ v' = w0) \/ (x = p /\ v' = add_child a pw) \/
  (x <> a /\ x <> p /\ mem s !! x = Some v').
Proof.
  pose proof created_ne as Hne. unfold m'.
  destruct (decide (x = p)) as [->|Hxp].
  - rewrite lookup_alter_eq, lookup_insert_ne, parent_live by done. simpl.
    split; [intros [= <-]; tauto|]. intros [[? _]|[[_ ->]|(_ & ? & _)]]; done.
  - rewrite lookup_alter_ne by done. destruct (decide (x = a)) as [->|Hxa].
    + rewrite lookup_insert_eq. split; [intros [= <-]; tauto|].
      intros [[_ ->]|[[? _]|(? & _)]]; done.
    + rewrite lookup_insert_ne by done. split; [tauto|].
      intros [[? _]|[[? _]|(_ & _ & ?)]]; done.
Qed.

(** The old widgets are still there, with their parent reference, and with
    their children and possibly the new widget. *)
Lemma created_old (x : handle) (v : GUI_HANDLE) :
  mem s !! x = Some v ->
  exists v', m' !! x = Some v' /\ Parent v' = Parent v /\
    forall c, c ∈ Children v -> c ∈ Children v'.
Proof.
  intros Hx. destruct (decide (x = p)) as [->|Hxp].
  - exists (add_child a pw). split; [apply lookup_created; tauto|].
    simplify_eq. split; [done|]. intros c Hc. simpl. apply elem_of_app. by left.
  - exists v. split; [|done]. apply lookup_created. right. right.
    split; [|done]. intros ->. congruence.
Qed.

Lemma wf_create_child : wf (set_mem (fun _ => m') s).
Proof.
  destruct inv as [[Hpar Htop Hch Hroot Hnd Hndr Hdep] Hw Hf Hfp Ha Hap].
  pose proof created_ne as Hne.
  assert (Hlive : forall r, live (mem s) r -> live m' r).
  { intros r Hr x Hx. destruct (Hr x Hx) as [w Hwx].
    destruct (created_old x w Hwx) as (v' & Hv' & _). eauto. }
  split; simpl; try (by apply Hlive). split.
  - intros x w q Hx Hq. apply lookup_created in Hx as [[-> ->]|[[-> ->]|(Hxa & Hxp & Hx)]].
    + simplify_eq. exists (add_child a pw). split; [apply lookup_created; tauto|].
      simpl. apply elem_of_app. right. apply list_elem_of_here.
    + simpl in Hq. destruct (Hpar p pw q parent_live Hq) as (qw & Hqw & Hin).
      destruct (created_old q qw Hqw) as (v' & Hv' & _ & Hsub). eauto.
    + destruct (Hpar x w q Hx Hq) as (qw & Hqw & Hin).
      destruct (created_old q qw Hqw) as (v' & Hv' & _ & Hsub). eauto.
  - intros x w Hx Hq. apply lookup_created in Hx as [[-> ->]|[[-> ->]|(Hxa & Hxp & Hx)]].
    + congruence.
    + by eapply Htop.
    + by eapply Htop.
  - intros q qw c Hq Hc. apply lookup_created in Hq as [[-> ->]|[[-> ->]|(Hxa & Hxp & Hq)]].
    + rewrite no_children in Hc. by apply elem_of_nil in Hc.
    + simpl in Hc. apply elem_of_app in Hc as [Hc| ->%list_elem_of_singleton].
      * destruct (Hch p pw c parent_live Hc) as (cw & Hcw & Hcp).
        destruct (created_old c cw Hcw) as (v' & Hv' & Hp' & _).
        exists v'. split; [done|congruence].
      * exists w0. split; [apply lookup_created; tauto|done].
    + destruct (Hch q qw c Hq Hc) as (cw & Hcw & Hcp).
      destruct (created_old c cw Hcw) as (v' & Hv' & Hp' & _).
      exists v'. split; [done|congruence].
  - intros c Hc. destruct (Hroot c Hc) as (cw & Hcw & Hcp).
    destruct (created_old c cw Hcw) as (v' & Hv' & Hp' & _).
    exists v'. split; [done|congruence].
  - intros q qw Hq. apply lookup_created in Hq as [[-> ->]|[[-> ->]|(Hxa & Hxp & Hq)]].
    + rewrite no_children. constructor.
    + simpl. apply NoDup_app. split; [by eapply Hnd|]. split; [|apply NoDup_singleton].
      intros x Hx ->%list_elem_of_singleton.
      destruct (Hch p pw a parent_live Hx) as (cw & Hcw & _). congruence.
    + by eapply Hnd.
  - done.
  - assert (Hold : forall x n, depth (mem s) x n -> depth m' x n).
    { intros x n. apply depth_parents. intros y w Hy.
      destruct (created_old y w Hy) as (v' & Hv' & Hp' & _). eauto. }
    intros x [v Hx]. apply lookup_created in Hx as [[-> ->]|[[-> ->]|(Hxa & Hxp & Hx)]].
    + destruct (Hdep p ltac:(eauto)) as [n Hn]. exists (S n).
      eapply depth_below; [apply lookup_created; tauto|done|by apply Hold].
    + destruct (Hdep p ltac:(eauto)) as [n Hn]. exists n. by apply Hold.
    + destruct (Hdep x ltac:(eauto)) as [n Hn]. exists n. by apply Hold.
Qed.

End CreateChild.

Lemma MEMALLOC_fresh (size : Z) (grant : GUI_HANDLE_p) (s : state) (a : handle) :
  __GUI_MEMALLOC size grant s = Some a -> mem s !! a = None.
Proof.
  unfold __GUI_MEMALLOC. destruct grant as [b|]; [|done].
  destruct (mem s !! b) eqn:Hb; [done|]. by intros [= <-].
Qed.

Lemma wf_emit (evs : list event) (s : state) : wf s -> wf (emit evs s).
Proof. by apply wf_links. Qed.

(** Whatever [createWidget] returns, the invariant holds afterwards, and a
    handle returned is live. *)
Lemma wf_createWidget (kind : GUI_WIDGET_t) (parent : GUI_HANDLE_p)
    (x y width height : Z) (grant : GUI_HANDLE_p) (s : state) :
  wf s ->
  exists r s', createWidget kind parent x y width height grant s = Returned r s' /\
    wf s' /\ live (mem s') r.
Proof.
  intros Hwf. unfold createWidget.
  assert (Hnull : forall s0, wf s0 -> live (mem s0) None) by (by intros s0 _ z).
  set (rest := fun s0 : state => match parent with None => _ | Some p => _ end).
  assert (Hrest : forall s0, wf s0 ->
    exists r s', rest s0 = Returned r s' /\ wf s' /\ live (mem s') r).
  { intros s0 H0. unfold rest. destruct parent as [p|].
    - destruct (mem s0 !! p) as [pw|] eqn:Hp; [|by eauto 6].
      destruct (IsContainer (Widget pw)); [|by eauto 6].
      destruct (__GUI_MEMALLOC (Size kind) grant s0) as [a|] eqn:Ha; [|by eauto 6].
      apply MEMALLOC_fresh in Ha. eexists _, _. split; [done|]. split.
      + by eapply (wf_create_child s0 a p _ pw).
      + intros z [= <-]. simpl. rewrite lookup_alter_ne by (intros ->; congruence).
        rewrite lookup_insert_eq. eauto.
    - destruct (__GUI_MEMALLOC (Size kind) grant s0) as [a|] eqn:Ha; [|by eauto 6].
      apply MEMALLOC_fresh in Ha. eexists _, _. split; [done|]. split.
      + by apply wf_create_root.
      + intros z [= <-]. simpl. rewrite lookup_insert_eq. eauto. }
  destruct (NeedsWindow kind); [|by apply Hrest].
  unfold __GUI_ASSERTACTIVEWIN. destruct (WindowActive (GUI s)); [by apply Hrest|].
  eexists _, _. split; [done|]. split; [by apply wf_emit|done].
Qed.

(** ** The other operations keep the invariant *)

Lemma wf_set_GUI (f : GUI_t -> GUI_t) (s : state) :
  wf s ->
  Root (f (GUI s)) = Root (GUI s) ->
  live (mem s) (WindowActive (f (GUI s))) ->
  live (mem s) (FocusedWidget (f (GUI s))) ->
  live (mem s) (FocusedWidgetPrev (f (GUI s))) ->
  live (mem s) (ActiveWidget (f (GUI s))) ->
  live (mem s) (ActiveWidgetPrev (f (GUI s))) ->
  wf (set_GUI f s).
Proof.
  intros [Hsh Hw Hf Hfp Ha Hap] Hr H1 H2 H3 H4 H5. split; simpl; try done.
  by rewrite Hr.
Qed.

Lemma live_None (m : gmap handle GUI_HANDLE) : live m None.
Proof. by intros x. Qed.

Lemma live_Some (m : gmap handle GUI_HANDLE) (h : handle) :
  is_Some (m !! h) -> live m (Some h).
Proof. by intros H x [= <-]. Qed.

Lemma wf_set_mem_alter (f : GUI_HANDLE -> GUI_HANDLE) (h : handle) (s : state) :
  (forall w, Parent (f w) = Parent w /\ Children (f w) = Children w) ->
  wf s -> wf (set_mem (alter f h) s).
Proof. intros Hf. apply wf_links; try done. by apply same_links_alter. Qed.

Lemma wf_setActiveWindow (h : handle) (s : state) : wf s -> wf (setActiveWindow h s).
Proof.
  intros Hwf. unfold setActiveWindow. destruct (mem s !! h) as [w|] eqn:Hh; [|done].
  destruct (IsContainer (Widget w)); [|done].
  apply wf_set_GUI; try done; try apply Hwf. apply live_Some. eauto.
Qed.

Lemma wf_destroyWidget (h : handle) (s : state) :
  wf s -> exists s', destroyWidget h s = Some s' /\ wf s'.
Proof.
  intros Hwf. destruct (mem s !! h) as [w|] eqn:Hh.
  - destruct (destroyWidget_removed h s) as (l & Hrun & _ & Hl); [apply Hwf|eauto|].
    exists (removed l s). split; [done|]. apply wf_removed; [|done].
    apply (subtree_down_closed _ _ (fun c => c = h)). intros x. rewrite Hl.
    split; [eauto|]. by intros (? & -> & ?).
  - exists s. split; [by apply destroyWidget_unknown|done].
Qed.

(** *** Hit test and router *)

Lemma first_some_Some {A B : Type} (f : A -> option B) (l : list A) (b : B) :
  first_some f l = Some b -> exists a, a ∈ l /\ f a = Some b.
Proof.
  induction l as [|a l IH]; [done|]. simpl. destruct (f a) as [b'|] eqn:Ha.
  - intros [= <-]. exists a. split; [left|done].
  - intros (a' & Hin & Hf)%IH. exists a'. split; [by right|done].
Qed.

Lemma find_widget_live (fuel : nat) (m : gmap handle GUI_HANDLE) (ox oy : Z)
    (clip : GUI_Display_t) (px py : Z) (h r : handle) :
  find_widget fuel m ox oy clip px py h = Some r -> is_Some (m !! r).
Proof.
  revert ox oy clip h. induction fuel as [|fuel IH]; intros ox oy clip h; [done|].
  simpl. destruct (m !! h) as [w|] eqn:Hh; [|done].
  destruct (Visible w && negb (Disabled w)); [|done].
  destruct (intersect clip (abs_rect ox oy w)) as [c|]; [|done].
  destruct (contains c px py); [|done].
  destruct (first_some _ _) as [r'|] eqn:Hfirst.
  - intros [= <-]. apply first_some_Some in Hfirst as (a & _ & Ha). by eapply IH.
  - intros [= <-]. eauto.
Qed.

Lemma findAt_live (s : state) (px py : Z) (r : handle) :
  findAt s px py = Some r -> is_Some (mem s !! r).
Proof.
  unfold findAt. intros (a & _ & Ha)%first_some_Some. by eapply find_widget_live.
Qed.

Lemma wf_focus_set (h : handle) (s : state) : wf s -> wf (focus_set h s).2.
Proof.
  intros Hwf. unfold focus_set. destruct (mem s !! h) as [w|] eqn:Hh; [|done].
  destruct (IsFocusable (Widget w)); [|done].
  destruct (FocusedWidget (GUI s)) as [o|] eqn:Ho.
  - destruct (decide (o = h)); [done|]. simpl.
    apply wf_set_GUI; try done; try apply wf_emit, wf_emit, Hwf.
    + apply live_Some. eauto.
    + apply live_Some. apply (wf_focused _ Hwf). done.
  - simpl. apply wf_set_GUI; try done; try apply wf_emit, Hwf.
    apply live_Some. eauto.
Qed.

Lemma focus_set_mem (h : handle) (s : state) : mem (focus_set h s).2 = mem s.
Proof.
  unfold focus_set. destruct (mem s !! h) as [w|]; [|done].
  destruct (IsFocusable (Widget w)); [|done].
  destruct (FocusedWidget (GUI s)) as [o|]; [|done].
  by destruct (decide (o = h)).
Qed.

Lemma wf_process_touch (t : __GUI_TouchData_t) (s : state) :
  wf s -> wf (process_touch t s).2.
Proof.
  intros Hwf. unfold process_touch.
  set (s0 := set_GUI _ s).
  assert (H0 : wf s0) by (apply wf_set_GUI; try done; apply Hwf).
  match goal with |- wf (let '(n, s1) := ?e in _).2 => assert (wf e.2) as He end.
  { destruct (Status t).
    - destruct (ActiveWidget (GUI s0)) as [a|] eqn:Ha.
      + destruct (same_position _ _); [done|]. by apply wf_emit.
      + destruct (findAt s0 (TX t) (TY t)) as [w|] eqn:Hfind; [|done].
        match goal with |- wf (let '(k, s2) := focus_set w ?s1 in _).2 =>
          pose proof (wf_focus_set w s1) as Hfoc; destruct (focus_set w s1) as [k s2] end.
        simpl in *. apply Hfoc. apply wf_emit.
        apply wf_set_GUI; try done; try apply H0.
        apply live_Some. by eapply findAt_live.
    - destruct (ActiveWidget (GUI s0)) as [a|] eqn:Ha; [|done]. simpl.
      apply wf_set_GUI; try done; try apply wf_emit, H0.
      apply live_Some. apply (wf_active _ H0). done. }
  destruct (_ : Z * state) as [n s1]. simpl in *.
  apply wf_set_GUI; try done; apply He.
Qed.

Lemma wf_process_samples (l : list __GUI_TouchData_t) (s : state) :
  wf s -> wf (process_samples l s).2.
Proof.
  revert s. induction l as [|t l IH]; intros s Hwf; [done|]. simpl.
  pose proof (wf_process_touch t s Hwf) as H1.
  destruct (process_touch t s) as [n s1]. simpl in H1.
  specialize (IH s1 H1). by destruct (process_samples l s1).
Qed.

Lemma wf_process_input (s : state) : wf s -> wf (process_input s).2.
Proof. intros Hwf. apply wf_process_samples. by apply (wf_links s). Qed.

(** *** Redraw pass *)

Lemma draws_refl (s : state) : draws 0 s s.
Proof. exists []. rewrite app_nil_r. repeat split; done. Qed.

Lemma draws_trans (n k : Z) (s s1 s2 : state) :
  draws n s s1 -> draws k s1 s2 -> draws (n + k) s s2.
Proof.
  intros (e1 & Ht1 & -> & Hd1 & Hl1 & Hg1 & Hi1) (e2 & Ht2 & -> & Hd2 & Hl2 & Hg2 & Hi2).
  exists (e1 ++ e2). rewrite Ht2, Ht1, <- app_assoc, length_app. repeat split.
  - lia.
  - by apply Forall_app.
  - by eapply same_links_trans.
  - congruence.
  - congruence.
Qed.

Lemma draws_draw (h : handle) (c : GUI_Display_t) (s : state) : draws 1 s (draw h c s).
Proof.
  exists [Draw h c]. repeat split; try done.
  - by repeat constructor.
  - simpl. by apply same_links_alter.
Qed.

Lemma count_each_draws {A : Type} (step : A -> state -> Z * state) (l : list A) (s : state) :
  (forall a s0, draws (step a s0).1 s0 (step a s0).2) ->
  draws (count_each step l s).1 s (count_each step l s).2.
Proof.
  intros Hstep. revert s. induction l as [|a l IH]; intros s; [apply draws_refl|].
  simpl. pose proof (Hstep a s) as H1. destruct (step a s) as [n s1].
  pose proof (IH s1) as H2. destruct (count_each step l s1) as [k s2].
  simpl in *. by eapply draws_trans.
Qed.

Lemma redraw_draws (fuel : nat) (inherited : bool) (ox oy : Z) (clip : GUI_Display_t)
    (h : handle) (s : state) :
  draws (redraw fuel inherited ox oy clip h s).1 s (redraw fuel inherited ox oy clip h s).2.
Proof.
  revert inherited ox oy clip h s.
  induction fuel as [|fuel IH]; intros inherited ox oy clip h s; [apply draws_refl|].
  simpl. destruct (mem s !! h) as [w|]; [|apply draws_refl].
  destruct (Visible w); [|apply draws_refl].
  destruct (intersect clip (abs_rect ox oy w)) as [c|]; [|apply draws_refl].
  set (d := inherited || Dirty w).
  assert (Hfirst : draws (if d then (1, draw h c s) else (0, s)).1 s
                         (if d then (1, draw h c s) else (0, s)).2).
  { destruct d; [apply draws_draw|apply draws_refl]. }
  destruct (if d then (1, draw h c s) else (0, s)) as [n s1].
  pose proof (count_each_draws (redraw fuel d (ox + X w) (oy + Y w) c) (Children w) s1
                (IH d (ox + X w) (oy + Y w) c)) as Hrest.
  destruct (count_each _ _ s1) as [k s2]. simpl in *. by eapply draws_trans.
Qed.

Lemma redraw_all_draws (s : state) : draws (redraw_all s).1 s (redraw_all s).2.
Proof. unfold redraw_all. apply count_each_draws. intros a s0. apply redraw_draws. Qed.

Lemma wf_draws (n : Z) (s s' : state) : draws n s s' -> wf s -> wf s'.
Proof.
  intros (evs & _ & _ & _ & Hl & Hg & _). apply wf_links; by rewrite ?Hg.
Qed.

(** *** Timers, clock and process loop *)

Lemma wf_advance (elapsed : Z) (s : state) : wf s -> wf (advance elapsed s).2.
Proof.
  intros Hwf. unfold advance. destruct (timers_advance _ _) as [l evs]. simpl.
  apply wf_emit. apply wf_set_GUI; try done; apply Hwf.
Qed.

Lemma wf_GUI_Process (s : state) : wf s -> wf (GUI_Process s).2.
Proof.
  intros Hwf. unfold GUI_Process.
  pose proof (wf_advance ((Time (GUI s) - LastTime (Timers (GUI s))) mod 2 ^ 32) s Hwf) as H1.
  destruct (advance _ s) as [n1 s1]. simpl in H1.
  set (s1' := set_GUI _ s1).
  assert (H1' : wf s1') by (apply wf_set_GUI; try done; apply H1).
  pose proof (wf_process_input s1' H1') as H2.
  destruct (process_input s1') as [n2 s2]. simpl in H2.
  pose proof (wf_draws _ _ _ (redraw_all_draws s2) H2) as H3.
  destruct (redraw_all s2) as [n3 s3]. done.
Qed.

Lemma wf_timer_create (period : Z) (oneshot : bool) (callback : Z) (grant : GUI_HANDLE_p)
    (s : state) :
  wf s -> wf (timer_create period oneshot callback grant s).2.
Proof.
  intros Hwf. unfold timer_create. destruct grant as [a|]; [|done].
  destruct (bool_decide _); [done|]. simpl.
  apply wf_set_GUI; try done; apply Hwf.
Qed.

Lemma wf_step (o : op) (s : state) : wf s -> wf (step o s).
Proof.
  intros Hwf. destruct o; simpl.
  - destruct (wf_createWidget kind parent x y width height grant s Hwf)
      as (r & s' & -> & Hs' & _). done.
  - destruct (wf_destroyWidget h s Hwf) as (s' & -> & Hs'). done.
  - by apply wf_setActiveWindow.
  - by apply wf_set_mem_alter.
  - by apply wf_set_mem_alter.
  - by apply wf_set_mem_alter.
  - by apply (wf_links s).
  - apply wf_set_GUI; try done; apply Hwf.
  - by apply wf_GUI_Process.
  - by apply wf_timer_create.
  - apply wf_set_GUI; try done; apply Hwf.
Qed.

Lemma wf_run (l : list op) (s : state) : wf s -> wf (run l s).
Proof.
  revert s. induction l as [|o l IH]; intros s Hwf; [done|].
  simpl. apply IH. by apply wf_step.
Qed.

(** Every state a program of the host reaches satisfies the invariant. *)
Lemma wf_reachable (s : state) : reachable s -> wf s.
Proof. intros (lcd & l & ->). apply wf_run, wf_init. Qed.

(** ** The tree and the references into it *)

Lemma depth_in_tree (s : state) (x : handle) (n : nat) :
  wf_tree (mem s) (Root (GUI s)) -> depth (mem s) x n -> in_tree s x.
Proof.
  intros Hwf. induction 1 as [x w Hx Hp|x w p n Hx Hp Hd IH].
  - apply in_tree_root; [by eapply wf_top|eauto].
  - destruct (wf_parent _ _ Hwf x w p Hx Hp) as (pw & Hpw & Hin).
    eapply in_tree_child; eauto.
Qed.

Lemma live_in_tree (s : state) (x : handle) :
  wf s -> is_Some (mem s !! x) -> in_tree s x.
Proof.
  intros Hwf Hx. destruct (wf_depth _ _ (wf_shape _ Hwf) x Hx) as [n Hn].
  eapply depth_in_tree; [apply Hwf|done].
Qed.

Lemma count_app (p : event -> bool) (e1 e2 : list event) :
  count p (e1 ++ e2) = count p e1 + count p e2.
Proof. unfold count. rewrite filter_app, length_app. lia. Qed.

Lemma count_cons (p : event -> bool) (e : event) (evs : list event) :
  count p (e :: evs) = (if p e then 1 else 0) + count p evs.
Proof.
  unfold count. destruct (p e) eqn:He.
  - rewrite filter_cons_True by done. simpl. lia.
  - rewrite filter_cons_False by congruence. lia.
Qed.

Lemma free_lines_cons (m : gmap handle GUI_HANDLE) (y : handle) (l : list handle) :
  omap (free_line m) (y :: l) =
    match m !! y with
    | Some w => DebugMemFree y (Name (Widget w)) :: omap (free_line m) l
    | None => omap (free_line m) l
    end.
Proof. unfold free_line at 1. simpl. unfold free_line at 1. by destruct (m !! y). Qed.

Lemma count_free_other (m : gmap handle GUI_HANDLE) (x : handle) (l : list handle) :
  x ∉ l -> count (is_free_of x) (omap (free_line m) l) = 0.
Proof.
  induction l as [|y l IH]; intros Hx; [done|].
  apply not_elem_of_cons in Hx as [Hne Hx]. rewrite free_lines_cons.
  destruct (m !! y) as [w|]; [|by apply IH].
  rewrite count_cons, IH by done. simpl. by rewrite bool_decide_eq_false_2.
Qed.

Lemma count_free_member (m : gmap handle GUI_HANDLE) (x : handle) (l : list handle) :
  NoDup l -> x ∈ l -> is_Some (m !! x) ->
  count (is_free_of x) (omap (free_line m) l) = 1.
Proof.
  intros Hnd Hx [w Hw]. induction Hnd as [|y l Hy Hnd IH]; [by apply elem_of_nil in Hx|].
  rewrite free_lines_cons. apply elem_of_cons in Hx as [->|Hx].
  - rewrite Hw, count_cons, count_free_other by done. simpl.
    by rewrite bool_decide_eq_true_2.
  - destruct (m !! y) as [v|]; [|by apply IH].
    rewrite count_cons, IH by done. simpl.
    rewrite bool_decide_eq_false_2; [done|]. by intros ->.
Qed.

(** C7: whatever the host does (creations and destructions among the
    calls), no widget is its own ancestor, the parent reference of a live
    widget points at a live widget, which lists it among its children, and
    a widget without parent is an entry of the root list. *)
Theorem tree_acyclic_parents_live (lcd : GUI_LCD_t) (l : list op) :
  let s := run l (GUI_Init lcd) in
  acyclic (mem s) /\
  (forall x w p, mem s !! x = Some w -> Parent w = Some p ->
     exists pw, mem s !! p = Some pw /\ x ∈ Children pw) /\
  (forall x w, mem s !! x = Some w -> Parent w = None -> x ∈ Root (GUI s)).
Proof.
  cbv zeta. pose proof (wf_run l _ (wf_init lcd)) as [Hsh _ _ _ _ _].
  split; [|split].
  - apply depth_acyclic. apply Hsh.
  - apply Hsh.
  - apply Hsh.
Qed.

Lemma keep_cleared (m : gmap handle GUI_HANDLE) (h : handle) (l : list handle)
    (r : GUI_HANDLE_p) :
  (forall x, x ∈ l <-> in_subtree m h x) -> cleared m h r (keep l r).
Proof.
  intros Hl. destruct r as [x|]; [|done]. simpl.
  destruct (decide (x ∈ l)) as [Hx|Hx]; rewrite Hl in Hx; split; done.
Qed.

Lemma run_snoc (l : list op) (o : op) (s : state) : run (l ++ [o]) s = step o (run l s).
Proof. unfold run. by rewrite foldl_app. Qed.

Lemma reachable_step (o : op) (s : state) : reachable s -> reachable (step o s).
Proof. intros (lcd & l & ->). exists lcd, (l ++ [o]). by rewrite run_snoc. Qed.

(** C6: in a reachable state the active and the focused reference are null
    or point at a live widget that is found from the root list; the
    destruction of a live widget [h] releases each widget of the subtree of
    [h] once and no other widget, removes the subtree from the memory and
    nothing else, and leaves the active and the focused reference null if
    they pointed into the subtree and as they were otherwise. *)
Theorem references_live_destroy_once (s : state) (h : handle) :
  reachable s -> is_Some (mem s !! h) ->
  (forall x, ActiveWidget (GUI s) = Some x \/ FocusedWidget (GUI s) = Some x ->
     is_Some (mem s !! x) /\ in_tree s x) /\
  exists s' evs,
    destroyWidget h s = Some s' /\ reachable s' /\
    trace s' = trace s ++ evs /\
    (forall x, in_subtree (mem s) h x ->
       count (is_free_of x) evs = 1 /\ mem s' !! x = None) /\
    (forall x, ~ in_subtree (mem s) h x ->
       count (is_free_of x) evs = 0 /\
       (is_Some (mem s !! x) -> is_Some (mem s' !! x))) /\
    cleared (mem s) h (ActiveWidget (GUI s)) (ActiveWidget (GUI s')) /\
    cleared (mem s) h (FocusedWidget (GUI s)) (FocusedWidget (GUI s')).
Proof.
  intros Hreach Hh. pose proof (wf_reachable s Hreach) as Hwf. split.
  - intros x [Hx|Hx].
    + pose proof (wf_active _ Hwf x Hx) as Hl. split; [done|by apply live_in_tree].
    + pose proof (wf_focused _ Hwf x Hx) as Hl. split; [done|by apply live_in_tree].
  - destruct (destroyWidget_removed h s (wf_shape _ Hwf) Hh) as (l & Hrun & Hnd & Hl).
    exists (removed l s), (omap (free_line (mem s)) l).
    split; [done|]. split.
    { pose proof (reachable_step (OpDestroy h) s Hreach) as Hr. simpl in Hr.
      by rewrite Hrun in Hr. }
    split; [done|]. split; [|split; [|split]].
    + intros x Hx. split.
      * apply count_free_member; [done|by apply Hl|].
        destruct Hx as [n Hn]. by eapply chain_live.
      * rewrite lookup_removed, decide_True; [done|]. by apply Hl.
    + intros x Hx. rewrite <- Hl in Hx. split; [by apply count_free_other|].
      intros Hlive. by apply removed_live.
    + by apply keep_cleared.
    + by apply keep_cleared.
Qed.

Lemma references_live_destroy_once_witness :
  let s := run demo_pressed (GUI_Init (mkLCD 320 240)) in
  let h := 1%positive in
  (forall x, ActiveWidget (GUI s) = Some x \/ FocusedWidget (GUI s) = Some x ->
     is_Some (mem s !! x) /\ in_tree s x) /\
  exists s' evs,
    destroyWidget h s = Some s' /\ reachable s' /\
    trace s' = trace s ++ evs /\
    (forall x, in_subtree (mem s) h x ->
       count (is_free_of x) evs = 1 /\ mem s' !! x = None) /\
    (forall x, ~ in_subtree (mem s) h x ->
       count (is_free_of x) evs = 0 /\
       (is_Some (mem s !! x) -> is_Some (mem s' !! x))) /\
    cleared (mem s) h (ActiveWidget (GUI s)) (ActiveWidget (GUI s')) /\
    cleared (mem s) h (FocusedWidget (GUI s)) (FocusedWidget (GUI s')).
Proof.
  cbv zeta.
  apply (references_live_destroy_once (run demo_pressed (GUI_Init (mkLCD 320 240))) 1%positive).
  - exists (mkLCD 320 240), demo_pressed. reflexivity.
  - vm_compute. eauto.
Defined.

(** ** The timer list along a run of the host *)

(** What is left of a timer that had time left and a positive period has
    time left. *)
Lemma timer_run_left (fuel : nat) (elapsed : Z) (t t' : GUI_TIMER_t) (evs : list event) :
  0 < Counter t -> 0 < Period t ->
  timer_run fuel elapsed t = (Some t', evs) -> 0 < Counter t' /\ 0 < Period t'.
Proof.
  revert elapsed t evs. induction fuel as [|fuel IH]; intros elapsed t evs Hc Hp; simpl.
  - by intros [= <- <-].
  - destruct (Z.ltb_spec elapsed (Counter t)) as [Hlt|Hge].
    + intros [= <- <-]. simpl. lia.
    + destruct (Periodic t); [|done].
      destruct (timer_run fuel _ _) as [r evs'] eqn:Hrun. intros [= -> <-].
      by apply IH in Hrun.
Qed.

Lemma timers_advance_left (elapsed : Z) (l : list GUI_TIMER_t) :
  Forall (fun u => 0 < Counter u /\ 0 < Period u) l ->
  Forall (fun u => 0 < Counter u /\ 0 < Period u) (timers_advance elapsed l).1.
Proof.
  induction 1 as [|u l [Hc Hp] _ IH]; [done|]. cbn [timers_advance].
  destruct (timer_advance elapsed u) as [r e1] eqn:Hu.
  destruct (timers_advance elapsed l) as [l2 e2]. cbn [fst] in *.
  destruct r as [u'|]; [|done]. constructor; [|done].
  by eapply timer_run_left.
Qed.

(** A timer without time left fires in an advance by 0. *)
Lemma timers_advance_spent (l : list GUI_TIMER_t) :
  (timers_advance 0 l).2 = [] -> Forall (fun u => 0 < Counter u) l.
Proof.
  induction l as [|u l IH]; [done|]. cbn [timers_advance].
  destruct (timer_advance 0 u) as [r e1] eqn:Hu.
  destruct (timers_advance 0 l) as [l2 e2]. cbn [snd] in *.
  intros [-> ->]%app_eq_nil. constructor; [|by apply IH].
  unfold timer_advance in Hu. simpl in Hu.
  destruct (Z.ltb_spec 0 (Counter u)) as [Hlt|Hge]; [done|].
  destruct (Periodic u); done.
Qed.

(** The calls of the host other than those of the timer core and the
    process entry point leave the timers alone. *)
Lemma createWidget_Timers (kind : GUI_WIDGET_t) (parent : GUI_HANDLE_p)
    (x y width height : Z) (grant : GUI_HANDLE_p) (s s' : state) (r : GUI_HANDLE_p) :
  createWidget kind parent x y width height grant s = Returned r s' ->
  Timers (GUI s') = Timers (GUI s).
Proof.
  unfold createWidget, __GUI_ASSERTACTIVEWIN.
  repeat case_match; intros; simplify_eq; done.
Qed.

Lemma destroyWidget_Timers (h : handle) (s s' : state) :
  wf s -> destroyWidget h s = Some s' -> Timers (GUI s') = Timers (GUI s).
Proof.
  intros Hwf. destruct (mem s !! h) as [w|] eqn:Hh.
  - destruct (destroyWidget_removed h s) as (l & -> & _); [apply Hwf|eauto|].
    by intros [= <-].
  - rewrite destroyWidget_unknown by done. by intros [= <-].
Qed.

Lemma focus_set_Timers (h : handle) (s : state) :
  Timers (GUI (focus_set h s).2) = Timers (GUI s).
Proof. unfold focus_set. by repeat case_match. Qed.

Lemma process_touch_Timers (t : __GUI_TouchData_t) (s : state) :
  Timers (GUI (process_touch t s).2) = Timers (GUI s).
Proof.
  unfold process_touch. repeat case_match; simplify_eq; simpl in *; try done.
  match goal with
  | H : focus_set ?h ?s1 = _ |- _ =>
    pose proof (focus_set_Timers h s1) as Hf; rewrite H in Hf; exact Hf
  end.
Qed.

Lemma process_samples_Timers (l : list __GUI_TouchData_t) (s : state) :
  Timers (GUI (process_samples l s).2) = Timers (GUI s).
Proof.
  revert s. induction l as [|t l IH]; intros s; [done|]. simpl.
  pose proof (process_touch_Timers t s) as Ht.
  destruct (process_touch t s) as [n s1]. pose proof (IH s1) as Hl.
  destruct (process_samples l s1) as [k s2]. simpl in *. congruence.
Qed.

(** The timer list after [GUI_Process] is the list advanced by the time
    elapsed. *)
Lemma GUI_Process_Timers (s : state) :
  List (Timers (GUI (GUI_Process s).2)) =
    (timers_advance (elapsed s) (List (Timers (GUI s)))).1.
Proof.
  unfold GUI_Process. fold (elapsed s). rewrite advance_unfold.
  set (s1' := set_GUI _ _).
  pose proof (process_samples_Timers (input s1') (set_input (fun _ => []) s1')) as Hin.
  unfold process_input. destruct (process_samples _ _) as [n2 s2].
  destruct (redraw_all_draws s2) as (evs & _ & _ & _ & _ & Hg & _).
  destruct (redraw_all s2) as [n3 s3]. simpl in *. rewrite Hg, Hin. done.
Qed.

(** In every state of a run the timers have identifiers of their own; when
    the timers are created with positive periods, each of them has time
    left. *)
Lemma timers_run (lcd : GUI_LCD_t) (ops : list op) :
  let l := List (Timers (GUI (run ops (GUI_Init lcd)))) in
  NoDup (Id <$> l) /\
  (Forall positive_period ops -> Forall (fun u => 0 < Counter u /\ 0 < Period u) l).
Proof.
  induction ops as [|o ops IH] using rev_ind; [split; [constructor|done]|].
  rewrite run_snoc. cbv zeta in *.
  pose proof (wf_run ops _ (wf_init lcd)) as Hwf.
  set (s := run ops (GUI_Init lcd)) in *. destruct IH as [Hnd Hall].
  assert (Hsame : forall s', Timers (GUI s') = Timers (GUI s) ->
    NoDup (Id <$> List (Timers (GUI s'))) /\
    (Forall positive_period (ops ++ [o]) ->
     Forall (fun u => 0 < Counter u /\ 0 < Period u) (List (Timers (GUI s'))))).
  { intros s' ->. split; [done|]. intros [H _]%Forall_app. auto. }
  destruct o; simpl step; try (apply Hsame; done).
  - apply Hsame.
    destruct (createWidget kind parent x y width height grant s) as [r s'|] eqn:Hc; [|done].
    by eapply createWidget_Timers.
  - apply Hsame.
    destruct (destroyWidget h s) as [s'|] eqn:Hd; [|done].
    by eapply destroyWidget_Timers.
  - apply Hsame. unfold setActiveWindow. by repeat case_match.
  - rewrite GUI_Process_Timers. split.
    + eapply sublist_NoDup; [exact Hnd|apply timers_advance_ids].
    + intros [H _]%Forall_app. by apply timers_advance_left, Hall.
  - unfold timer_create. destruct grant as [a|]; [|by apply Hsame].
    case_bool_decide as Ha; [by apply Hsame|]. simpl. split.
    + rewrite fmap_app. apply NoDup_app. split; [done|]. split.
      * intros x Hx [->|[]%elem_of_nil]%elem_of_cons. done.
      * apply NoDup_singleton.
    + intros [H Ho]%Forall_app. apply Forall_app. split; [auto|].
      rewrite Forall_singleton in Ho. simpl in Ho. apply Forall_singleton. simpl. lia.
  - simpl. split.
    + apply (NoDup_fmap_2_strong _); [|by apply NoDup_filter, (NoDup_fmap_1 Id)].
      clear -Hnd. intros x y Hx%list_elem_of_filter Hy%list_elem_of_filter Heq.
      destruct Hx as [_ Hx], Hy as [_ Hy].
      apply list_elem_of_lookup in Hx as [i Hi], Hy as [j Hj].
      assert (i = j) as ->; [|congruence].
      eapply NoDup_lookup; [exact Hnd| |]; rewrite list_lookup_fmap.
      * by rewrite Hi.
      * rewrite Hj. simpl. by rewrite Heq.
    + intros [H _]%Forall_app. specialize (Hall H). rewrite Forall_forall in Hall.
      apply Forall_forall. intros u [_ Hu]%list_elem_of_filter. auto.
Qed.




(** ** Hit test *)

Lemma contains_true (a : GUI_Display_t) (px py : Z) :
  contains a px py = true <-> X1 a <= px <= X2 a /\ Y1 a <= py <= Y2 a.
Proof. unfold contains. rewrite rect_match_true. simpl. lia. Qed.

Lemma contains_inside (a : GUI_Display_t) (px py : Z) :
  contains a px py = bool_decide (inside a px py).
Proof.
  apply eq_true_iff_eq. rewrite contains_true, bool_decide_eq_true. done.
Qed.

Lemma GUI_MAX_max (x y : Z) : __GUI_MAX x y = Z.max x y.
Proof. unfold __GUI_MAX. destruct (Z.gtb_spec x y); lia. Qed.

Lemma GUI_MIN_min (x y : Z) : __GUI_MIN x y = Z.min x y.
Proof. unfold __GUI_MIN. destruct (Z.ltb_spec x y); lia. Qed.

(** A point is in the overlap of two regions when it is in both. *)
Lemma clip_test (clip r : GUI_Display_t) (px py : Z) :
  match intersect clip r with
  | Some c => contains c px py
  | None => false
  end = contains clip px py && contains r px py.
Proof.
  apply eq_true_iff_eq. rewrite andb_true_iff, !contains_true.
  unfold intersect. destruct (rect_match clip r) eqn:Hm.
  - rewrite contains_true. simpl. rewrite !GUI_MAX_max, !GUI_MIN_min. lia.
  - split; [done|]. intros [Hc Hr]. apply not_true_iff_false in Hm. exfalso.
    apply Hm. apply rect_match_true. lia.
Qed.

(** One step of the search, in terms of [hit]. *)
Lemma find_widget_step (f : nat) (m : gmap handle GUI_HANDLE) (ox oy : Z)
    (clip : GUI_Display_t) (px py : Z) (h : handle) (w : GUI_HANDLE) :
  m !! h = Some w ->
  (contains clip px py && hit ox oy px py w = false ->
     find_widget (S f) m ox oy clip px py h = None) /\
  (contains clip px py && hit ox oy px py w = true ->
     exists c, contains c px py = true /\
       find_widget (S f) m ox oy clip px py h =
         Some (default h (first_some
           (find_widget f m (ox + X w) (oy + Y w) c px py) (reverse (Children w))))).
Proof.
  intros Hh. simpl. rewrite Hh. unfold hit. rewrite <- contains_inside.
  pose proof (clip_test clip (abs_rect ox oy w) px py) as Hclip.
  destruct (Visible w && negb (Disabled w)); simpl.
  - destruct (intersect clip (abs_rect ox oy w)) as [c|].
    + rewrite <- Hclip. split.
      * by intros ->.
      * intros Hc. exists c. rewrite Hc. split; [done|]. by destruct (first_some _ _).
    + rewrite <- Hclip. split; [done|]. done.
  - rewrite andb_false_r. split; [done|]. done.
Qed.

Lemma first_some_None {A B : Type} (f : A -> option B) (l : list A) :
  first_some f l = None <-> forall x, x ∈ l -> f x = None.
Proof.
  induction l as [|a l IH]; simpl.
  - split; [|done]. by intros _ x ?%elem_of_nil.
  - destruct (f a) as [b|] eqn:Ha.
    + split; [done|]. intros H. specialize (H a ltac:(left)). congruence.
    + rewrite IH. split.
      * intros H x [->|Hx]%elem_of_cons; eauto.
      * intros H x Hx. apply H. by right.
Qed.

Lemma first_some_split {A B : Type} (f : A -> option B) (l : list A) (b : B) :
  first_some f l = Some b ->
  exists l1 a l2, l = l1 ++ a :: l2 /\ f a = Some b /\ forall x, x ∈ l1 -> f x = None.
Proof.
  induction l as [|a l IH]; [done|]. simpl. destruct (f a) as [b'|] eqn:Ha.
  - intros [= <-]. exists [], a, l. split; [done|]. split; [done|].
    by intros x ?%elem_of_nil.
  - intros (l1 & a' & l2 & -> & Hf & Hnone)%IH.
    exists (a :: l1), a', l2. split; [done|]. split; [done|].
    intros x [->|Hx]%elem_of_cons; eauto.
Qed.

Lemma placed_fun (m : gmap handle GUI_HANDLE) (x : handle) (ox oy ox' oy' : Z) :
  placed m x ox oy -> placed m x ox' oy' -> ox = ox' /\ oy = oy'.
Proof.
  intros H. revert ox' oy'.
  induction H as [x w Hx Hp|x w p pw ox oy Hx Hp Hpw _ IH]; intros ox' oy' H'.
  - inversion H'; simplify_eq; done.
  - inversion H' as [|? ? ? ? ox0 oy0 ? ? ? Hpl]; simplify_eq.
    destruct (IH _ _ Hpl) as [-> ->]. done.
Qed.

(** What comes after [a] in a list without repetition. *)
Lemma later_split (k1 k2 : list handle) (a z : handle) :
  NoDup (k1 ++ a :: k2) -> later (k1 ++ a :: k2) a z -> z ∈ k2.
Proof.
  intros Hnd (i & j & Hi & Hj & Hlt).
  assert ((k1 ++ a :: k2) !! length k1 = Some a) as Ha.
  { by rewrite lookup_app_r, Nat.sub_diag by lia. }
  pose proof (NoDup_lookup _ _ _ _ Hnd Hi Ha) as ->.
  rewrite lookup_app_r in Hj by lia.
  destruct (j - length k1)%nat as [|j'] eqn:Hj'; [lia|]. simpl in Hj.
  by eapply list_elem_of_lookup_2.
Qed.

(** Above and below each other is the same widget. *)
Lemma in_subtree_antisym (m : gmap handle GUI_HANDLE) (roots : list handle) (a y : handle) :
  wf_tree m roots -> in_subtree m y a -> in_subtree m a y -> y = a.
Proof.
  intros Hwf [n Hn] [k Hk].
  destruct (wf_depth _ _ Hwf y (chain_top_live _ _ _ _ Hn)) as [d Hd].
  pose proof (chain_depth _ _ _ _ _ Hn Hd) as Hda.
  pose proof (chain_depth _ _ _ _ _ Hk Hda) as Hdy.
  pose proof (depth_fun _ _ _ _ Hd Hdy) as Heq.
  assert (n = 0)%nat as -> by lia. by inversion Hn.
Qed.

Section Walk.

Variable s : state.
Variables px py : Z.
Hypothesis tree : wf_tree (mem s) (Root (GUI s)).

Lemma shown_hit (x : handle) :
  shown s px py x ->
  exists w ox oy, mem s !! x = Some w /\ placed (mem s) x ox oy /\ hit ox oy px py w = true.
Proof.
  destruct 1 as [x w Hx Hp _ Hh|x w p ox oy Hx Hp _ Hpl Hh].
  - exists w, 0, 0. split; [done|]. split; [by eapply placed_top|done].
  - exists w, ox, oy. done.
Qed.

Lemma shown_on_display (x : handle) :
  shown s px py x -> inside (full_display (GUI s)) px py.
Proof. induction 1; done. Qed.

(** A widget that shows has an entry of the root list above it that
    shows. *)
Lemma shown_root (x : handle) :
  shown s px py x -> exists a, a ∈ Root (GUI s) /\ shown s px py a.
Proof.
  induction 1 as [x w Hx Hp Hd Hh|x w p ox oy Hx Hp _ IH Hpl Hh]; [|done].
  exists x. split; [by eapply wf_top|]. by eapply shown_top.
Qed.

(** The members of a list under search. *)
Lemma level_member (hs : list handle) (ox oy : Z) (x : handle) :
  level s px py hs ox oy -> x ∈ hs ->
  exists w, mem s !! x = Some w /\ placed (mem s) x ox oy /\ siblings s x = hs /\
    NoDup hs /\ (shown s px py x <-> hit ox oy px py w = true).
Proof.
  intros [(-> & -> & -> & Hd)|(h & hw & ox0 & oy0 & Hh & -> & Hsh & Hpl & -> & ->)] Hx.
  - destruct (wf_root _ _ tree x Hx) as (w & Hw & Hp). exists w.
    split; [done|]. split; [by eapply placed_top|]. split.
    { unfold siblings. by rewrite Hw, Hp. }
    split; [apply tree|]. split.
    + intros Hs. inversion Hs; simplify_eq. done.
    + intros Hhit. by eapply shown_top.
  - destruct (wf_child _ _ tree h hw x Hh Hx) as (w & Hw & Hp). exists w.
    split; [done|]. split; [by eapply placed_below|]. split.
    { unfold siblings. by rewrite Hw, Hp, Hh. }
    split; [by eapply wf_nodup|].
    assert (placed (mem s) x (ox0 + X hw) (oy0 + Y hw)) as Hplx by (by eapply placed_below).
    split.
    + intros Hs. inversion Hs as [|? ? ? ox' oy' ? ? ? Hpl' Hhit]; simplify_eq.
      by destruct (placed_fun _ _ _ _ _ _ Hplx Hpl') as [-> ->].
    + intros Hhit. by eapply shown_below.
Qed.

Lemma level_children (hs : list handle) (ox oy : Z) (x : handle) (w : GUI_HANDLE) :
  level s px py hs ox oy -> x ∈ hs -> mem s !! x = Some w ->
  hit ox oy px py w = true ->
  level s px py (Children w) (ox + X w) (oy + Y w).
Proof.
  intros Hl Hx Hw Hhit.
  destruct (level_member hs ox oy x Hl Hx) as (w' & Hw' & Hpl & _ & _ & Hs).
  simplify_eq. right. exists x, w, ox, oy. repeat split; try done. by apply Hs.
Qed.

(** The search through a list, topmost first, with fuel for the height of
    the subtrees: nothing found means that nothing of the list shows;
    otherwise the widget found is the topmost one at the point. *)
Lemma walk (f : nat) (hs : list handle) (ox oy : Z) (clip : GUI_Display_t) :
  level s px py hs ox oy -> contains clip px py = true ->
  (forall x y n, x ∈ hs -> chain (mem s) x y n -> (n < f)%nat) ->
  match first_some (find_widget f (mem s) ox oy clip px py) (reverse hs) with
  | None => forall x, x ∈ hs -> ~ shown s px py x
  | Some r => exists a, a ∈ hs /\ topmost s px py a r
  end.
Proof.
  revert hs ox oy clip. induction f as [|f IH]; intros hs ox oy clip Hl Hclip Hfuel.
  { destruct hs as [|x hs].
    - simpl. by intros x ?%elem_of_nil.
    - exfalso. assert (0 < 0)%nat; [|lia]. apply (Hfuel x x); [left|].
      destruct (level_member _ _ _ x Hl ltac:(left)) as (w & Hw & _).
      constructor. eauto. }
  assert (Hnone : forall x, x ∈ hs ->
            find_widget (S f) (mem s) ox oy clip px py x = None -> ~ shown s px py x).
  { intros x Hx Hf. destruct (level_member _ _ _ x Hl Hx) as (w & Hw & _ & _ & _ & Hs).
    rewrite Hs. destruct (hit ox oy px py w) eqn:Hhit; [|done].
    destruct (find_widget_step f (mem s) ox oy clip px py x w Hw) as [_ Hstep].
    destruct Hstep as (c & _ & Hc); [by rewrite Hclip|]. congruence. }
  destruct (first_some _ (reverse hs)) as [r|] eqn:Hfirst.
  2:{ intros x Hx. apply Hnone; [done|].
      rewrite first_some_None in Hfirst. apply Hfirst. by apply elem_of_reverse. }
  apply first_some_split in Hfirst as (l1 & a & l2 & Hrev & Ha & Hl1).
  assert (Hhs : hs = reverse l2 ++ a :: reverse l1).
  { rewrite <- (reverse_involutive hs), Hrev, reverse_app, reverse_cons, <- app_assoc.
    done. }
  assert (Hin : a ∈ hs).
  { rewrite Hhs. apply elem_of_app. right. left. }
  destruct (level_member _ _ _ a Hl Hin) as (w & Hw & Hpl & Hsib & Hnd & Hs).
  destruct (find_widget_step f (mem s) ox oy clip px py a w Hw) as [Hmiss Hstep].
  destruct (hit ox oy px py w) eqn:Hhit.
  2:{ rewrite Hmiss in Ha; [done|]. by rewrite andb_false_r. }
  destruct Hstep as (c & Hc & Hfound); [by rewrite Hclip|].
  rewrite Hfound in Ha. clear Hmiss Hfound.
  assert (Hshown : shown s px py a) by (by apply Hs).
  assert (Habove : forall z, later (siblings s a) a z -> ~ shown s px py z).
  { intros z Hz. rewrite Hsib, Hhs in Hz. apply later_split in Hz; [|by rewrite <- Hhs].
    rewrite elem_of_reverse in Hz. apply Hnone; [|by apply Hl1].
    rewrite Hhs. apply elem_of_app. right. right. by apply elem_of_reverse. }
  assert (Hself : in_subtree (mem s) a a) by (exists 0%nat; constructor; eauto).
  pose proof (IH (Children w) (ox + X w) (oy + Y w) c
                (level_children _ _ _ a w Hl Hin Hw Hhit) Hc) as Hrec.
  exists a. split; [done|].
  destruct (first_some _ (reverse (Children w))) as [r'|] eqn:Hsub; simpl in Ha;
    injection Ha as <-.
  - destruct Hrec as (a' & Ha' & Hsub' & Hshown' & Hdeep & Htop).
    { intros x y n Hx Hn.
      destruct (wf_child _ _ tree a w x Hw Hx) as (xw & Hxw & Hxp).
      assert (S n < S f)%nat; [|lia]. apply (Hfuel a y); [done|].
      eapply chain_extend; eauto. }
    destruct (wf_child _ _ tree a w a' Hw Ha') as (aw' & Haw' & Hap').
    destruct Hsub' as [n2 Hn2].
    split; [exists (S n2); eapply chain_extend; eauto|]. split; [done|].
    split; [done|].
    intros y z [n1 Hn1] Hay Hz. destruct (decide (y = a)) as [->|Hne].
    + by apply Habove.
    + apply (Htop y z); [by exists n1| |done].
      destruct (Nat.le_gt_cases n1 n2) as [Hle|Hgt].
      * exists (n2 - n1)%nat. by eapply chain_linear.
      * exfalso. apply Hne.
        pose proof (chain_linear _ _ _ _ _ _ Hn2 Hn1 ltac:(lia)) as Hup.
        destruct (n1 - n2)%nat as [|k] eqn:Hk; [lia|].
        inversion Hup as [|? ? ? ? Hx' Hp' Hup']; simplify_eq.
        eapply in_subtree_antisym; [done| |done]. by exists k.
  - split; [done|]. split; [done|]. split.
    { intros k (kw & Hkw & Hkp). apply Hrec.
      - intros x y n Hx Hn.
        destruct (wf_child _ _ tree a w x Hw Hx) as (xw & Hxw & Hxp).
        assert (S n < S f)%nat; [|lia]. apply (Hfuel a y); [done|].
        eapply chain_extend; eauto.
      - destruct (wf_parent _ _ tree k kw a Hkw Hkp) as (w' & Hw' & Hk).
        by simplify_eq. }
    intros y z Hya Hay Hz.
    assert (y = a) as -> by (by eapply in_subtree_antisym).
    by apply Habove.
Qed.

End Walk.

Lemma findAt_walk (s : state) (px py : Z) :
  wf_tree (mem s) (Root (GUI s)) ->
  match findAt s px py with
  | None => forall x, ~ shown s px py x
  | Some r => exists a, a ∈ Root (GUI s) /\ topmost s px py a r
  end.
Proof.
  intros Hwf. unfold findAt.
  destruct (contains (full_display (GUI s)) px py) eqn:Hd.
  - assert (Hin : inside (full_display (GUI s)) px py).
    { rewrite contains_inside in Hd. by apply bool_decide_eq_true in Hd. }
    pose proof (walk s px py Hwf (S (size (mem s))) (Root (GUI s)) 0 0
                  (full_display (GUI s))) as Hwalk.
    destruct (first_some _ _) as [r|].
    + apply Hwalk; [by left|done|].
      intros x y n Hx Hn. destruct (wf_root _ _ Hwf x Hx) as (w & Hw & Hp).
      pose proof (chain_depth _ _ _ _ _ Hn (depth_top _ _ _ Hw Hp)) as Hy.
      apply depth_lt_size in Hy. lia.
    + intros x Hx. destruct (shown_root s px py Hwf x Hx) as (a & Ha & Hsa).
      revert Hsa. apply Hwalk; [by left|done| |done].
      intros x' y n Hx' Hn. destruct (wf_root _ _ Hwf x' Hx') as (w & Hw & Hp).
      pose proof (chain_depth _ _ _ _ _ Hn (depth_top _ _ _ Hw Hp)) as Hy.
      apply depth_lt_size in Hy. lia.
  - assert (first_some (find_widget (S (size (mem s))) (mem s) 0 0
              (full_display (GUI s)) px py) (reverse (Root (GUI s))) = None) as ->.
    { apply first_some_None. intros x Hx. rewrite elem_of_reverse in Hx.
      destruct (wf_root _ _ Hwf x Hx) as (w & Hw & Hp).
      apply (find_widget_step _ _ _ _ _ _ _ _ _ Hw). by rewrite Hd. }
    intros x Hx%shown_on_display. rewrite contains_inside in Hd.
    by apply bool_decide_eq_false in Hd.
Qed.

(** ** The order of the lists is the order of creation *)

Lemma later_split_iff (l : list handle) (y z : handle) :
  later l y z <-> exists l1 l2 l3, l = l1 ++ y :: l2 ++ z :: l3.
Proof.
  split.
  - intros (i & j & Hi & Hj & Hlt).
    pose proof (take_drop_middle l i y Hi) as Hl.
    assert (drop (S i) l !! (j - S i)%nat = Some z) as Hz.
    { rewrite lookup_drop. by replace (S i + (j - S i))%nat with j by lia. }
    pose proof (take_drop_middle _ _ _ Hz) as Hd.
    exists (take i l), (take (j - S i) (drop (S i) l)), (drop (S (j - S i)) (drop (S i) l)).
    by rewrite Hd.
  - intros (l1 & l2 & l3 & ->).
    exists (length l1), (length l1 + S (length l2))%nat. split; [|split; [|lia]].
    + apply list_lookup_middle. done.
    + rewrite lookup_app_r by lia.
      replace (length l1 + S (length l2) - length l1)%nat with (S (length l2)) by lia.
      simpl. by apply list_lookup_middle.
Qed.

Lemma later_sublist (k l : list handle) (y z : handle) :
  k `sublist_of` l -> later k y z -> later l y z.
Proof.
  rewrite !later_split_iff. intros Hsub (k1 & k2 & k3 & ->).
  apply sublist_app_l in Hsub as (a & b & -> & _ & Hb).
  apply sublist_cons_l in Hb as (b1 & b2 & -> & Hb2).
  apply sublist_app_l in Hb2 as (c & d & -> & _ & Hd).
  apply sublist_cons_l in Hd as (d1 & d2 & -> & _).
  exists (a ++ b1), (c ++ d1), d2. by rewrite <- !app_assoc.
Qed.

Lemma later_filter (P : handle -> Prop) `{forall x, Decision (P x)} (l : list handle)
    (y z : handle) :
  later (filter P l) y z <-> P y /\ P z /\ later l y z.
Proof.
  split.
  - intros Hl. split; [|split].
    + destruct Hl as (i & _ & Hi & _). apply list_elem_of_lookup_2 in Hi.
      by apply list_elem_of_filter in Hi as [? _].
    + destruct Hl as (_ & j & _ & Hj & _). apply list_elem_of_lookup_2 in Hj.
      by apply list_elem_of_filter in Hj as [? _].
    + eapply later_sublist; [apply (sublist_filter P)|done].
  - intros (Hy & Hz & Hl). apply later_split_iff in Hl as (l1 & l2 & l3 & ->).
    apply later_split_iff.
    exists (filter P l1), (filter P l2), (filter P l3).
    rewrite filter_app, filter_cons_True by done.
    rewrite filter_app, filter_cons_True by done. done.
Qed.

Lemma filter_ext_elem {A : Type} (P Q : A -> Prop) `{forall x, Decision (P x)}
    `{forall x, Decision (Q x)} (l : list A) :
  (forall x, x ∈ l -> P x <-> Q x) -> filter P l = filter Q l.
Proof.
  induction l as [|x l IH]; intros Hl; [done|].
  assert (filter P l = filter Q l) as IH' by (apply IH; intros y Hy; apply Hl; by right).
  destruct (decide (P x)) as [Hp|Hp].
  - rewrite !filter_cons_True; [by f_equal|by apply (Hl x); [left|]|done].
  - rewrite !filter_cons_False; [done| |done]. intros Hq. apply Hp, (Hl x); [left|done].
Qed.

Lemma filter_none {A : Type} (P : A -> Prop) `{forall x, Decision (P x)} (l : list A) :
  (forall x, x ∈ l -> ~ P x) -> filter P l = [].
Proof.
  induction l as [|x l IH]; intros Hl; [done|].
  rewrite filter_cons_False by (apply Hl; left). apply IH. intros y Hy. apply Hl. by right.
Qed.

Lemma link_Some (m : gmap handle GUI_HANDLE) (x : handle) (r : GUI_HANDLE_p) :
  link m x = Some r <-> exists w, m !! x = Some w /\ Parent w = r.
Proof.
  unfold link. destruct (m !! x) as [w|]; simpl.
  - split; [intros ?; simplify_eq; eauto|]. intros (w' & ? & ?). by simplify_eq.
  - split; [done|]. by intros (w' & ? & _).
Qed.

Lemma same_links_link (m m' : gmap handle GUI_HANDLE) (x : handle) :
  same_links m m' -> link m' x = link m x.
Proof.
  intros H. specialize (H x). unfold link.
  destruct (m' !! x), (m !! x); simpl in *; congruence.
Qed.

Lemma in_order_init (lcd : GUI_LCD_t) : in_order [] (GUI_Init lcd).
Proof.
  split; simpl.
  - constructor.
  - intros a. rewrite lookup_empty. split; [by intros ?%elem_of_nil|by intros []].
  - done.
  - intros p pw. by rewrite lookup_empty.
Qed.

(** A call that keeps the links and the root list keeps the order. *)
Lemma in_order_links (log : list handle) (s s' : state) :
  same_links (mem s) (mem s') -> Root (GUI s') = Root (GUI s) ->
  in_order log s -> in_order log s'.
Proof.
  intros Hl Hr [Hnd Hlive Hroot Hch]. split.
  - done.
  - intros a. rewrite Hlive. split; apply same_links_live; [done|by apply same_links_sym].
  - rewrite Hr, Hroot. apply list_filter_iff. intros x.
    by rewrite (same_links_link _ _ x Hl).
  - intros p pw' Hp.
    destruct (same_links_lookup _ _ p pw' Hl Hp) as (pw & Hpw & _ & Hc).
    rewrite <- Hc, (Hch p pw Hpw). apply list_filter_iff. intros x.
    by rewrite (same_links_link _ _ x Hl).
Qed.

Section CreatedRoot.

Variable s : state.
Variable a : handle.
Variable w0 : GUI_HANDLE.
Variable log : list handle.
Hypothesis inv : wf s.
Hypothesis fresh : mem s !! a = None.
Hypothesis no_parent : Parent w0 = None.
Hypothesis no_children : Children w0 = [].
Hypothesis order : in_order log s.

Lemma in_order_create_root :
  in_order (log ++ [a])
    (set_GUI (fun g => with_Root (Root g ++ [a]) g) (set_mem (insert a w0) s)).
Proof.
  destruct order as [Hnd Hlive Hroot Hch].
  assert (Hout : a ∉ log).
  { rewrite Hlive, fresh. by intros []. }
  assert (Hlink : forall x, x ∈ log -> link (<[a:=w0]> (mem s)) x = link (mem s) x).
  { intros x Hx. unfold link. rewrite lookup_insert_ne; [done|]. by intros <-. }
  assert (Hnew : link (<[a:=w0]> (mem s)) a = Some None).
  { unfold link. by rewrite lookup_insert_eq, <- no_parent. }
  split; simpl.
  - apply NoDup_app. split; [done|]. split; [|apply NoDup_singleton].
    by intros x Hx ->%list_elem_of_singleton.
  - intros x. rewrite elem_of_app, list_elem_of_singleton, Hlive.
    destruct (decide (x = a)) as [->|Hne].
    + rewrite lookup_insert_eq. split; [eauto|tauto].
    + rewrite lookup_insert_ne by done. split; [by intros [?|?]|tauto].
  - rewrite filter_app, filter_cons_True, filter_nil by done. f_equal.
    rewrite Hroot. apply filter_ext_elem. intros x Hx. by rewrite Hlink.
  - intros p pw Hp. rewrite filter_app, filter_cons_False, filter_nil, app_nil_r
      by (rewrite Hnew; by intros [= ?]).
    destruct (decide (p = a)) as [->|Hne].
    + rewrite lookup_insert_eq in Hp. simplify_eq. rewrite no_children.
      symmetry. apply filter_none. intros x Hx. rewrite Hlink by done.
      intros (w & Hw & Hpar)%link_Some.
      destruct (wf_parent _ _ (wf_shape _ inv) x w a Hw Hpar) as (aw & Haw & _).
      congruence.
    + rewrite lookup_insert_ne in Hp by done. rewrite (Hch p pw Hp).
      apply filter_ext_elem. intros x Hx. by rewrite Hlink.
Qed.

End CreatedRoot.

Section CreatedChild.

Variable s : state.
Variable a p : handle.
Variable w0 pw : GUI_HANDLE.
Variable log : list handle.
Hypothesis inv : wf s.
Hypothesis fresh : mem s !! a = None.
Hypothesis parent_live : mem s !! p = Some pw.
Hypothesis parent_ref : Parent w0 = Some p.
Hypothesis no_children : Children w0 = [].
Hypothesis order : in_order log s.

Lemma in_order_create_child :
  in_order (log ++ [a])
    (set_mem (fun _ => alter (add_child a) p (<[a:=w0]> (mem s))) s).
Proof.
  destruct order as [Hnd Hlive Hroot Hch].
  pose proof (lookup_created s a p w0 pw fresh parent_live) as Hlook.
  pose proof (created_ne s a p w0 pw fresh parent_live) as Hne.
  set (m' := alter (add_child a) p (<[a:=w0]> (mem s))) in *.
  assert (Hout : a ∉ log).
  { rewrite Hlive, fresh. by intros []. }
  assert (Hlink : forall x, x ∈ log -> link m' x = link (mem s) x).
  { intros x Hx. assert (x <> a) as Hxa by (by intros ->).
    apply Hlive in Hx as [w Hw]. unfold link at 2. rewrite Hw. simpl.
    apply link_Some. destruct (decide (x = p)) as [->|Hxp].
    - exists (add_child a pw). split; [apply Hlook; tauto|]. by simplify_eq.
    - exists w. split; [apply Hlook; tauto|done]. }
  assert (Hnew : link m' a = Some (Some p)).
  { apply link_Some. exists w0. split; [apply Hlook; tauto|done]. }
  split; simpl.
  - apply NoDup_app. split; [done|]. split; [|apply NoDup_singleton].
    by intros x Hx ->%list_elem_of_singleton.
  - intros x. rewrite elem_of_app, list_elem_of_singleton, Hlive. split.
    + intros [[w Hw]| ->].
      * destruct (created_old s a p w0 pw fresh parent_live x w Hw) as (v' & Hv' & _).
        eauto.
      * exists w0. apply Hlook. tauto.
    + intros [v' [[-> _]|[[-> _]|(_ & _ & Hx)]]%Hlook]; eauto.
  - rewrite filter_app, filter_cons_False, filter_nil, app_nil_r
      by (rewrite Hnew; by intros [= ?]).
    rewrite Hroot. apply filter_ext_elem. intros x Hx. by rewrite Hlink.
  - intros q qw [[-> ->]|[[-> ->]|(Hqa & Hqp & Hq)]]%Hlook.
    + rewrite no_children. symmetry. apply filter_none.
      intros x [Hx| ->%list_elem_of_singleton]%elem_of_app.
      * rewrite Hlink by done. intros (w & Hw & Hpar)%link_Some.
        destruct (wf_parent _ _ (wf_shape _ inv) x w a Hw Hpar) as (aw & Haw & _).
        congruence.
      * rewrite Hnew. intros [= ->]. done.
    + simpl. rewrite filter_app, filter_cons_True, filter_nil by done. f_equal.
      rewrite (Hch p pw parent_live). apply filter_ext_elem.
      intros x Hx. by rewrite Hlink.
    + rewrite filter_app, filter_cons_False, filter_nil, app_nil_r
        by (rewrite Hnew; intros [= ?]; congruence).
      rewrite (Hch q qw Hq). apply filter_ext_elem. intros x Hx. by rewrite Hlink.
Qed.

End CreatedChild.

(** Whatever [createWidget] returns, the lists are in the order of
    creation afterwards, with the widget returned as the youngest. *)
Lemma createWidget_in_order (kind : GUI_WIDGET_t) (parent : GUI_HANDLE_p)
    (x y width height : Z) (grant : GUI_HANDLE_p) (s : state) (log : list handle) :
  wf s -> in_order log s ->
  exists r s', createWidget kind parent x y width height grant s = Returned r s' /\
    in_order (log ++ match r with Some a => [a] | None => [] end) s'.
Proof.
  intros Hwf Hord. unfold createWidget.
  set (rest := fun s0 : state => match parent with None => _ | Some p => _ end).
  assert (Hrest : exists r s', rest s = Returned r s' /\
    in_order (log ++ match r with Some a => [a] | None => [] end) s').
  { unfold rest. destruct parent as [p|].
    - destruct (mem s !! p) as [pw|] eqn:Hp; [|exists None, s; by rewrite app_nil_r].
      destruct (IsContainer (Widget pw)); [|exists None, s; by rewrite app_nil_r].
      destruct (__GUI_MEMALLOC (Size kind) grant s) as [a|] eqn:Ha;
        [|exists None, s; by rewrite app_nil_r].
      apply MEMALLOC_fresh in Ha. eexists _, _. split; [done|].
      by eapply (in_order_create_child s a p _ pw).
    - destruct (__GUI_MEMALLOC (Size kind) grant s) as [a|] eqn:Ha;
        [|exists None, s; by rewrite app_nil_r].
      apply MEMALLOC_fresh in Ha. eexists _, _. split; [done|].
      by apply in_order_create_root. }
  destruct (NeedsWindow kind); [|done].
  unfold __GUI_ASSERTACTIVEWIN. destruct (WindowActive (GUI s)); [done|].
  eexists None, _. split; [done|]. rewrite app_nil_r.
  apply (in_order_links log s); [apply same_links_refl|done|done].
Qed.

(** A destruction strikes the widgets removed from every list. *)
Lemma in_order_removed (l log : list handle) (s : state) :
  in_order log s -> in_order (filter (fun x => x ∉ l) log) (removed l s).
Proof.
  intros [Hnd Hlive Hroot Hch].
  assert (Hlink : forall x, x ∉ l -> link (mem (removed l s)) x = link (mem s) x).
  { intros x Hx. unfold link. rewrite lookup_removed, decide_False by done.
    by destruct (mem s !! x). }
  split.
  - by apply NoDup_filter.
  - intros x. rewrite list_elem_of_filter, removed_live, Hlive. done.
  - simpl. rewrite Hroot, !list_filter_filter. apply filter_ext_elem.
    intros x _. split; intros [H1 H2].
    + split; [by rewrite Hlink|done].
    + split; [done|]. by rewrite <- Hlink.
  - intros p pw' (Hp & pw & Hpw & ->)%lookup_removed_Some. simpl.
    rewrite (Hch p pw Hpw), !list_filter_filter. apply filter_ext_elem.
    intros x _. split; intros [H1 H2].
    + split; [by rewrite Hlink|done].
    + split; [done|]. by rewrite <- Hlink.
Qed.

(** The router and the process entry point keep the lists. *)
Lemma focus_set_tree (h : handle) (s : state) :
  mem (focus_set h s).2 = mem s /\ Root (GUI (focus_set h s).2) = Root (GUI s).
Proof. unfold focus_set. by repeat case_match. Qed.

Lemma process_touch_tree (t : __GUI_TouchData_t) (s : state) :
  mem (process_touch t s).2 = mem s /\ Root (GUI (process_touch t s).2) = Root (GUI s).
Proof.
  unfold process_touch. repeat case_match; simplify_eq; simpl in *; try done.
  match goal with
  | H : focus_set ?h ?s1 = _ |- _ =>
    pose proof (focus_set_tree h s1) as Hf; rewrite H in Hf; exact Hf
  end.
Qed.

Lemma process_samples_tree (l : list __GUI_TouchData_t) (s : state) :
  mem (process_samples l s).2 = mem s /\ Root (GUI (process_samples l s).2) = Root (GUI s).
Proof.
  revert s. induction l as [|t l IH]; intros s; [done|]. simpl.
  pose proof (process_touch_tree t s) as [Hm Hr].
  destruct (process_touch t s) as [n s1]. pose proof (IH s1) as [Hm' Hr'].
  destruct (process_samples l s1) as [k s2]. simpl in *. split; congruence.
Qed.

Lemma GUI_Process_tree (s : state) :
  same_links (mem s) (mem (GUI_Process s).2) /\
  Root (GUI (GUI_Process s).2) = Root (GUI s).
Proof.
  unfold GUI_Process. rewrite advance_unfold.
  set (s1' := set_GUI _ _).
  pose proof (process_samples_tree (input s1') (set_input (fun _ => []) s1')) as [Hm Hr].
  unfold process_input. destruct (process_samples _ _) as [n2 s2].
  destruct (redraw_all_draws s2) as (evs & _ & _ & _ & Hl & Hg & _).
  destruct (redraw_all s2) as [n3 s3]. simpl in *. rewrite Hg, Hr. split; [|done].
  intros x. rewrite (Hl x), Hm. done.
Qed.

(** One call of the host, and the widgets in the order of creation. *)
Lemma step_in_order (o : op) (s : state) (log : list handle) :
  wf s -> in_order log s ->
  in_order (filter (fun a => is_Some (mem (step o s) !! a)) (log ++ born o s)) (step o s).
Proof.
  intros Hwf Hord.
  assert (Hall : forall L s', in_order L s' ->
            in_order (filter (fun a => is_Some (mem s' !! a)) L) s').
  { intros L s' HL. rewrite filter_all; [done|].
    apply Forall_forall. intros a. apply HL. }
  assert (Hsame : born o s = [] -> same_links (mem s) (mem (step o s)) ->
            Root (GUI (step o s)) = Root (GUI s) ->
            in_order (filter (fun a => is_Some (mem (step o s) !! a)) (log ++ born o s))
              (step o s)).
  { intros -> Hl Hr. rewrite app_nil_r. apply Hall. by eapply in_order_links. }
  destruct o; try (apply Hsame; [done|apply same_links_refl|done]).
  - simpl.
    destruct (createWidget_in_order kind parent x y width height grant s log Hwf Hord)
      as (r & s' & -> & Hs').
    apply Hall. by destruct r.
  - simpl. destruct (mem s !! h) as [w|] eqn:Hh.
    + destruct (destroyWidget_removed h s) as (l & -> & _); [apply Hwf|eauto|].
      rewrite app_nil_r.
      replace (filter _ log) with (filter (fun x => x ∉ l) log);
        [by apply in_order_removed|].
      apply filter_ext_elem. intros x Hx. rewrite removed_live.
      apply Hord in Hx. tauto.
    + rewrite destroyWidget_unknown by done. rewrite app_nil_r. by apply Hall.
  - apply Hsame; [done| |]; simpl; unfold setActiveWindow; repeat case_match;
      done || apply same_links_refl.
  - apply Hsame; [done| |done]. simpl. by apply same_links_alter.
  - apply Hsame; [done| |done]. simpl. by apply same_links_alter.
  - apply Hsame; [done| |done]. simpl. by apply same_links_alter.
  - apply Hsame; [done|apply GUI_Process_tree..].
  - apply Hsame; [done| |]; simpl; unfold timer_create; repeat case_match;
      done || apply same_links_refl.
Qed.

Lemma foldl_step_log (lcd : GUI_LCD_t) (ops : list op) :
  (foldl step_log (GUI_Init lcd, []) ops).1 = run ops (GUI_Init lcd).
Proof.
  induction ops as [|o ops IH] using rev_ind; [done|].
  by rewrite foldl_app, run_snoc, <- IH.
Qed.

(** In every state of a run the lists of the tree are in the order of
    creation. *)
Lemma creation_order_run (lcd : GUI_LCD_t) (ops : list op) :
  in_order (creation_order lcd ops) (run ops (GUI_Init lcd)).
Proof.
  unfold creation_order. induction ops as [|o ops IH] using rev_ind.
  - apply in_order_init.
  - rewrite foldl_app, run_snoc. simpl. rewrite foldl_step_log.
    apply step_in_order; [apply wf_run, wf_init|done].
Qed.

(** The order of a list of siblings is the order of creation. *)
Lemma later_siblings (log : list handle) (s : state) (y z : handle) :
  wf_tree (mem s) (Root (GUI s)) -> in_order log s ->
  later (siblings s y) y z <-> added_after log (mem s) y z.
Proof.
  intros Hwf [Hnd Hlive Hroot Hch]. unfold added_after, siblings.
  destruct (mem s !! y) as [w|] eqn:Hy.
  2:{ split.
      - by intros (i & _ & Hi & _).
      - intros [_ (i & _ & Hi%list_elem_of_lookup_2 & _)].
        apply Hlive in Hi as [w Hw]. congruence. }
  assert (Hly : link (mem s) y = Some (Parent w)) by (apply link_Some; eauto).
  rewrite Hly. destruct (Parent w) as [p|] eqn:Hp.
  - destruct (wf_parent _ _ Hwf y w p Hy Hp) as (pw & Hpw & _).
    rewrite Hpw, (Hch p pw Hpw), later_filter. tauto.
  - rewrite Hroot, later_filter. tauto.
Qed.

(** ** The widget in front is unique *)

Section Front.

Variable s : state.
Variables px py : Z.
Hypothesis tree : wf_tree (mem s) (Root (GUI s)).

(** The widgets above a widget that shows show. *)
Lemma shown_up (y x : handle) :
  in_subtree (mem s) y x -> shown s px py x -> shown s px py y.
Proof.
  intros [n Hn]. induction Hn as [|x w p n Hx Hp _ IH]; [done|].
  intros Hs. apply IH. inversion Hs; simplify_eq. done.
Qed.

(** Every widget lies below an entry of the root list. *)
Lemma depth_root (x : handle) (n : nat) :
  depth (mem s) x n -> exists a, a ∈ Root (GUI s) /\ chain (mem s) a x n.
Proof.
  induction 1 as [x w Hx Hp|x w p n Hx Hp _ (a & Ha & Hc)].
  - exists x. split; [by eapply wf_top|]. constructor. eauto.
  - exists a. split; [done|]. by eapply chain_up.
Qed.

(** Of two widgets of one list that show, one has the other after it. *)
Lemma shown_beside (hs : list handle) (y y' : handle) :
  NoDup hs -> y ∈ hs -> y' ∈ hs -> siblings s y = hs -> siblings s y' = hs ->
  shown s px py y -> shown s px py y' ->
  (forall z, later (siblings s y) y z -> ~ shown s px py z) ->
  (forall z, later (siblings s y') y' z -> ~ shown s px py z) ->
  y = y'.
Proof.
  intros Hnd [i Hi]%list_elem_of_lookup [j Hj]%list_elem_of_lookup Hy Hy' Hs Hs' Hl Hl'.
  destruct (Nat.lt_trichotomy i j) as [Hlt|[->|Hgt]].
  - destruct (Hl y'); [|done]. rewrite Hy. by exists i, j.
  - congruence.
  - destruct (Hl' y); [|done]. rewrite Hy'. by exists j, i.
Qed.

(** What [front] says of a widget, with the order of the lists for the
    order of creation. *)
Let in_front (r : handle) : Prop :=
  shown s px py r /\
  (forall c, parent_of (mem s) c r -> ~ shown s px py c) /\
  (forall y z, in_subtree (mem s) y r -> later (siblings s y) y z -> ~ shown s px py z).

Lemma front_below (n n' : nat) (y r r' : handle) :
  chain (mem s) y r n -> chain (mem s) y r' n' ->
  in_front r -> in_front r' -> r = r'.
Proof.
  revert n' y. induction n as [|n IH]; intros n' y Hn Hn' Hr Hr'.
  - inversion Hn; subst. destruct n' as [|n']; [by inversion Hn'|].
    apply chain_last in Hn' as (c & cw & Hc & Hcp & Hcr).
    destruct Hr as (_ & Hdeep & _). destruct (Hdeep c); [by exists cw|].
    apply (shown_up c r'); [by exists n'|apply Hr'].
  - apply chain_last in Hn as (c & cw & Hc & Hcp & Hcr).
    destruct n' as [|n'].
    { inversion Hn'; subst.
      destruct Hr' as (_ & Hdeep & _). destruct (Hdeep c); [by exists cw|].
      apply (shown_up c r); [by exists n|apply Hr]. }
    apply chain_last in Hn' as (c' & cw' & Hc' & Hcp' & Hcr').
    destruct (wf_parent _ _ tree c cw y Hc Hcp) as (yw & Hyw & Hin).
    destruct (wf_parent _ _ tree c' cw' y Hc' Hcp') as (yw' & Hyw' & Hin').
    simplify_eq.
    assert (c = c') as <-; [|by eapply IH].
    apply (shown_beside (Children yw)).
    + by eapply wf_nodup.
    + done.
    + done.
    + unfold siblings. by rewrite Hc, Hcp, Hyw.
    + unfold siblings. by rewrite Hc', Hcp', Hyw.
    + apply (shown_up c r); [by exists n|apply Hr].
    + apply (shown_up c' r'); [by exists n'|apply Hr'].
    + intros z. apply Hr. by exists n.
    + intros z. apply Hr'. by exists n'.
Qed.

Lemma front_unique (r r' : handle) : in_front r -> in_front r' -> r = r'.
Proof.
  intros Hr Hr'.
  destruct (shown_hit s px py r (proj1 Hr)) as (w & _ & _ & Hw & _).
  destruct (shown_hit s px py r' (proj1 Hr')) as (w' & _ & _ & Hw' & _).
  destruct (wf_depth _ _ tree r ltac:(eauto)) as [n Hn].
  destruct (wf_depth _ _ tree r' ltac:(eauto)) as [n' Hn'].
  apply depth_root in Hn as (a & Ha & Hc), Hn' as (a' & Ha' & Hc').
  destruct (wf_root _ _ tree a Ha) as (aw & Haw & Hap).
  destruct (wf_root _ _ tree a' Ha') as (aw' & Haw' & Hap').
  assert (a = a') as <-; [|by eapply front_below].
  apply (shown_beside (Root (GUI s))).
  - apply tree.
  - done.
  - done.
  - unfold siblings. by rewrite Haw, Hap.
  - unfold siblings. by rewrite Haw', Hap'.
  - apply (shown_up a r); [by exists n|apply Hr].
  - apply (shown_up a' r'); [by exists n'|apply Hr'].
  - intros z. apply Hr. by exists n.
  - intros z. apply Hr'. by exists n'.
Qed.

(** What the hit test returns is in front. *)
Lemma findAt_in_front (r : handle) : findAt s px py = Some r -> in_front r.
Proof.
  intros Hr. pose proof (findAt_walk s px py tree) as Hwalk. rewrite Hr in Hwalk.
  destruct Hwalk as (a & Ha & [n2 Hn2] & Hshown & Hdeep & Htop).
  split; [done|]. split; [done|].
  intros y z [n1 Hn1] Hz. apply (Htop y z); [by exists n1| |done].
  destruct (Nat.le_gt_cases n1 n2) as [Hle|Hgt].
  - exists (n2 - n1)%nat. by eapply chain_linear.
  - pose proof (chain_linear _ _ _ _ _ _ Hn2 Hn1 ltac:(lia)) as Hup.
    destruct (n1 - n2)%nat as [|k] eqn:Hk; [lia|].
    inversion Hup as [|? ? ? ? Hx' Hp' Hup']; simplify_eq.
    destruct (wf_root _ _ tree a Ha) as (aw & Haw & Hap). congruence.
Qed.

Lemma findAt_front (r : handle) : findAt s px py = Some r <-> in_front r.
Proof.
  split; [apply findAt_in_front|]. intros Hr.
  pose proof (findAt_walk s px py tree) as Hwalk.
  destruct (findAt s px py) as [r'|] eqn:Hf.
  - f_equal. apply front_unique; [|done]. by apply findAt_in_front.
  - destruct (Hwalk r). apply Hr.
Qed.

End Front.



(** ** Touch router *)

Lemma findAt_set_GUI (f : GUI_t -> GUI_t) (s : state) (px py : Z) :
  Root (f (GUI s)) = Root (GUI s) -> LCD (f (GUI s)) = LCD (GUI s) ->
  findAt (set_GUI f s) px py = findAt s px py.
Proof. intros Hr Hl. unfold findAt, full_display. simpl. by rewrite Hr, Hl. Qed.

Lemma focus_set_trace (h : handle) (s : state) :
  exists foc, trace (focus_set h s).2 = trace s ++ foc /\
    Forall (fun e => is_focus_change e = true) foc /\
    (focus_set h s).1 = Z.of_nat (length foc) /\
    ActiveWidget (GUI (focus_set h s).2) = ActiveWidget (GUI s) /\
    ActiveWidgetPrev (GUI (focus_set h s).2) = ActiveWidgetPrev (GUI s).
Proof.
  unfold focus_set.
  assert (Hnil : exists foc, trace s = trace s ++ foc /\
            Forall (fun e => is_focus_change e = true) foc /\ 0 = Z.of_nat (length foc) /\
            ActiveWidget (GUI s) = ActiveWidget (GUI s) /\
            ActiveWidgetPrev (GUI s) = ActiveWidgetPrev (GUI s)).
  { exists []. by rewrite app_nil_r. }
  destruct (mem s !! h) as [w|]; [|done].
  destruct (IsFocusable (Widget w)); [|done].
  destruct (FocusedWidget (GUI s)) as [o|].
  - destruct (decide (o = h)); [done|].
    exists [ToWidget o EvBlur; ToWidget h EvFocus]. simpl.
    rewrite <- app_assoc. repeat split; try done. by repeat constructor.
  - exists [ToWidget h EvFocus]. simpl. repeat split; try done. by repeat constructor.
Qed.

(** A press while Idle on a point where the hit test finds [a]. *)
Lemma touch_press (t : __GUI_TouchData_t) (s : state) (a : handle) :
  ActiveWidget (GUI s) = None -> Status t = true ->
  findAt s (TX t) (TY t) = Some a ->
  exists foc,
    trace (process_touch t s).2 = trace s ++ ToWidget a EvPress :: foc /\
    Forall (fun e => is_focus_change e = true) foc /\
    (process_touch t s).1 = 1 + Z.of_nat (length foc) /\
    ActiveWidget (GUI (process_touch t s).2) = Some a /\
    TouchOld (GUI (process_touch t s).2) = t.
Proof.
  intros Hidle Hpress Hfind. unfold process_touch. rewrite Hpress. simpl.
  rewrite Hidle, findAt_set_GUI, Hfind by done.
  match goal with |- context [focus_set a ?s1] =>
    destruct (focus_set_trace a s1) as (foc & Htr & Hfoc & Hn & Hact & _);
    destruct (focus_set a s1) as [k s2] end.
  simpl in *. exists foc. rewrite Htr, <- app_assoc. repeat split; try done.
  by rewrite Hn.
Qed.

(** A pressed sample while [a] is active. *)
Lemma touch_move (t : __GUI_TouchData_t) (s : state) (a : handle) :
  ActiveWidget (GUI s) = Some a -> Status t = true ->
  trace (process_touch t s).2 = trace s ++ moves a (TouchOld (GUI s)) [t] /\
  (process_touch t s).1 = Z.of_nat (length (moves a (TouchOld (GUI s)) [t])) /\
  ActiveWidget (GUI (process_touch t s).2) = Some a /\
  TouchOld (GUI (process_touch t s).2) = t.
Proof.
  intros Hact Hpress. unfold process_touch. rewrite Hpress. simpl. rewrite Hact.
  destruct (same_position t (TouchOld (GUI s))); simpl; by rewrite ?app_nil_r.
Qed.

(** A release while [a] is active. *)
Lemma touch_release (t : __GUI_TouchData_t) (s : state) (a : handle) :
  ActiveWidget (GUI s) = Some a -> Status t = false ->
  trace (process_touch t s).2 = trace s ++ [ToWidget a EvRelease] /\
  (process_touch t s).1 = 1 /\
  ActiveWidget (GUI (process_touch t s).2) = None /\
  router (process_touch t s).2 = Idle.
Proof.
  intros Hact Hrel. unfold process_touch, router. rewrite Hrel. simpl. by rewrite Hact.
Qed.

Lemma touch_moves (ms : list __GUI_TouchData_t) (s : state) (a : handle) :
  ActiveWidget (GUI s) = Some a -> Forall (fun t => Status t = true) ms ->
  trace (process_samples ms s).2 = trace s ++ moves a (TouchOld (GUI s)) ms /\
  (process_samples ms s).1 = Z.of_nat (length (moves a (TouchOld (GUI s)) ms)) /\
  ActiveWidget (GUI (process_samples ms s).2) = Some a.
Proof.
  intros Hact Hms. revert s Hact. induction Hms as [|t ms Ht _ IH]; intros s Hact.
  - simpl. by rewrite app_nil_r.
  - destruct (touch_move t s a Hact Ht) as (Htr & Hn & Hact1 & Hold).
    cbn [process_samples]. destruct (process_touch t s) as [n s1]. simpl in Htr, Hn, Hact1, Hold.
    destruct (IH s1 Hact1) as (Htr' & Hn' & Hact2).
    destruct (process_samples ms s1) as [k s2]. simpl in Htr', Hn', Hact2.
    cbn [fst snd]. rewrite Htr', Htr, Hn, Hn', !Hold.
    cbn [moves]. rewrite app_nil_r, <- app_assoc, length_app.
    split; [done|]. split; [lia|done].
Qed.

(** C5 (as stated, refuted): in the scenario the press at (15, 15) lies in
    the rectangle of the visible window 1 as well as in that of the button
    2, and the button, not the window, becomes the active widget; a second
    pressed sample at the same position delivers nothing. *)
Lemma press_on_window_activates_button :
  let s := run demo_idle (GUI_Init (mkLCD 320 240)) in
  let t := mkTouch 15 15 true in
  let s1 := (process_touch t s).2 in
  router s = Idle /\
  (exists w, mem s !! 1%positive = Some w /\ Visible w = true /\
     placed (mem s) 1%positive 0 0 /\ contains (abs_rect 0 0 w) 15 15 = true) /\
  ActiveWidget (GUI s1) = Some 2%positive /\
  trace (process_touch t s1).2 = trace s1 /\
  ~ press_activates_widget_under_point /\
  ~ pressed_sample_moves.
Proof.
  cbv zeta.
  set (s := run demo_idle (GUI_Init (mkLCD 320 240))).
  set (t := mkTouch 15 15 true).
  assert (Hw : mem s !! 1%positive =
            Some (mkHandle demo_window 0 0 320 240 true true false None [2%positive]))
    by (by vm_compute).
  assert (Hpl : placed (mem s) 1%positive 0 0) by (by eapply placed_top).
  assert (Hact : ActiveWidget (GUI (process_touch t s).2) = Some 2%positive)
    by (by vm_compute).
  assert (Hsame : trace (process_touch t (process_touch t s).2).2 =
                  trace (process_touch t s).2) by (by vm_compute).
  split; [by vm_compute|]. split; [by eauto 6|]. split; [done|]. split; [done|]. split.
  - intros Hclaim.
    specialize (Hclaim s t 1%positive _ 0 0 eq_refl eq_refl Hw eq_refl Hpl eq_refl).
    rewrite Hact in Hclaim. discriminate Hclaim.
  - intros Hclaim. specialize (Hclaim (process_touch t s).2 t 2%positive Hact eq_refl).
    rewrite Hsame in Hclaim. apply (f_equal length) in Hclaim.
    rewrite length_app in Hclaim. simpl in Hclaim. lia.
Qed.

(** C5 (amended): a press while the router is Idle, at a point where the
    hit test finds [W], makes [W] the active widget and delivers a press
    event to it (followed by the focus events, if any); while the pointer
    stays pressed [W] remains active and receives one move event for each
    sample that is not at the position of the sample before it, wherever
    the position is; the release delivers a release event to [W], clears
    the active reference and leaves the router Idle, wherever it
    happens. *)
Theorem touch_gesture (s : state) (W : handle) (t1 : __GUI_TouchData_t)
    (ms : list __GUI_TouchData_t) (t3 : __GUI_TouchData_t) :
  router s = Idle -> Status t1 = true ->
  findAt s (TX t1) (TY t1) = Some W ->
  Forall (fun t => Status t = true) ms -> Status t3 = false ->
  let s1 := (process_touch t1 s).2 in
  let s2 := (process_samples ms s1).2 in
  let s3 := (process_touch t3 s2).2 in
  (ActiveWidget (GUI s1) = Some W /\ router s1 = Pressed /\
   exists foc, trace s1 = trace s ++ ToWidget W EvPress :: foc /\
     Forall (fun e => is_focus_change e = true) foc) /\
  (ActiveWidget (GUI s2) = Some W /\ trace s2 = trace s1 ++ moves W t1 ms) /\
  (trace s3 = trace s2 ++ [ToWidget W EvRelease] /\
   ActiveWidget (GUI s3) = None /\ router s3 = Idle).
Proof.
  intros Hidle Hp1 Hfind Hms Hr3. cbv zeta.
  assert (Hnone : ActiveWidget (GUI s) = None).
  { unfold router in Hidle. by destruct (ActiveWidget (GUI s)). }
  destruct (touch_press t1 s W Hnone Hp1 Hfind) as (foc & Htr1 & Hfoc & _ & Hact1 & Hold1).
  destruct (touch_moves ms _ W Hact1 Hms) as (Htr2 & _ & Hact2).
  destruct (touch_release t3 _ W Hact2 Hr3) as (Htr3 & _ & Hact3 & Hidle3).
  split; [|split].
  - split; [done|]. split; [by unfold router; rewrite Hact1|]. eauto.
  - split; [done|]. by rewrite Htr2, Hold1.
  - done.
Qed.

Lemma touch_gesture_witness :
  let s := run demo_idle (GUI_Init (mkLCD 320 240)) in
  let W := 2%positive in
  let t1 := mkTouch 15 15 true in
  let ms := [mkTouch 200 200 true] in
  let t3 := mkTouch 200 200 false in
  let s1 := (process_touch t1 s).2 in
  let s2 := (process_samples ms s1).2 in
  let s3 := (process_touch t3 s2).2 in
  (ActiveWidget (GUI s1) = Some W /\ router s1 = Pressed /\
   exists foc, trace s1 = trace s ++ ToWidget W EvPress :: foc /\
     Forall (fun e => is_focus_change e = true) foc) /\
  (ActiveWidget (GUI s2) = Some W /\ trace s2 = trace s1 ++ moves W t1 ms) /\
  (trace s3 = trace s2 ++ [ToWidget W EvRelease] /\
   ActiveWidget (GUI s3) = None /\ router s3 = Idle).
Proof.
  cbv zeta.
  apply (touch_gesture (run demo_idle (GUI_Init (mkLCD 320 240))) 2%positive
           (mkTouch 15 15 true) [mkTouch 200 200 true] (mkTouch 200 200 false)).
  - reflexivity.
  - reflexivity.
  - vm_compute. reflexivity.
  - repeat constructor.
  - reflexivity.
Defined.

(** The scenario of the specification, event by event. *)
Example touch_demo :
  let s := run demo_idle (GUI_Init (mkLCD 320 240)) in
  let s1 := (process_touch (mkTouch 15 15 true) s).2 in
  let s2 := (process_touch (mkTouch 200 200 true) s1).2 in
  let s3 := (process_touch (mkTouch 200 200 false) s2).2 in
  ActiveWidget (GUI s1) = Some 2%positive /\
  ActiveWidget (GUI s2) = Some 2%positive /\
  ActiveWidget (GUI s3) = None /\
  trace s3 = [ToWidget 2 EvPress; ToWidget 2 EvFocus; ToWidget 2 EvMove; ToWidget 2 EvRelease].
Proof. by vm_compute. Qed.

(** ** Process loop *)

Lemma count_all (p : event -> bool) (evs : list event) :
  Forall (fun e => p e = true) evs -> count p evs = Z.of_nat (length evs).
Proof.
  induction 1 as [|e evs He _ IH]; [done|]. rewrite count_cons, He, IH. simpl. lia.
Qed.

Lemma count_none (p : event -> bool) (evs : list event) :
  Forall (fun e => p e = false) evs -> count p evs = 0.
Proof.
  induction 1 as [|e evs He _ IH]; [done|]. rewrite count_cons, He, IH. done.
Qed.

Lemma timers_advance_fired (elapsed : Z) (l : list GUI_TIMER_t) :
  Forall (fun e => is_fired e = true) (timers_advance elapsed l).2.
Proof.
  induction l as [|t l IH]; [constructor|]. simpl.
  destruct (timer_advance elapsed t) as [r e1] eqn:Ht.
  destruct (timers_advance elapsed l) as [l2 e2]. simpl in *.
  apply Forall_app. split; [|done].
  apply timer_run_events in Ht as [Hev _].
  eapply Forall_impl; [exact Hev|]. by intros e ->.
Qed.

Lemma timers_advance_idle (elapsed : Z) (l : list GUI_TIMER_t) :
  Forall (fun t => elapsed < Counter t) l -> (timers_advance elapsed l).2 = [].
Proof.
  induction 1 as [|t l Ht _ IH]; [done|]. simpl.
  unfold timer_advance at 1. simpl.
  destruct (Z.ltb_spec elapsed (Counter t)); [|lia].
  destruct (timers_advance elapsed l) as [l2 e2]. simpl in *. done.
Qed.

Lemma works_refl (p : event -> bool) (s : state) : works p 0 s s.
Proof. exists []. by rewrite app_nil_r. Qed.

Lemma works_trans (p : event -> bool) (n k : Z) (s s1 s2 : state) :
  works p n s s1 -> works p k s1 s2 -> works p (n + k) s s2.
Proof.
  intros (e1 & Ht1 & -> & Hp1 & Hm1) (e2 & Ht2 & -> & Hp2 & Hm2).
  exists (e1 ++ e2). rewrite Ht2, Ht1, <- app_assoc, length_app.
  repeat split; [lia|by apply Forall_app|congruence].
Qed.

Lemma works_set_GUI (p : event -> bool) (n : Z) (f : GUI_t -> GUI_t) (s s' : state) :
  works p n s s' -> works p n s (set_GUI f s').
Proof. intros (evs & Ht & Hn & Hp & Hm). by exists evs. Qed.

Lemma advance_works (d : Z) (s : state) :
  works is_fired (advance d s).1 s (advance d s).2.
Proof.
  rewrite advance_unfold. simpl. eexists. split; [done|]. split; [done|].
  split; [apply timers_advance_fired|done].
Qed.

Lemma process_touch_works (t : __GUI_TouchData_t) (s : state) :
  works is_dispatch (process_touch t s).1 s (process_touch t s).2.
Proof.
  unfold process_touch. set (s0 := set_GUI _ s).
  assert (H0 : works is_dispatch 0 s s0) by (apply works_set_GUI, works_refl).
  match goal with |- works _ (let '(n, s1) := ?e in _).1 _ _ =>
    assert (works is_dispatch e.1 s e.2) as He end.
  { destruct (Status t).
    - destruct (ActiveWidget (GUI s0)) as [a|].
      + destruct (same_position _ _); [done|].
        exists [ToWidget a EvMove]. repeat split; try done. by repeat constructor.
      + destruct (findAt s0 (TX t) (TY t)) as [w|]; [|done].
        match goal with |- context [focus_set w ?s1] =>
          destruct (focus_set_trace w s1) as (foc & Htr & Hfoc & Hn & _);
          pose proof (focus_set_mem w s1) as Hmem;
          destruct (focus_set w s1) as [k s2] end.
        simpl in *. exists (ToWidget w EvPress :: foc).
        rewrite Htr, <- app_assoc, Hn. repeat split; try done.
        * simpl. lia.
        * constructor; [done|]. eapply Forall_impl; [exact Hfoc|].
          by intros [| | |? []| |].
    - destruct (ActiveWidget (GUI s0)) as [a|]; [|done].
      exists [ToWidget a EvRelease]. repeat split; try done. by repeat constructor. }
  destruct (_ : Z * state) as [n s1]. simpl in *. by apply works_set_GUI.
Qed.

Lemma process_samples_works (l : list __GUI_TouchData_t) (s : state) :
  works is_dispatch (process_samples l s).1 s (process_samples l s).2.
Proof.
  revert s. induction l as [|t l IH]; intros s; [apply works_refl|]. simpl.
  pose proof (process_touch_works t s) as H1. destruct (process_touch t s) as [n s1].
  pose proof (IH s1) as H2. destruct (process_samples l s1) as [k s2].
  simpl in *. by eapply works_trans.
Qed.

Lemma works_count (p q : event -> bool) (n : Z) (s s' : state) :
  works p n s s' -> (forall e, p e = true -> q e = false) ->
  exists evs, trace s' = trace s ++ evs /\ count p evs = n /\ count q evs = 0 /\
    mem s' = mem s.
Proof.
  intros (evs & Ht & -> & Hp & Hm) Hpq. exists evs. split; [done|].
  split; [by apply count_all|]. split; [|done].
  apply count_none. eapply Forall_impl; [exact Hp|]. done.
Qed.

Lemma count_each_idle {A : Type} (step : A -> state -> Z * state) (l : list A) (s : state) :
  (forall a, step a s = (0, s)) -> count_each step l s = (0, s).
Proof.
  intros Hstep. induction l as [|a l IH]; [done|]. cbn [count_each].
  by rewrite Hstep, IH.
Qed.

(** Nothing is drawn when no widget is dirty. *)
Lemma redraw_clean (fuel : nat) (ox oy : Z) (clip : GUI_Display_t) (h : handle) (s : state) :
  clean s -> redraw fuel false ox oy clip h s = (0, s).
Proof.
  intros Hclean. revert ox oy clip h.
  induction fuel as [|fuel IH]; intros ox oy clip h; [done|]. simpl.
  destruct (mem s !! h) as [w|] eqn:Hh; [|done].
  destruct (Visible w); [|done].
  destruct (intersect clip (abs_rect ox oy w)) as [c|]; [|done].
  rewrite (Hclean h w Hh). simpl. by rewrite count_each_idle.
Qed.

Lemma redraw_all_clean (s : state) : clean s -> redraw_all s = (0, s).
Proof.
  intros Hclean. unfold redraw_all. apply count_each_idle.
  intros a. by apply redraw_clean.
Qed.

Lemma GUI_Process_unfold (s : state) :
  GUI_Process s =
    let a := advance (elapsed s) s in
    let s1 := set_GUI (fun g => with_Timers
                (mkTimerCore (Time (GUI s)) (List (Timers g))) g) a.2 in
    let b := process_input s1 in
    let c := redraw_all b.2 in
    (a.1 + b.1 + c.1, c.2).
Proof.
  unfold GUI_Process, elapsed. cbv zeta.
  destruct (advance _ s) as [n1 s1]. cbn [fst snd].
  destruct (process_input _) as [n2 s2]. cbn [fst snd].
  by destruct (redraw_all s2) as [n3 s3].
Qed.

(** C8: the value [GUI_Process] returns is the number of calls of the
    drawing driver plus the number of timer callbacks plus the number of
    events delivered to widgets that the call adds to the trace, and
    nothing else is added; it is not negative; and it is zero when no timer
    runs out, no sample is queued and no widget is dirty. *)
Theorem GUI_Process_work_count (s : state) :
  exists evs,
    trace (GUI_Process s).2 = trace s ++ evs /\
    (GUI_Process s).1 = count is_draw evs + count is_fired evs + count is_dispatch evs /\
    (GUI_Process s).1 = Z.of_nat (length evs) /\
    0 <= (GUI_Process s).1 /\
    (timers_idle s -> input s = [] -> clean s -> (GUI_Process s).1 = 0).
Proof.
  rewrite GUI_Process_unfold. cbv zeta.
  pose proof (advance_works (elapsed s) s) as H1.
  destruct (advance (elapsed s) s) as [n1 s1] eqn:Hadv. cbn [fst snd] in *.
  set (s1' := set_GUI _ s1).
  pose proof (process_samples_works (input s1') (set_input (fun _ => []) s1')) as H2.
  change (process_samples (input s1') (set_input (fun _ => []) s1'))
    with (process_input s1') in H2.
  pose proof (redraw_all_draws (process_input s1').2) as H3.
  assert (Hidle2 : input s1' = [] -> process_input s1' = (0, set_input (fun _ => []) s1')).
  { intros Hq. unfold process_input. by rewrite Hq. }
  destruct (process_input s1') as [n2 s2]. cbn [fst snd] in *.
  assert (Hidle3 : clean s2 -> redraw_all s2 = (0, s2)) by apply redraw_all_clean.
  destruct (redraw_all s2) as [n3 s3]. cbn [fst snd] in *.
  destruct H1 as (e1 & Ht1 & -> & Hp1 & Hm1).
  destruct H2 as (e2 & Ht2 & -> & Hp2 & Hm2).
  destruct H3 as (e3 & Ht3 & -> & Hp3 & _ & Hg3 & Hi3).
  simpl in Ht2, Hm2.
  exists (e1 ++ e2 ++ e3). split; [|split; [|split; [|split]]].
  - rewrite Ht3, Ht2, Ht1, <- !app_assoc. done.
  - rewrite !count_app.
    rewrite (count_all is_fired e1), (count_all is_dispatch e2), (count_all is_draw e3)
      by done.
    rewrite (count_none is_draw e1), (count_none is_draw e2),
      (count_none is_fired e2), (count_none is_fired e3),
      (count_none is_dispatch e1), (count_none is_dispatch e3); [lia|..];
      (eapply Forall_impl; [eassumption|]); by intros [].
  - rewrite !length_app. lia.
  - lia.
  - intros Htimers Hinput Hclean.
    assert (e1 = []) as ->.
    { rewrite advance_unfold in Hadv. injection Hadv as _ Hs1.
      apply (f_equal trace) in Hs1. simpl in Hs1. rewrite Ht1 in Hs1.
      apply app_inv_head in Hs1. rewrite <- Hs1. by apply timers_advance_idle. }
    assert (Hq : input s1' = []).
    { subst s1'. simpl. rewrite advance_unfold in Hadv. injection Hadv as _ <-. done. }
    injection (Hidle2 Hq) as Hn2 Hs2.
    assert (clean s2) as Hclean2.
    { intros x w Hx. rewrite Hs2 in Hx. simpl in Hx. rewrite Hm1 in Hx. eauto. }
    injection (Hidle3 Hclean2) as Hn3 _. simpl in *. lia.
Qed.

(** After a first pass has drawn the scenario, a second pass without new
    input finds nothing to do. *)
Lemma GUI_Process_work_count_witness :
  let s := run demo_pressed (GUI_Init (mkLCD 320 240)) in
  timers_idle s /\ input s = [] /\ clean s /\ (GUI_Process s).1 = 0.
Proof.
  cbv zeta.
  destruct (GUI_Process_work_count (run demo_pressed (GUI_Init (mkLCD 320 240))))
    as (evs & _ & _ & _ & _ & Hidle).
  assert (Htimers : timers_idle (run demo_pressed (GUI_Init (mkLCD 320 240))))
    by (vm_compute; constructor).
  assert (Hclean : clean (run demo_pressed (GUI_Init (mkLCD 320 240)))).
  { assert (map_Forall (fun _ w => Dirty w = false)
              (mem (run demo_pressed (GUI_Init (mkLCD 320 240))))) as Hall.
    { apply (bool_decide_unpack _). vm_compute. exact I. }
    intros x w Hx. exact (Hall x w Hx). }
  split; [exact Htimers|]. split; [reflexivity|]. split; [exact Hclean|].
  apply Hidle; [exact Htimers|reflexivity|exact Hclean].
Defined.

(** The first pass over the scenario counts the press, the focus and the
    two widgets drawn; a pass with nothing to do returns 0. *)
Example GUI_Process_demo :
  (GUI_Process (run (take 4 demo_pressed) (GUI_Init (mkLCD 320 240)))).1 = 4 /\
  (GUI_Process (run demo_pressed (GUI_Init (mkLCD 320 240)))).1 = 0.
Proof. by vm_compute. Qed.

(** ** The fuel of the walks is never used up

    The hit test and the redraw pass start with more fuel than the tree is
    high; more fuel does not change their result. *)

Lemma first_some_ext {A B : Type} (f g : A -> option B) (l : list A) :
  (forall x, x ∈ l -> f x = g x) -> first_some f l = first_some g l.
Proof.
  induction l as [|a l IH]; intros H; [done|]. simpl.
  rewrite (H a) by left. rewrite IH; [done|]. intros x Hx. apply H. by right.
Qed.

Lemma find_widget_fuel (m : gmap handle GUI_HANDLE) (roots : list handle) (px py : Z)
    (f : nat) (ox oy : Z) (clip : GUI_Display_t) (h : handle) :
  wf_tree m roots ->
  (forall x n, chain m h x n -> (n < f)%nat) ->
  find_widget (S f) m ox oy clip px py h = find_widget f m ox oy clip px py h.
Proof.
  intros Hwf. revert ox oy clip h. induction f as [|f IH]; intros ox oy clip h Hfuel.
  - simpl. destruct (m !! h) as [w|] eqn:Hh; [|done].
    exfalso. assert (0 < 0)%nat; [|lia]. apply (Hfuel h). constructor. eauto.
  - change (find_widget (S (S f)) m ox oy clip px py h) with
      (match m !! h with
       | None => None
       | Some w =>
         if Visible w && negb (Disabled w) then
           match intersect clip (abs_rect ox oy w) with
           | None => None
           | Some c =>
             if contains c px py then
               match first_some (find_widget (S f) m (ox + X w) (oy + Y w) c px py)
                       (reverse (Children w)) with
               | Some r => Some r
               | None => Some h
               end
             else None
           end
         else None
       end).
    simpl. destruct (m !! h) as [w|] eqn:Hh; [|done].
    destruct (Visible w && negb (Disabled w)); [|done].
    destruct (intersect clip (abs_rect ox oy w)) as [c|]; [|done].
    destruct (contains c px py); [|done].
    rewrite (first_some_ext (find_widget (S f) m (ox + X w) (oy + Y w) c px py)
               (find_widget f m (ox + X w) (oy + Y w) c px py)); [done|].
    intros x Hx. rewrite elem_of_reverse in Hx. apply IH. intros y n Hn.
    destruct (wf_child _ _ Hwf h w x Hh Hx) as (xw & Hxw & Hxp).
    assert (S n < S f)%nat; [|lia]. apply (Hfuel y). eapply chain_extend; eauto.
Qed.

(** With any amount of additional fuel, [findAt] finds the same widget. *)
Lemma findAt_fuel (s : state) (px py : Z) (k : nat) :
  wf s ->
  first_some
    (find_widget (S (size (mem s)) + k) (mem s) 0 0 (full_display (GUI s)) px py)
    (reverse (Root (GUI s))) = findAt s px py.
Proof.
  intros [Hwf _ _ _ _ _]. unfold findAt. induction k as [|k IH]; [by rewrite Nat.add_0_r|].
  rewrite <- IH. apply first_some_ext. intros x Hx. rewrite elem_of_reverse in Hx.
  replace (S (size (mem s)) + S k)%nat with (S (S (size (mem s)) + k)) by lia.
  apply (find_widget_fuel _ _ _ _ _ _ _ _ _ Hwf). intros y n Hn.
  destruct (wf_root _ _ Hwf x Hx) as (w & Hw & Hp).
  pose proof (chain_depth _ _ _ _ _ Hn (depth_top _ _ _ Hw Hp)) as Hy.
  apply depth_lt_size in Hy. lia.
Qed.

Lemma same_links_chain (m m' : gmap handle GUI_HANDLE) (a x : handle) (n : nat) :
  same_links m m' -> chain m' a x n -> chain m a x n.
Proof.
  intros H. induction 1 as [Ha|x w p n Hx Hp _ IH].
  - constructor. by eapply same_links_live; [apply same_links_sym|].
  - destruct (same_links_lookup _ _ _ _ H Hx) as (v & Hv & Hvp & _).
    eapply chain_up; [done| |done]. congruence.
Qed.

Lemma same_links_size (m m' : gmap handle GUI_HANDLE) :
  same_links m m' -> size m' = size m.
Proof.
  intros H. rewrite <- !size_dom. f_equal. apply set_eq. intros x.
  rewrite !elem_of_dom. split; intros Hx.
  - by eapply same_links_live; [apply same_links_sym|].
  - by eapply same_links_live.
Qed.

(** Two ways to do the steps of a loop agree when they agree on every state
    the loop reaches, the links of the tree being kept. *)
Lemma count_each_ext {A : Type} (step1 step2 : A -> state -> Z * state) (l : list A)
    (s0 s : state) :
  same_links (mem s0) (mem s) ->
  (forall a s', a ∈ l -> same_links (mem s0) (mem s') -> step1 a s' = step2 a s') ->
  (forall a s', same_links (mem s') (mem (step2 a s').2)) ->
  count_each step1 l s = count_each step2 l s.
Proof.
  intros Hl Heq Hkeep. revert s Hl. induction l as [|a l IH]; intros s Hl; [done|].
  cbn [count_each]. rewrite (Heq a s) by (done || left).
  pose proof (Hkeep a s) as Hs1. destruct (step2 a s) as [n s1]. simpl in Hs1.
  rewrite IH; [done| |by eapply same_links_trans].
  intros a' s' Ha'. apply Heq. by right.
Qed.

Lemma redraw_links (fuel : nat) (inherited : bool) (ox oy : Z) (clip : GUI_Display_t)
    (h : handle) (s : state) :
  same_links (mem s) (mem (redraw fuel inherited ox oy clip h s).2).
Proof. by destruct (redraw_draws fuel inherited ox oy clip h s) as (_ & _ & _ & _ & ? & _). Qed.

Lemma redraw_S (f : nat) (inherited : bool) (ox oy : Z) (clip : GUI_Display_t)
    (h : handle) (s : state) :
  redraw (S f) inherited ox oy clip h s =
    match mem s !! h with
    | None => (0, s)
    | Some w =>
      if Visible w then
        match intersect clip (abs_rect ox oy w) with
        | None => (0, s)
        | Some c =>
          let d := inherited || Dirty w in
          let '(n, s1) := if d then (1, draw h c s) else (0, s) in
          let '(k, s2) :=
            count_each (redraw f d (ox + X w) (oy + Y w) c) (Children w) s1 in
          (n + k, s2)
        end
      else (0, s)
    end.
Proof. reflexivity. Qed.

Lemma redraw_fuel (s0 : state) (f : nat) (inherited : bool) (ox oy : Z)
    (clip : GUI_Display_t) (h : handle) (s : state) :
  wf_tree (mem s0) (Root (GUI s0)) -> same_links (mem s0) (mem s) ->
  (forall x n, chain (mem s0) h x n -> (n < f)%nat) ->
  redraw (S f) inherited ox oy clip h s = redraw f inherited ox oy clip h s.
Proof.
  intros Hwf. revert inherited ox oy clip h s.
  induction f as [|f IH]; intros inherited ox oy clip h s Hl Hfuel.
  - rewrite redraw_S. destruct (mem s !! h) as [w|] eqn:Hh; [|done].
    exfalso. assert (0 < 0)%nat; [|lia]. apply (Hfuel h). constructor.
    eapply same_links_live; [by apply same_links_sym|eauto].
  - rewrite (redraw_S (S f)), (redraw_S f).
    destruct (mem s !! h) as [w|] eqn:Hh; [|done].
    destruct (Visible w); [|done].
    destruct (intersect clip (abs_rect ox oy w)) as [c|]; [|done].
    cbv zeta. set (d := inherited || Dirty w).
    assert (Hfirst : same_links (mem s)
              (mem (if d then (1, draw h c s) else (0, s)).2)).
    { destruct d; [|done]. simpl. by apply same_links_alter. }
    destruct (if d then (1, draw h c s) else (0, s)) as [n s1]. simpl in Hfirst.
    rewrite (count_each_ext (redraw (S f) d (ox + X w) (oy + Y w) c)
               (redraw f d (ox + X w) (oy + Y w) c) (Children w) s0 s1); [done| | |].
    + by eapply same_links_trans.
    + intros a s' Ha Hs'. apply IH; [done|]. intros x n' Hn.
      destruct (same_links_lookup _ _ _ _ Hl Hh) as (w0 & Hw0 & _ & Hcs).
      rewrite <- Hcs in Ha.
      destruct (wf_child _ _ Hwf h w0 a Hw0 Ha) as (aw & Haw & Hap).
      assert (S n' < S f)%nat; [|lia]. apply (Hfuel x). eapply chain_extend; eauto.
    + intros a s'. apply redraw_links.
Qed.

(** With any amount of additional fuel, the redraw pass does the same. *)
Lemma redraw_all_fuel (s : state) (k : nat) :
  wf s ->
  count_each (redraw (S (size (mem s)) + k) false 0 0 (Display (GUI s)))
    (Root (GUI s)) s = redraw_all s.
Proof.
  intros [Hwf _ _ _ _ _]. unfold redraw_all.
  induction k as [|k IH]; [by rewrite Nat.add_0_r|].
  rewrite <- IH. replace (S (size (mem s)) + S k)%nat with (S (S (size (mem s)) + k)) by lia.
  apply (count_each_ext _ _ _ s s); [done| |].
  - intros a s' Ha Hs'. apply (redraw_fuel s); [done..|].
    intros y n Hn. destruct (wf_root _ _ Hwf a Ha) as (w & Hw & Hp).
    pose proof (chain_depth _ _ _ _ _ Hn (depth_top _ _ _ Hw Hp)) as Hy.
    apply depth_lt_size in Hy. lia.
  - intros a s'. apply redraw_links.
Qed.

(** * Further properties of the macros of [gui.h] *)

(** ** Maximum and minimum *)

(** X1: [__GUI_MAX] returns one of its arguments, which is the least number
    above both, and [__GUI_MIN] one that is the greatest number below
    both; the two together return both arguments. *)
Theorem GUI_MAX_MIN_bounds (x y : Z) :
  (__GUI_MAX x y = x \/ __GUI_MAX x y = y) /\
  (__GUI_MIN x y = x \/ __GUI_MIN x y = y) /\
  __GUI_MIN x y <= x <= __GUI_MAX x y /\
  __GUI_MIN x y <= y <= __GUI_MAX x y /\
  (forall z, x <= z -> y <= z -> __GUI_MAX x y <= z) /\
  (forall z, z <= x -> z <= y -> z <= __GUI_MIN x y) /\
  __GUI_MIN x y + __GUI_MAX x y = x + y.
Proof. rewrite GUI_MAX_max, GUI_MIN_min. repeat apply conj; intros; lia. Qed.

Lemma operands_pure {S : Type} (o : operand_order) (x y : cexpr S) (s : S) :
  pure x -> pure y -> operands o x y s = ((x s).1, (y s).1, s).
Proof.
  intros Hx Hy. unfold operands. destruct o.
  - pose proof (Hx s) as H1. destruct (x s) as [vx s1]. simpl in H1. subst s1.
    pose proof (Hy s) as H2. destruct (y s) as [vy s2]. simpl in H2. by subst s2.
  - pose proof (Hy s) as H2. destruct (y s) as [vy s2]. simpl in H2. subst s2.
    pose proof (Hx s) as H1. destruct (x s) as [vx s1]. simpl in H1. by subst s1.
Qed.

(** X2: on arguments without side effects the expansions of [__GUI_MAX],
    [__GUI_MIN] and [__GUI_ABS] give the maximum, the minimum and the
    absolute value of the values of the arguments and leave the store as
    it is, whatever the order in which the operands are evaluated. *)
Theorem expand_pure {S : Type} (o : operand_order) (W w : Z) (x y : cexpr S) (s : S) :
  pure x -> pure y ->
  __GUI_MAX_expand o x y s = (__GUI_MAX (x s).1 (y s).1, s) /\
  __GUI_MIN_expand o x y s = (__GUI_MIN (x s).1 (y s).1, s) /\
  __GUI_ABS_expand W w x s = (fun v => (v, s)) <$> __GUI_ABS W w (x s).1.
Proof.
  intros Hx Hy. unfold __GUI_MAX_expand, __GUI_MIN_expand, __GUI_ABS_expand.
  rewrite operands_pure by done. unfold __GUI_MAX, __GUI_MIN, __GUI_ABS.
  pose proof (Hx s) as H1. pose proof (Hy s) as H2.
  destruct (x s) as [vx s1] eqn:Ex, (y s) as [vy s2] eqn:Ey. simpl in *. subst s1 s2.
  split; [|split].
  - by destruct (vx >? vy).
  - by destruct (vx <? vy).
  - rewrite Ex. by destruct (vx >=? 0).
Qed.

Lemma expand_pure_witness :
  __GUI_MAX_expand RightFirst (fun i : Z => (i * i, i)) (const 10) 4 = (__GUI_MAX 16 10, 4) /\
  __GUI_MIN_expand RightFirst (fun i : Z => (i * i, i)) (const 10) 4 = (__GUI_MIN 16 10, 4) /\
  __GUI_ABS_expand 32 32 (fun i : Z => (i * i, i)) 4 =
    (fun v => (v, 4)) <$> __GUI_ABS 32 32 16.
Proof.
  apply (expand_pure RightFirst 32 32 (fun i : Z => (i * i, i)) (const 10) 4).
  - intros s. reflexivity.
  - intros s. reflexivity.
Defined.


(** ** Absolute value *)

(** The cases of [__GUI_ABS] on a value of a [w]-bit type. *)
Lemma GUI_ABS_cases (W w x : Z) :
  1 <= w -> in_int w x ->
  (W <= w /\ x = int_min w /\ __GUI_ABS W w x = None) \/
  (~ (W <= w /\ x = int_min w) /\ __GUI_ABS W w x = Some (Z.abs x)).
Proof.
  intros Hw [Hlo Hhi]. pose proof (pow2_pos w Hw) as Hp.
  assert (Hneg : int_min w < 0) by (unfold int_min; lia).
  unfold __GUI_ABS. destruct (Z.geb_spec x 0) as [Hx|Hx].
  { right. split; [lia|]. f_equal. lia. }
  destruct (decide (x = int_min w)) as [->|Hne].
  - destruct (neg_int_min W w Hw) as [Hnarrow Hwide].
    destruct (Z.le_gt_cases W w) as [HW|HW].
    + left. rewrite Hwide by done. done.
    + right. rewrite Hnarrow by lia. split; [lia|]. f_equal. unfold int_min. lia.
  - right. rewrite neg_exact by lia. split; [tauto|]. f_equal. lia.
Qed.

Lemma GUI_ABS_result (W w x r : Z) :
  1 <= w -> in_int w x -> __GUI_ABS W w x = Some r ->
  r = Z.abs x /\ in_int (promote W w) r.
Proof.
  intros Hw Hx Hr. pose proof (pow2_pos w Hw) as Hp.
  destruct (pow2_wider w (promote W w) Hw) as [Hle Hlt].
  specialize (Hle ltac:(unfold promote; lia)).
  destruct (GUI_ABS_cases W w x Hw Hx) as [(_ & _ & Hn)|(Hdef & Hs)]; [congruence|].
  rewrite Hs in Hr. injection Hr as <-. split; [done|].
  destruct Hx as [Hlo Hhi]. unfold in_int, int_min, int_max in *.
  assert (W <= w \/ w < W) as [HW|HW] by lia.
  - assert (x <> - 2 ^ (w - 1)) by tauto. lia.
  - specialize (Hlt ltac:(unfold promote; lia)). lia.
Qed.

(** X4: [__GUI_ABS] on a signed value of a [w]-bit type has no defined
    result exactly at the least value of a type that is at least as wide
    as [int]; a result lies in the promoted type, converted to the
    unsigned type of [w] bits it is the absolute value of the argument,
    and it fits the signed type of the argument exactly when the argument
    is not the least value. *)
Theorem GUI_ABS_unsigned (W w x : Z) :
  1 <= w -> in_int w x ->
  (__GUI_ABS W w x = None <-> W <= w /\ x = int_min w) /\
  (forall r, __GUI_ABS W w x = Some r ->
     in_int (promote W w) r /\ r mod 2 ^ w = Z.abs x /\
     (in_int w r <-> x <> int_min w)).
Proof.
  intros Hw Hx. pose proof (pow2_pos w Hw) as Hp. pose proof (pow2_split w Hw) as Hs.
  destruct (pow2_wider w (promote W w) Hw) as [Hle Hlt].
  specialize (Hle ltac:(unfold promote; lia)).
  destruct (GUI_ABS_cases W w x Hw Hx) as [(HW & -> & Hn)|(Hdef & Hr)].
  - rewrite Hn. split; [done|]. by intros r.
  - rewrite Hr. split; [split; [done|tauto]|].
    intros r [= <-]. destruct Hx as [Hlo Hhi]. unfold in_int, int_min, int_max in *.
    assert (W <= w \/ w < W) as [HW|HW] by lia.
    + assert (x <> - 2 ^ (w - 1)) by tauto.
      split; [lia|]. split; [rewrite Z.mod_small by lia; done|]. split; [done|lia].
    + specialize (Hlt ltac:(unfold promote; lia)).
      split; [lia|]. split; [rewrite Z.mod_small by lia; done|]. lia.
Qed.

Lemma GUI_ABS_unsigned_witness :
  in_int (promote 32 8) 128 /\ 128 mod 2 ^ 8 = Z.abs (-128) /\
  (in_int 8 128 <-> -128 <> int_min 8).
Proof.
  assert (H8 : 1 <= 8) by lia.
  assert (Hx : in_int 8 (-128)) by (unfold in_int, int_min, int_max; simpl; lia).
  destruct (GUI_ABS_unsigned 32 8 (-128) H8 Hx) as [_ Hr].
  apply (Hr 128). reflexivity.
Defined.

(** X5: where [__GUI_ABS] has a result, applying it to the result gives
    the result again, and applying it to the negation of the argument,
    where that is defined, gives the same result; the result and the
    negation have the promoted type. *)
Theorem GUI_ABS_idempotent_even (W w x r : Z) :
  1 <= w -> in_int w x -> __GUI_ABS W w x = Some r ->
  __GUI_ABS W (promote W w) r = Some r /\
  (forall n, neg W w x = Some n -> __GUI_ABS W (promote W w) n = Some r).
Proof.
  intros Hw Hx Hr.
  destruct (GUI_ABS_result W w x r Hw Hx Hr) as (-> & Hin).
  split.
  - unfold __GUI_ABS. destruct (Z.geb_spec (Z.abs x) 0); [done|lia].
  - intros n [-> Hn]%neg_Some. unfold __GUI_ABS.
    destruct (Z.geb_spec (- x) 0) as [Hle|Hgt]; [f_equal; lia|].
    assert (neg W (promote W w) (- x) = Some (- - x)) as ->.
    { apply neg_Some. split; [done|].
      replace (promote W (promote W w)) with (promote W w) by (unfold promote; lia).
      rewrite Z.opp_involutive. replace x with (Z.abs x) by lia. done. }
    f_equal. lia.
Qed.

Lemma GUI_ABS_idempotent_even_witness :
  __GUI_ABS 32 (promote 32 16) 32768 = Some 32768 /\
  (forall n, neg 32 16 (-32768) = Some n -> __GUI_ABS 32 (promote 32 16) n = Some 32768).
Proof.
  apply (GUI_ABS_idempotent_even 32 16 (-32768) 32768).
  - lia.
  - unfold in_int, int_min, int_max. simpl. lia.
  - reflexivity.
Defined.

(** ** Overlap test *)

(** X6: a rectangle overlaps itself exactly when it is well-formed; a
    rectangle with [x1 > x2] or [y1 > y2] does not match itself. *)
Theorem rect_match_self (a : GUI_Display_t) :
  rect_match a a = true <-> well_formed a.
Proof. rewrite rect_match_true. unfold well_formed. lia. Qed.

Lemma inside_common_box (a b : GUI_Display_t) (px py : Z) :
  inside (common_box a b) px py <-> inside a px py /\ inside b px py.
Proof.
  unfold inside, common_box. simpl. rewrite !GUI_MAX_max, !GUI_MIN_min. lia.
Qed.

(** X7: the rectangle that [__GUI_MAX] makes of the first corners and
    [__GUI_MIN] of the second corners of two rectangles holds exactly the
    points the two have in common, and two well-formed rectangles pass the
    overlap test exactly when it is well-formed. *)
Theorem rect_match_common_box (a b : GUI_Display_t) :
  (forall px py, inside (common_box a b) px py <-> inside a px py /\ inside b px py) /\
  (well_formed a -> well_formed b ->
   (rect_match a b = true <-> well_formed (common_box a b))).
Proof.
  split; [apply inside_common_box|]. intros Ha Hb.
  rewrite rect_match_true. unfold well_formed, common_box in *. simpl.
  rewrite !GUI_MAX_max, !GUI_MIN_min. lia.
Qed.

Lemma rect_match_common_box_witness :
  let a := mkDisplay 0 0 320 240 in
  let b := mkDisplay 300 200 400 300 in
  rect_match a b = true /\ well_formed (common_box a b) /\
  inside (common_box a b) 310 220.
Proof.
  cbv zeta.
  destruct (rect_match_common_box (mkDisplay 0 0 320 240) (mkDisplay 300 200 400 300))
    as [Hpoints Hwf].
  split; [reflexivity|]. split.
  - apply Hwf; [unfold well_formed; simpl; lia..|reflexivity].
  - apply Hpoints. unfold inside. simpl. lia.
Defined.

(** X8: the overlap test gives the same answer when both rectangles are
    moved by the same amount, and a rectangle that overlaps [b] still does
    when it is enlarged. *)
Theorem rect_match_shift_within (a a' b : GUI_Display_t) (dx dy : Z) :
  rect_match (shift dx dy a) (shift dx dy b) = rect_match a b /\
  (within a a' -> rect_match a b = true -> rect_match a' b = true).
Proof.
  split.
  - apply eq_true_iff_eq. rewrite !rect_match_true. unfold shift. simpl. lia.
  - rewrite !rect_match_true. unfold within. lia.
Qed.

Lemma rect_match_shift_within_witness :
  let a := mkDisplay 10 10 110 40 in
  let a' := mkDisplay 0 0 320 240 in
  let b := mkDisplay 100 30 200 60 in
  rect_match (shift 50 (-20) a) (shift 50 (-20) b) = rect_match a b /\
  rect_match a' b = true.
Proof.
  cbv zeta.
  destruct (rect_match_shift_within (mkDisplay 10 10 110 40) (mkDisplay 0 0 320 240)
              (mkDisplay 100 30 200 60) 50 (-20)) as [Hshift Hwithin].
  split; [exact Hshift|].
  apply Hwithin; [unfold within; simpl; lia|reflexivity].
Defined.

(** X9: three well-formed rectangles of which every two pass the overlap
    test have a point in common. *)
Theorem rect_match_three (a b c : GUI_Display_t) :
  well_formed a -> well_formed b -> well_formed c ->
  rect_match a b = true -> rect_match b c = true -> rect_match a c = true ->
  exists px py, inside a px py /\ inside b px py /\ inside c px py.
Proof.
  intros [Hax Hay] [Hbx Hby] [Hcx Hcy].
  rewrite !rect_match_true. intros Hab Hbc Hac.
  exists (Z.max (X1 a) (Z.max (X1 b) (X1 c))), (Z.max (Y1 a) (Z.max (Y1 b) (Y1 c))).
  unfold inside. lia.
Qed.

Lemma rect_match_three_witness :
  exists px py,
    inside (mkDisplay 0 0 100 100) px py /\ inside (mkDisplay 50 50 150 150) px py /\
    inside (mkDisplay 100 0 200 60) px py.
Proof.
  apply (rect_match_three (mkDisplay 0 0 100 100) (mkDisplay 50 50 150 150)
           (mkDisplay 100 0 200 60));
    first [reflexivity | unfold well_formed; simpl; lia].
Defined.

(** ** Release macros *)

Lemma lawful_ActiveWidget : lawful lv_ActiveWidget.
Proof. split; try done. Qed.

(** X10: [__GUI_MEMFREE(p)] on a pointer variable that holds a live block
    releases that block and no other, prints nothing and leaves the
    variable null; applied again to the same variable it does nothing. *)
Theorem MEMFREE_nulls_pointer (p : lvalue) (s : state) (a : handle) (w : GUI_HANDLE) :
  lawful p -> load p s = Some a -> mem s !! a = Some w ->
  exists s',
    Lvalue.__GUI_MEMFREE p s = Returned tt s' /\
    load p s' = None /\ mem s' = delete a (mem s) /\ trace s' = trace s /\
    Lvalue.__GUI_MEMFREE p s' = Returned tt s'.
Proof.
  intros Hp Hload Hlive. unfold Lvalue.__GUI_MEMFREE. rewrite Hload. simpl. rewrite Hlive.
  eexists. split; [reflexivity|].
  rewrite (load_store _ Hp), (store_mem _ Hp), (store_trace _ Hp). simpl.
  by rewrite (store_store _ Hp).
Qed.

Lemma MEMFREE_nulls_pointer_witness :
  let s := run demo_pressed (GUI_Init (mkLCD 320 240)) in
  exists s',
    Lvalue.__GUI_MEMFREE lv_ActiveWidget s = Returned tt s' /\
    load lv_ActiveWidget s' = None /\ mem s' = delete 2%positive (mem s) /\
    trace s' = trace s /\
    Lvalue.__GUI_MEMFREE lv_ActiveWidget s' = Returned tt s'.
Proof.
  cbv zeta.
  apply (MEMFREE_nulls_pointer lv_ActiveWidget (run demo_pressed (GUI_Init (mkLCD 320 240)))
           2%positive (mkHandle demo_button 10 10 100 30 true false false (Some 1%positive) [])).
  - apply lawful_ActiveWidget.
  - vm_compute. reflexivity.
  - vm_compute. reflexivity.
Defined.

(** X11: [__GUI_MEMWIDFREE(p)] on a pointer variable that holds a live
    widget prints the one line with the address and the name of the kind,
    releases that widget and no other and leaves the variable null; applied
    again to the same variable its behaviour is undefined, and so it is on
    a null pointer, because the line is printed from the widget. *)
Theorem MEMWIDFREE_nulls_pointer (p : lvalue) (s : state) (a : handle) (w : GUI_HANDLE) :
  lawful p -> load p s = Some a -> mem s !! a = Some w ->
  exists s',
    Lvalue.__GUI_MEMWIDFREE p s = Returned tt s' /\
    s' = store p None (__GUI_MEMWIDFREE a w s) /\
    load p s' = None /\ mem s' = delete a (mem s) /\
    trace s' = trace s ++ [DebugMemFree a (Name (Widget w))] /\
    Lvalue.__GUI_MEMWIDFREE p s' = Undefined.
Proof.
  intros Hp Hload Hlive. unfold Lvalue.__GUI_MEMWIDFREE at 1. rewrite Hload, Hlive.
  unfold __GUI_DEBUG. rewrite (load_emit _ Hp), Hload. simpl. rewrite Hlive.
  eexists. split; [reflexivity|]. split; [reflexivity|].
  rewrite (load_store _ Hp), (store_mem _ Hp), (store_trace _ Hp). simpl.
  repeat split; try done.
  unfold Lvalue.__GUI_MEMWIDFREE. by rewrite (load_store _ Hp).
Qed.

Lemma MEMWIDFREE_nulls_pointer_witness :
  let s := run demo_pressed (GUI_Init (mkLCD 320 240)) in
  let w := mkHandle demo_button 10 10 100 30 true false false (Some 1%positive) [] in
  exists s',
    Lvalue.__GUI_MEMWIDFREE lv_ActiveWidget s = Returned tt s' /\
    s' = store lv_ActiveWidget None (__GUI_MEMWIDFREE 2%positive w s) /\
    load lv_ActiveWidget s' = None /\ mem s' = delete 2%positive (mem s) /\
    trace s' = trace s ++ [DebugMemFree 2%positive (Name (Widget w))] /\
    Lvalue.__GUI_MEMWIDFREE lv_ActiveWidget s' = Undefined.
Proof.
  cbv zeta.
  apply (MEMWIDFREE_nulls_pointer lv_ActiveWidget
           (run demo_pressed (GUI_Init (mkLCD 320 240))) 2%positive
           (mkHandle demo_button 10 10 100 30 true false false (Some 1%positive) [])).
  - apply lawful_ActiveWidget.
  - vm_compute. reflexivity.
  - vm_compute. reflexivity.
Defined.
